(** * The cache simulator of riscv/cachesim.h and riscv/cachesim.cc

    A shallow embedding of [lfsr_t], [cache_sim_t] and its derived classes
    [fa_cache_sim_t], [linear_evict_cache_sim_t] and [hawkeye_cache_sim_t],
    followed by the properties of the specification that concern them.

    Conventions.
    - [uint32_t], [uint64_t] and [size_t] values are integers of [Z]; every
      operation that can leave the range has its wrap-around written out
      ([wrap32], [wrap64]).
    - Operations whose behaviour C++ leaves undefined (a modulo by zero, a
      null dereference, an index below the array) evaluate to
      [Err Undefined]; [help()], which prints the usage banner and calls
      [exit(1)], evaluates to [Err UsageExit].
    - Calls that leave the object ([miss_handler->access], the predictor and
      the OPTgen engine) are recorded, in order, in the list of [event]s a
      method returns next to the new state.
    - [proc->get_state()->pc] is the argument [pc] of the methods that read
      it. *)

From Stdlib Require Import ZArith Lia Bool String Ascii.
From stdpp Require Import gmap list.

Local Open Scope Z_scope.

(* ===================================================================== *)
(** ** Machine words *)
(* ===================================================================== *)

Definition wrap32 (x : Z) : Z := x mod 2 ^ 32.
Definition wrap64 (x : Z) : Z := x mod 2 ^ 64.

(** [~x] on a [uint64_t]. *)
Definition not64 (x : Z) : Z := Z.lxor x (Z.ones 64).

(** [x << n] on a [uint64_t]. *)
Definition shl64 (x n : Z) : Z := wrap64 (Z.shiftl x n).

(** [static const uint64_t VALID = 1ULL << 63, DIRTY = 1ULL << 62]. *)
Definition VALID : Z := Z.shiftl 1 63.
Definition DIRTY : Z := Z.shiftl 1 62.

(** [static const uint32_t MAX_RRPV = 7]. *)
Definition MAX_RRPV : Z := 7.

(* ===================================================================== *)
(** ** Outcomes *)
(* ===================================================================== *)

Inductive error : Type :=
| UsageExit   (* help(): usage banner on std::cerr, then exit(1) *)
| Undefined.  (* undefined behaviour of the C++ program *)

Inductive res (A : Type) : Type :=
| Ok (a : A)
| Err (e : error).
Arguments Ok {A} a.
Arguments Err {A} e.

Definition res_bind {A B : Type} (m : res A) (k : A -> res B) : res B :=
  match m with
  | Ok a => k a
  | Err e => Err e
  end.

Notation "'let*' x ':=' m 'in' k" := (res_bind m (fun x => k))
  (at level 10, x pattern, m at level 100, k at level 200).

Definition is_ok {A : Type} (m : res A) : bool :=
  match m with Ok _ => true | Err _ => false end.

(* ===================================================================== *)
(** ** lfsr_t *)
(* ===================================================================== *)

Record lfsr_t : Type := { reg : Z }.

(** [lfsr_t() : reg(1) {}] *)
Definition lfsr_new : lfsr_t := {| reg := 1 |}.

(** [lfsr_t(const lfsr_t& lfsr) : reg(lfsr.reg) {}] *)
Definition lfsr_copy (l : lfsr_t) : lfsr_t := {| reg := reg l |}.

(** [uint32_t next() { return reg = (reg>>1)^(-(reg&1) & 0xd0000001); }] *)
Definition lfsr_next (l : lfsr_t) : lfsr_t * Z :=
  let r := Z.lxor (Z.shiftr (reg l) 1)
                  (Z.land (wrap32 (- Z.land (reg l) 1)) 0xd0000001) in
  ({| reg := r |}, r).

(* ===================================================================== *)
(** ** std::map<uint64_t, V>: an association list kept in key order *)
(* ===================================================================== *)

Section omap.
Context {V : Type}.

Definition omap : Type := list (Z * V).

(** [m.find(k)] *)
Fixpoint om_find (k : Z) (m : omap) : option V :=
  match m with
  | [] => None
  | (k', v) :: m' => if k' =? k then Some v else om_find k m'
  end.

(** [m[k] = v] *)
Fixpoint om_set (k : Z) (v : V) (m : omap) : omap :=
  match m with
  | [] => [(k, v)]
  | (k', v') :: m' =>
      if k <? k' then (k, v) :: (k', v') :: m'
      else if k =? k' then (k, v) :: m'
      else (k', v') :: om_set k v m'
  end.

(** [m.erase(k)] *)
Fixpoint om_erase (k : Z) (m : omap) : omap :=
  match m with
  | [] => []
  | (k', v) :: m' => if k' =? k then m' else (k', v) :: om_erase k m'
  end.

(** [m.size()] *)
Definition om_size (m : omap) : Z := Z.of_nat (length m).

(** The keys, in iteration order. *)
Definition om_keys (m : omap) : list Z := m.*1.

(** Strictly ascending keys: the representation invariant of the map. *)
Fixpoint om_sorted_from (lo : Z) (m : omap) : Prop :=
  match m with
  | [] => True
  | (k, _) :: m' => lo < k /\ om_sorted_from k m'
  end.

Definition om_sorted (m : omap) : Prop :=
  match m with
  | [] => True
  | (k, _) :: m' => om_sorted_from k m'
  end.
End omap.
Arguments omap V : clear implicits.

(* ===================================================================== *)
(** ** The headers that are not part of the sources at hand *)
(* ===================================================================== *)

(** [ADDR_INFO] of optgen.h.  The methods of cachesim.cc read and write
    the members [last_quanta], [PC] and [lru]; the specification lists
    [ADDR_INFO { last_quanta, PC, prediction, lru }]. *)
Record ADDR_INFO : Type := {
  last_quanta : Z;
  PC : Z;
  prediction : bool;
  lru : Z
}.

Definition set_lru (v : Z) (a : ADDR_INFO) : ADDR_INFO :=
  {| last_quanta := last_quanta a; PC := PC a;
     prediction := prediction a; lru := v |}.

(** What cachesim.cc takes from optgen.h and hawkeye_predictor.h: two
    constants, the OPTgen engine, the PC predictor and two methods of
    [ADDR_INFO].  The embedding is parametric in them.  The two constants
    are divisors in [check_tag] and are added to an [unsigned int]: they
    are positive and fit 32 bits. *)
Class hawkeye_deps : Type := {
  TIMER_SIZE : Z;
  OPTGEN_VECTOR_SIZE : Z;
  TIMER_SIZE_range : 0 < TIMER_SIZE < 2 ^ 32;
  OPTGEN_VECTOR_SIZE_range : 0 < OPTGEN_VECTOR_SIZE < 2 ^ 32;
  OPTgen : Type;
  (* the default-constructed element of [new OPTgen[sets]] *)
  OPTgen_new : OPTgen;
  (* [og.init(size)] *)
  OPTgen_init : OPTgen -> Z -> OPTgen;
  (* [og.add_access(curr_quanta)] *)
  add_access : OPTgen -> Z -> OPTgen;
  (* [og.should_cache(curr_quanta, last_quanta)] *)
  should_cache : OPTgen -> Z -> Z -> bool * OPTgen;
  HAWKEYE_PC_PREDICTOR : Type;
  (* [new HAWKEYE_PC_PREDICTOR()] *)
  predictor_new : HAWKEYE_PC_PREDICTOR;
  increment : HAWKEYE_PC_PREDICTOR -> Z -> HAWKEYE_PC_PREDICTOR;
  decrement : HAWKEYE_PC_PREDICTOR -> Z -> HAWKEYE_PC_PREDICTOR;
  get_prediction : HAWKEYE_PC_PREDICTOR -> Z -> bool;
  (* the default-constructed [ADDR_INFO] that [operator[]] inserts *)
  ADDR_INFO_new : ADDR_INFO;
  (* [info.init(curr_quanta)] *)
  ADDR_INFO_init : ADDR_INFO -> Z -> ADDR_INFO;
  (* [info.update(curr_quanta, pc, prediction)] *)
  ADDR_INFO_update : ADDR_INFO -> Z -> Z -> bool -> ADDR_INFO
}.

(* ===================================================================== *)
(** ** Calls that leave the cache object *)
(* ===================================================================== *)

Inductive event : Type :=
| EvDownstream (addr bytes : Z) (is_store : bool)
    (* miss_handler->access(addr, bytes, is_store) *)
| EvLogMiss (is_store : bool) (addr : Z)
    (* the line written to std::cerr when [log] is set *)
| EvIncrement (pc : Z)          (* demand_predictor->increment(pc) *)
| EvDecrement (pc : Z)          (* demand_predictor->decrement(pc) *)
| EvShouldCache (set curr_quanta last_quanta : Z) (answer : bool)
    (* perset_optgen[set].should_cache(curr_quanta, last_quanta) *)
| EvAddAccess (set curr_quanta : Z).
    (* perset_optgen[set].add_access(curr_quanta) *)

Definition is_downstream (e : event) : bool :=
  match e with EvDownstream _ _ _ => true | _ => false end.

Definition is_downstream_store (e : event) : bool :=
  match e with EvDownstream _ _ true => true | _ => false end.

Definition is_training (e : event) : bool :=
  match e with EvIncrement _ | EvDecrement _ => true | _ => false end.

Definition is_add_access (e : event) : bool :=
  match e with EvAddAccess _ _ => true | _ => false end.

(** How often the demand predictor is trained in a run. *)
Definition trainings (evs : list event) : nat :=
  length (List.filter is_training evs).

(** How often an OPTgen engine records an access in a run. *)
Definition optgen_accesses (evs : list event) : nat :=
  length (List.filter is_add_access evs).

(* ===================================================================== *)
(** ** The state of a cache *)
(* ===================================================================== *)

Section cachesim.
Context {deps : hawkeye_deps}.

(** The members [hawkeye_cache_sim_t] adds to [cache_sim_t]. *)
Record hawkeye_t : Type := {
  rrpv : list (list Z);                   (* uint32_t **rrpv *)
  signatures : list (list Z);             (* uint64_t **signatures *)
  perset_optgen : list OPTgen;            (* OPTgen *perset_optgen *)
  perset_timer : list Z;                  (* uint64_t *perset_timer *)
  demand_predictor : HAWKEYE_PC_PREDICTOR;
  addr_history : list (omap ADDR_INFO)    (* vector<map<uint64_t, ADDR_INFO>> *)
}.

(** The dynamic type of a cache, with the members of the derived class. *)
Inductive policy : Type :=
| Random                                   (* cache_sim_t itself *)
| FullyAssoc (fa_tags : omap Z)            (* fa_cache_sim_t::tags *)
| Linear (evict_candidate : gmap Z Z)      (* linear_evict_cache_sim_t *)
| Hawkeye (h : hawkeye_t).                 (* hawkeye_cache_sim_t *)

Inductive policy_kind : Type :=
| KRandom | KFullyAssoc | KLinear | KHawkeye.

Definition kind_of (p : policy) : policy_kind :=
  match p with
  | Random => KRandom
  | FullyAssoc _ => KFullyAssoc
  | Linear _ => KLinear
  | Hawkeye _ => KHawkeye
  end.

(** The members of [cache_sim_t].  [miss_handler] is the address of the
    downstream cache, if one is wired; [proc] is only read for its program
    counter, which the methods take as an argument. *)
Record cache_sim_t : Type := {
  lfsr : lfsr_t;
  miss_handler : option nat;
  sets : Z;
  ways : Z;
  linesz : Z;
  idx_shift : Z;
  tags : list Z;
  read_accesses : Z;
  read_misses : Z;
  bytes_read : Z;
  write_accesses : Z;
  write_misses : Z;
  bytes_written : Z;
  writebacks : Z;
  name : string;
  log : bool;
  pol : policy
}.

Definition set_lfsr (l : lfsr_t) (c : cache_sim_t) : cache_sim_t :=
  {| lfsr := l; miss_handler := miss_handler c; sets := sets c;
     ways := ways c; linesz := linesz c; idx_shift := idx_shift c;
     tags := tags c; read_accesses := read_accesses c;
     read_misses := read_misses c; bytes_read := bytes_read c;
     write_accesses := write_accesses c; write_misses := write_misses c;
     bytes_written := bytes_written c; writebacks := writebacks c;
     name := name c; log := log c; pol := pol c |}.

Definition set_tags (t : list Z) (c : cache_sim_t) : cache_sim_t :=
  {| lfsr := lfsr c; miss_handler := miss_handler c; sets := sets c;
     ways := ways c; linesz := linesz c; idx_shift := idx_shift c;
     tags := t; read_accesses := read_accesses c;
     read_misses := read_misses c; bytes_read := bytes_read c;
     write_accesses := write_accesses c; write_misses := write_misses c;
     bytes_written := bytes_written c; writebacks := writebacks c;
     name := name c; log := log c; pol := pol c |}.

Definition set_pol (p : policy) (c : cache_sim_t) : cache_sim_t :=
  {| lfsr := lfsr c; miss_handler := miss_handler c; sets := sets c;
     ways := ways c; linesz := linesz c; idx_shift := idx_shift c;
     tags := tags c; read_accesses := read_accesses c;
     read_misses := read_misses c; bytes_read := bytes_read c;
     write_accesses := write_accesses c; write_misses := write_misses c;
     bytes_written := bytes_written c; writebacks := writebacks c;
     name := name c; log := log c; pol := p |}.

(** [void set_miss_handler(cache_sim_t* mh) { miss_handler = mh; }] *)
Definition set_miss_handler (mh : option nat) (c : cache_sim_t) : cache_sim_t :=
  {| lfsr := lfsr c; miss_handler := mh; sets := sets c;
     ways := ways c; linesz := linesz c; idx_shift := idx_shift c;
     tags := tags c; read_accesses := read_accesses c;
     read_misses := read_misses c; bytes_read := bytes_read c;
     write_accesses := write_accesses c; write_misses := write_misses c;
     bytes_written := bytes_written c; writebacks := writebacks c;
     name := name c; log := log c; pol := pol c |}.

(** [void set_log(bool _log) { log = _log; }] *)
Definition set_log (b : bool) (c : cache_sim_t) : cache_sim_t :=
  {| lfsr := lfsr c; miss_handler := miss_handler c; sets := sets c;
     ways := ways c; linesz := linesz c; idx_shift := idx_shift c;
     tags := tags c; read_accesses := read_accesses c;
     read_misses := read_misses c; bytes_read := bytes_read c;
     write_accesses := write_accesses c; write_misses := write_misses c;
     bytes_written := bytes_written c; writebacks := writebacks c;
     name := name c; log := b; pol := pol c |}.

(** [store ? write_accesses++ : read_accesses++;
     (store ? bytes_written : bytes_read) += bytes;] *)
Definition count_access (store : bool) (bytes : Z) (c : cache_sim_t)
  : cache_sim_t :=
  {| lfsr := lfsr c; miss_handler := miss_handler c; sets := sets c;
     ways := ways c; linesz := linesz c; idx_shift := idx_shift c;
     tags := tags c;
     read_accesses :=
       if store then read_accesses c else wrap64 (read_accesses c + 1);
     read_misses := read_misses c;
     bytes_read :=
       if store then bytes_read c else wrap64 (bytes_read c + bytes);
     write_accesses :=
       if store then wrap64 (write_accesses c + 1) else write_accesses c;
     write_misses := write_misses c;
     bytes_written :=
       if store then wrap64 (bytes_written c + bytes) else bytes_written c;
     writebacks := writebacks c;
     name := name c; log := log c; pol := pol c |}.

(** [store ? write_misses++ : read_misses++;] *)
Definition count_miss (store : bool) (c : cache_sim_t) : cache_sim_t :=
  {| lfsr := lfsr c; miss_handler := miss_handler c; sets := sets c;
     ways := ways c; linesz := linesz c; idx_shift := idx_shift c;
     tags := tags c; read_accesses := read_accesses c;
     read_misses :=
       if store then read_misses c else wrap64 (read_misses c + 1);
     bytes_read := bytes_read c;
     write_accesses := write_accesses c;
     write_misses :=
       if store then wrap64 (write_misses c + 1) else write_misses c;
     bytes_written := bytes_written c; writebacks := writebacks c;
     name := name c; log := log c; pol := pol c |}.

(** [writebacks++;] *)
Definition count_writeback (c : cache_sim_t) : cache_sim_t :=
  {| lfsr := lfsr c; miss_handler := miss_handler c; sets := sets c;
     ways := ways c; linesz := linesz c; idx_shift := idx_shift c;
     tags := tags c; read_accesses := read_accesses c;
     read_misses := read_misses c; bytes_read := bytes_read c;
     write_accesses := write_accesses c; write_misses := write_misses c;
     bytes_written := bytes_written c;
     writebacks := wrap64 (writebacks c + 1);
     name := name c; log := log c; pol := pol c |}.

(* ===================================================================== *)
(** ** cache_sim_t: construction *)
(* ===================================================================== *)

(** [for (size_t x = linesz; x>1; x >>= 1) idx_shift++;]
    The loop runs at most 64 times on a 64-bit [x]. *)
Fixpoint shift_loop (fuel : nat) (x acc : Z) : Z :=
  match fuel with
  | O => acc
  | S fuel' => if 1 <? x then shift_loop fuel' (Z.shiftr x 1) (acc + 1) else acc
  end.

(** [cache_sim_t::init], run by the constructor on the members the
    initialiser list has set.  [help()] leaves the program. *)
Definition init (_sets _ways _linesz : Z) (_name : string) (p : policy)
  : res cache_sim_t :=
  if (_sets =? 0) || negb (Z.land _sets (wrap64 (_sets - 1)) =? 0)
  then Err UsageExit
  else if (_linesz <? 8) || negb (Z.land _linesz (wrap64 (_linesz - 1)) =? 0)
  then Err UsageExit
  else Ok {| lfsr := lfsr_new; miss_handler := None;
             sets := _sets; ways := _ways; linesz := _linesz;
             idx_shift := shift_loop 64 _linesz 0;
             tags := replicate (Z.to_nat (wrap64 (_sets * _ways))) 0;
             read_accesses := 0; read_misses := 0; bytes_read := 0;
             write_accesses := 0; write_misses := 0; bytes_written := 0;
             writebacks := 0;
             name := _name; log := false; pol := p |}.

(** [cache_sim_t::cache_sim_t(sets, ways, linesz, name)] *)
Definition cache_sim_new (_sets _ways _linesz : Z) (_name : string)
  : res cache_sim_t :=
  init _sets _ways _linesz _name Random.

(** [fa_cache_sim_t::fa_cache_sim_t(ways, linesz, name)
      : cache_sim_t(1, ways, linesz, name)] *)
Definition fa_cache_sim_new (_ways _linesz : Z) (_name : string)
  : res cache_sim_t :=
  init 1 _ways _linesz _name (FullyAssoc []).

(** [linear_evict_cache_sim_t::linear_evict_cache_sim_t(...)
      : cache_sim_t(sets, ways, linesz, name), evict_candidate()] *)
Definition linear_evict_cache_sim_new (_sets _ways _linesz : Z)
    (_name : string) : res cache_sim_t :=
  init _sets _ways _linesz _name (Linear ∅).

(** [hawkeye_cache_sim_t::hawkeye_cache_sim_t(...)]: the base constructor,
    then the grids, the timers, the engines and the samplers. *)
Definition hawkeye_new_state (_sets _ways : Z) : hawkeye_t :=
  {| rrpv := replicate (Z.to_nat _sets) (replicate (Z.to_nat _ways) MAX_RRPV);
     signatures := replicate (Z.to_nat _sets) (replicate (Z.to_nat _ways) 0);
     perset_optgen :=
       replicate (Z.to_nat _sets) (OPTgen_init OPTgen_new (wrap64 (_ways - 2)));
     perset_timer := replicate (Z.to_nat _sets) 0;
     demand_predictor := predictor_new;
     addr_history := replicate (Z.to_nat _sets) [] |}.

Definition hawkeye_cache_sim_new (_sets _ways _linesz : Z) (_name : string)
  : res cache_sim_t :=
  init _sets _ways _linesz _name (Hawkeye (hawkeye_new_state _sets _ways)).

(* ===================================================================== *)
(** ** cache_sim_t: lookup, replacement, access *)
(* ===================================================================== *)

(** What a [uint64_t*] returned by [check_tag] points at: an element of the
    tag array, or the value stored under a key of the map of a
    fully-associative cache. *)
Inductive slot : Type :=
| ArraySlot (i : Z)
| MapSlot (k : Z).

(** [tags[i]] *)
Definition tag_at (t : list Z) (i : Z) : Z := default 0 (t !! Z.to_nat i).

(** [tags[i] = v] *)
Definition tag_store (t : list Z) (i v : Z) : list Z := <[Z.to_nat i := v]> t.

(** [(addr >> idx_shift) & (sets-1)] *)
Definition set_index (c : cache_sim_t) (addr : Z) : Z :=
  Z.land (Z.shiftr addr (idx_shift c)) (wrap64 (sets c - 1)).

(** [(addr >> idx_shift) | VALID] *)
Definition tag_of (c : cache_sim_t) (addr : Z) : Z :=
  Z.lor (Z.shiftr addr (idx_shift c)) VALID.

(** [tag == (tags[idx*ways + i] & ~DIRTY)] *)
Definition way_matches (c : cache_sim_t) (addr : Z) (i : Z) : bool :=
  tag_of c addr =?
  Z.land (tag_at (tags c) (set_index c addr * ways c + i)) (not64 DIRTY).

(** [cache_sim_t::check_tag]: the first matching way of the indexed set. *)
Definition base_check_tag (c : cache_sim_t) (addr : Z) : option slot :=
  match List.find (way_matches c addr) (seqZ 0 (ways c)) with
  | Some i => Some (ArraySlot (set_index c addr * ways c + i))
  | None => None
  end.

(** [cache_sim_t::victimize] *)
Definition base_victimize (c : cache_sim_t) (addr : Z)
  : res (cache_sim_t * Z) :=
  let idx := set_index c addr in
  let '(l, r) := lfsr_next (lfsr c) in
  if ways c =? 0 then Err Undefined           (* lfsr.next() % 0 *)
  else
    let way := r mod ways c in
    let victim := tag_at (tags c) (idx * ways c + way) in
    Ok (set_tags (tag_store (tags c) (idx * ways c + way) (tag_of c addr))
                 (set_lfsr l c),
        victim).

(** [fa_cache_sim_t::check_tag] *)
Definition fa_check_tag (c : cache_sim_t) (m : omap Z) (addr : Z)
  : option slot :=
  match om_find (Z.shiftr addr (idx_shift c)) m with
  | Some _ => Some (MapSlot (Z.shiftr addr (idx_shift c)))
  | None => None
  end.

(** [fa_cache_sim_t::victimize] *)
Definition fa_victimize (c : cache_sim_t) (m : omap Z) (addr : Z)
  : res (cache_sim_t * Z) :=
  let key := Z.shiftr addr (idx_shift c) in
  if om_size m =? ways c then
    let '(l, r) := lfsr_next (lfsr c) in
    if ways c =? 0 then Err Undefined         (* lfsr.next() % 0 *)
    else
      let n := Z.to_nat (r mod ways c) in
      match m !! n with
      | Some (_, old_tag) =>
          Ok (set_pol (FullyAssoc (om_set key (tag_of c addr) (delete n m)))
                      (set_lfsr l c),
              old_tag)
      | None => Err Undefined                 (* advance past end() *)
      end
  else
    Ok (set_pol (FullyAssoc (om_set key (tag_of c addr) m)) c, 0).

(** [evict_candidate[idx]] on a [std::map<size_t, size_t>]: a key that is
    not there reads as the value-initialised 0. *)
Definition candidate (ec : gmap Z Z) (idx : Z) : Z := default 0 (ec !! idx).

(** [linear_evict_cache_sim_t::victimize] *)
Definition linear_victimize (c : cache_sim_t) (ec : gmap Z Z) (addr : Z)
  : res (cache_sim_t * Z) :=
  let idx := set_index c addr in
  let way := candidate ec idx in
  if ways c =? 0 then Err Undefined           (* (... + 1) % 0 *)
  else
    let ec' := <[idx := wrap64 (way + 1) mod ways c]> ec in
    let victim := tag_at (tags c) (idx * ways c + way) in
    Ok (set_tags (tag_store (tags c) (idx * ways c + way) (tag_of c addr))
                 (set_pol (Linear ec') c),
        victim).

(* ===================================================================== *)
(** ** hawkeye_cache_sim_t *)
(* ===================================================================== *)

(** [a[i][j]] and [a[i][j] = v] on a grid. *)
Definition grid_at (a : list (list Z)) (i j : Z) : Z :=
  default 0 (default [] (a !! Z.to_nat i) !! Z.to_nat j).

Definition grid_store (a : list (list Z)) (i j v : Z) : list (list Z) :=
  alter (fun row => <[Z.to_nat j := v]> row) (Z.to_nat i) a.

Definition set_rrpv (r : list (list Z)) (h : hawkeye_t) : hawkeye_t :=
  {| rrpv := r; signatures := signatures h;
     perset_optgen := perset_optgen h; perset_timer := perset_timer h;
     demand_predictor := demand_predictor h;
     addr_history := addr_history h |}.

Definition set_signatures (s : list (list Z)) (h : hawkeye_t) : hawkeye_t :=
  {| rrpv := rrpv h; signatures := s;
     perset_optgen := perset_optgen h; perset_timer := perset_timer h;
     demand_predictor := demand_predictor h;
     addr_history := addr_history h |}.

Definition set_predictor (p : HAWKEYE_PC_PREDICTOR) (h : hawkeye_t)
  : hawkeye_t :=
  {| rrpv := rrpv h; signatures := signatures h;
     perset_optgen := perset_optgen h; perset_timer := perset_timer h;
     demand_predictor := p;
     addr_history := addr_history h |}.

(** The first way of [set] whose RRPV is [MAX_RRPV]. *)
Definition find_max_rrpv (c : cache_sim_t) (h : hawkeye_t) (set : Z)
  : option Z :=
  List.find (fun i => grid_at (rrpv h) set i =? MAX_RRPV) (seqZ 0 (ways c)).

(** [for (i...) if (rrpv[set][i] >= max_rrip) { max_rrip = rrpv[set][i];
    lru_victim = i; }], from [max_rrip = 0, lru_victim = -1]. *)
Definition oldest_friendly (c : cache_sim_t) (h : hawkeye_t) (set : Z)
  : Z * Z :=
  fold_left
    (fun (acc : Z * Z) i =>
       if fst acc <=? grid_at (rrpv h) set i
       then (grid_at (rrpv h) set i, i) else acc)
    (seqZ 0 (ways c)) (0, -1).

(** [for (i...) if (rrpv[set][i] == MAX_RRPV-1) saturated = true;] *)
Definition saturated (c : cache_sim_t) (r : list (list Z)) (set : Z) : bool :=
  existsb (fun i => grid_at r set i =? MAX_RRPV - 1) (seqZ 0 (ways c)).

(** [for (i...) if (!saturated && rrpv[set][i] < MAX_RRPV-1) rrpv[set][i]++;] *)
Definition age_friendly (c : cache_sim_t) (sat : bool) (r : list (list Z))
    (set : Z) : list (list Z) :=
  fold_left
    (fun r' i =>
       if negb sat && (grid_at r' set i <? MAX_RRPV - 1)
       then grid_store r' set i (wrap32 (grid_at r' set i + 1)) else r')
    (seqZ 0 (ways c)) r.

(** [hawkeye_cache_sim_t::victimize] *)
Definition hawkeye_victimize (pc : Z) (c : cache_sim_t) (h : hawkeye_t)
    (addr : Z) : res (cache_sim_t * Z * list event) :=
  let set := set_index c addr in
  match find_max_rrpv c h set with
  | Some i =>
      (* look for the MAX_RRPV line *)
      let victim := tag_at (tags c) (set * ways c + i) in
      Ok (set_tags (tag_store (tags c) (set * ways c + i) (tag_of c addr)) c,
          victim, [])
  | None =>
      (* evict the oldest cache-friendly line *)
      let lru_victim := snd (oldest_friendly c h set) in
      if lru_victim <? 0 then Err Undefined   (* tags[set*ways - 1] *)
      else
        let victim := tag_at (tags c) (set * ways c + lru_victim) in
        let t := tag_store (tags c) (set * ways c + lru_victim) (tag_of c addr) in
        let new_prediction := get_prediction (demand_predictor h) pc in
        let way := lru_victim in
        let sigs := grid_store (signatures h) set way pc in
        let r :=
          if negb new_prediction
          then grid_store (rrpv h) set way MAX_RRPV
          else
            let r0 := grid_store (rrpv h) set way 0 in
            let sat := saturated c r0 set in
            grid_store (age_friendly c sat r0 set) set way 0 in
        (* the predictor is trained negatively on LRU evictions *)
        let trained := grid_at sigs set lru_victim in
        let h' :=
          set_predictor (decrement (demand_predictor h) trained)
            (set_rrpv r (set_signatures sigs h)) in
        Ok (set_tags t (set_pol (Hawkeye h') c), victim, [EvDecrement trained])
  end.

(** [replace_addr_history_element]: erase the first entry, in key order,
    whose [lru] is [ways-1]; [erase(0)] when there is none. *)
Definition replace_addr_history_element (c : cache_sim_t)
    (m : omap ADDR_INFO) : omap ADDR_INFO :=
  let lru_addr :=
    match List.find (fun e : Z * ADDR_INFO => lru (snd e) =? wrap64 (ways c - 1)) m with
    | Some e => fst e
    | None => 0
    end in
  om_erase lru_addr m.

(** [update_addr_history_lru] *)
Definition update_addr_history_lru (m : omap ADDR_INFO) (curr_lru : Z)
  : omap ADDR_INFO :=
  List.map
    (fun e : Z * ADDR_INFO =>
       if lru (snd e) <? curr_lru
       then (fst e, set_lru (wrap32 (lru (snd e) + 1)) (snd e)) else e)
    m.

(** [m[k]]: the value under [k], default-constructed when [k] is new. *)
Definition om_at (k : Z) (m : omap ADDR_INFO) : ADDR_INFO :=
  default ADDR_INFO_new (om_find k m).

(** The sampler and predictor part of [hawkeye_cache_sim_t::check_tag]:
    from its first line to [perset_timer[set] = (perset_timer[set]+1) %
    TIMER_SIZE].  Returns the new state, the calls made and
    [new_prediction]. *)
Definition hawkeye_sample (pc : Z) (c : cache_sim_t) (h : hawkeye_t)
    (addr : Z) : hawkeye_t * list event * bool :=
  let set := set_index c addr in
  let timer := default 0 (perset_timer h !! Z.to_nat set) in
  let og := default OPTgen_new (perset_optgen h !! Z.to_nat set) in
  let curr_quanta := timer mod OPTGEN_VECTOR_SIZE in
  let sampler_set := wrap32 set in
  let sampler_tag := tag_of c addr in
  let hist := default [] (addr_history h !! Z.to_nat sampler_set) in
  let '(pred1, og1, hist1, evs) :=
    match om_find sampler_tag hist with
    | Some info =>
        (* this line has been used before *)
        let curr_timer := wrap32 timer in
        let curr_timer :=
          if curr_timer <? last_quanta info
          then wrap32 (curr_timer + TIMER_SIZE) else curr_timer in
        let wrap :=
          OPTGEN_VECTOR_SIZE <? wrap32 (curr_timer - last_quanta info) in
        let lq := last_quanta info mod OPTGEN_VECTOR_SIZE in
        let '(p', og', ev) :=
          if wrap
          then (decrement (demand_predictor h) (PC info), og,
                [EvDecrement (PC info)])
          else
            let '(b, og') := should_cache og curr_quanta lq in
            if b
            then (increment (demand_predictor h) (PC info), og',
                  [EvShouldCache set curr_quanta lq true;
                   EvIncrement (PC info)])
            else (decrement (demand_predictor h) (PC info), og',
                  [EvShouldCache set curr_quanta lq false;
                   EvDecrement (PC info)]) in
        (p', add_access og' curr_quanta,
         update_addr_history_lru hist (lru info),
         ev ++ [EvAddAccess set curr_quanta])
    | None =>
        (* the first time we are seeing this line *)
        let hist' :=
          if om_size hist =? ways c
          then replace_addr_history_element c hist else hist in
        let hist' :=
          om_set sampler_tag (ADDR_INFO_init (om_at sampler_tag hist') curr_quanta)
                 hist' in
        (demand_predictor h, add_access og curr_quanta,
         update_addr_history_lru hist' (wrap32 (ways c - 1)),
         [EvAddAccess set curr_quanta])
    end in
  let new_prediction := get_prediction pred1 pc in
  let hist2 :=
    om_set sampler_tag
      (ADDR_INFO_update (om_at sampler_tag hist1) timer pc new_prediction)
      hist1 in
  let hist3 := om_set sampler_tag (set_lru 0 (om_at sampler_tag hist2)) hist2 in
  ({| rrpv := rrpv h; signatures := signatures h;
      perset_optgen := <[Z.to_nat set := og1]> (perset_optgen h);
      perset_timer :=
        <[Z.to_nat set := wrap64 (timer + 1) mod TIMER_SIZE]> (perset_timer h);
      demand_predictor := pred1;
      addr_history := <[Z.to_nat sampler_set := hist3]> (addr_history h) |},
   evs, new_prediction).

(** [for (i...) if (tag == (tags[idx*ways + i] & ~DIRTY)) way = i;]: the
    last matching way, [-1] when there is none. *)
Definition last_matching_way (c : cache_sim_t) (addr : Z) : Z :=
  fold_left (fun way i => if way_matches c addr i then i else way)
            (seqZ 0 (ways c)) (-1).

(** [hawkeye_cache_sim_t::check_tag] *)
Definition hawkeye_check_tag (pc : Z) (c : cache_sim_t) (h : hawkeye_t)
    (addr : Z) : cache_sim_t * option slot * list event :=
  let set := set_index c addr in
  let '(h1, evs, new_prediction) := hawkeye_sample pc c h addr in
  let way := last_matching_way c addr in
  let h2 :=
    if way =? -1 then h1
    else
      set_rrpv
        (grid_store (rrpv h1) set way (if new_prediction then 0 else MAX_RRPV))
        (set_signatures (grid_store (signatures h1) set way pc) h1) in
  (set_pol (Hawkeye h2) c, base_check_tag c addr, evs).

(* ===================================================================== *)
(** ** Virtual dispatch and [cache_sim_t::access] *)
(* ===================================================================== *)

(** [this->check_tag(addr)] *)
Definition check_tag (pc : Z) (c : cache_sim_t) (addr : Z)
  : cache_sim_t * option slot * list event :=
  match pol c with
  | Random | Linear _ => (c, base_check_tag c addr, [])
  | FullyAssoc m => (c, fa_check_tag c m addr, [])
  | Hawkeye h => hawkeye_check_tag pc c h addr
  end.

(** [this->victimize(addr)] *)
Definition victimize (pc : Z) (c : cache_sim_t) (addr : Z)
  : res (cache_sim_t * Z * list event) :=
  match pol c with
  | Random => let* (c', v) := base_victimize c addr in Ok (c', v, [])
  | FullyAssoc m => let* (c', v) := fa_victimize c m addr in Ok (c', v, [])
  | Linear ec => let* (c', v) := linear_victimize c ec addr in Ok (c', v, [])
  | Hawkeye h => hawkeye_victimize pc c h addr
  end.

(** [*p |= DIRTY] *)
Definition mark_dirty (p : slot) (c : cache_sim_t) : cache_sim_t :=
  match p with
  | ArraySlot i =>
      set_tags (tag_store (tags c) i (Z.lor (tag_at (tags c) i) DIRTY)) c
  | MapSlot k =>
      match pol c with
      | FullyAssoc m =>
          match om_find k m with
          | Some v => set_pol (FullyAssoc (om_set k (Z.lor v DIRTY) m)) c
          | None => c
          end
      | _ => c
      end
  end.

(** The calls on [miss_handler] of one miss: a writeback when the victim is
    valid and dirty, then the fill. *)
Definition downstream (c : cache_sim_t) (call : event) : list event :=
  match miss_handler c with
  | Some _ => [call]
  | None => []
  end.

(** [cache_sim_t::access] *)
Definition access (pc : Z) (c : cache_sim_t) (addr bytes : Z) (store : bool)
  : res (cache_sim_t * list event) :=
  let c := count_access store bytes c in
  let '(c, hit_way, ev1) := check_tag pc c addr in
  match hit_way with
  | Some p => Ok (if store then mark_dirty p c else c, ev1)
  | None =>
      let c := count_miss store c in
      let ev_log := if log c then [EvLogMiss store addr] else [] in
      let* (c, victim, ev2) := victimize pc c addr in
      let '(c, ev_wb) :=
        if Z.land victim (Z.lor VALID DIRTY) =? Z.lor VALID DIRTY
        then
          let dirty_addr :=
            shl64 (Z.land victim (not64 (Z.lor VALID DIRTY))) (idx_shift c) in
          (count_writeback c, downstream c (EvDownstream dirty_addr (linesz c) true))
        else (c, []) in
      let ev_fill :=
        downstream c
          (EvDownstream (Z.land addr (not64 (wrap64 (linesz c - 1))))
                        (linesz c) false) in
      if store then
        let '(c, p, ev3) := check_tag pc c addr in
        match p with
        | Some p => Ok (mark_dirty p c,
                        ev1 ++ ev_log ++ ev2 ++ ev_wb ++ ev_fill ++ ev3)
        | None => Err Undefined               (* *NULL |= DIRTY *)
        end
      else Ok (c, ev1 ++ ev_log ++ ev2 ++ ev_wb ++ ev_fill)
  end.

(** A stream of accesses: [(pc, addr, bytes, store)] in order. *)
Definition request : Type := Z * Z * Z * bool.

Fixpoint run (c : cache_sim_t) (reqs : list request)
  : res (cache_sim_t * list event) :=
  match reqs with
  | [] => Ok (c, [])
  | (pc, addr, bytes, store) :: reqs' =>
      let* (c1, ev1) := access pc c addr bytes store in
      let* (c2, ev2) := run c1 reqs' in
      Ok (c2, ev1 ++ ev2)
  end.

(* ===================================================================== *)
(** ** cache_sim_t::construct *)
(* ===================================================================== *)

(** [strchr(s, ch)]: the suffix of [s] that starts at the first [ch]. *)
Fixpoint strchr (s : string) (ch : ascii) : option string :=
  match s with
  | EmptyString => None
  | String a s' => if Ascii.eqb a ch then Some s else strchr s' ch
  end.

(** [p + 1] for a pointer [p] into a C string. *)
Definition next_char (s : string) : string :=
  match s with
  | EmptyString => EmptyString
  | String _ s' => s'
  end.

(** [std::string(first, last)] for two pointers into the same C string:
    the characters of [first] in front of [last]. *)
Definition between (first last : string) : string :=
  String.substring 0 (String.length first - String.length last) first.

(** [isspace] and [isdigit] in the "C" locale. *)
Definition isspace (a : ascii) : bool :=
  let n := N_of_ascii a in ((n =? 32) || ((9 <=? n) && (n <=? 13)))%N.

Definition isdigit (a : ascii) : bool :=
  let n := N_of_ascii a in ((48 <=? n) && (n <=? 57))%N.

Fixpoint skip_spaces (s : string) : string :=
  match s with
  | String a s' => if isspace a then skip_spaces s' else s
  | EmptyString => s
  end.

Fixpoint read_digits (s : string) (acc : Z) : Z :=
  match s with
  | String a s' =>
      if isdigit a
      then read_digits s' (10 * acc + (Z.of_N (N_of_ascii a) - 48))
      else acc
  | EmptyString => acc
  end.

(** [atoi]: white space, an optional sign, decimal digits.  A value that
    does not fit an [int] is undefined behaviour. *)
Definition atoi (s : string) : res Z :=
  let s := skip_spaces s in
  let '(neg, s) :=
    match s with
    | String "-"%char s' => (true, s')
    | String "+"%char s' => (false, s')
    | _ => (false, s)
    end in
  let v := read_digits s 0 in
  let v := if neg then - v else v in
  if (- 2 ^ 31 <=? v) && (v <? 2 ^ 31) then Ok v else Err Undefined.

(** The pointers [wp], [bp] and [type] of [construct]; [help()] when one of
    the first two colons is missing. *)
Definition split_config (config : string)
  : res (string * string * option string) :=
  match strchr config ":"%char with
  | None => Err UsageExit
  | Some p =>
      let wp := next_char p in
      match strchr wp ":"%char with
      | None => Err UsageExit
      | Some q =>
          let bp := next_char q in
          Ok (wp, bp, option_map next_char (strchr bp ":"%char))
      end
  end.

(** [!strcmp(type, lit)] *)
Definition type_is (type : option string) (lit : string) : bool :=
  match type with
  | Some t => String.eqb t lit
  | None => false
  end.

(** [cache_sim_t::construct(config, name)] *)
Definition construct (config _name : string) : res cache_sim_t :=
  let* (wp, bp, type) := split_config config in
  let* _sets := atoi (between config wp) in
  let* _ways := atoi (between wp bp) in
  let* _linesz :=
    match type with
    | Some t => atoi (between bp t)
    | None => atoi bp
    end in
  (* int to size_t *)
  let _sets := wrap64 _sets in
  let _ways := wrap64 _ways in
  let _linesz := wrap64 _linesz in
  if type_is type "linear"
  then linear_evict_cache_sim_new _sets _ways _linesz _name
  else if type_is type "hawkeye"
  then hawkeye_cache_sim_new _sets _ways _linesz _name
  else if (4 <? _ways) && (_sets =? 1)
  then fa_cache_sim_new _ways _linesz _name
  else cache_sim_new _sets _ways _linesz _name.

(** [cache_sim_t::cache_sim_t(const cache_sim_t& rhs)].  The initialiser
    list names [sets], [ways], [linesz], [idx_shift], [name] and [log]; the
    body allocates and copies the tag array.  [lfsr] is default-constructed.
    The seven counters and [miss_handler] are not initialised: they keep
    whatever the storage of the new object held, here [junk] and
    [junk_handler].  The copy has the static type [cache_sim_t]. *)
Record counters : Type := {
  c_read_accesses : Z;
  c_read_misses : Z;
  c_bytes_read : Z;
  c_write_accesses : Z;
  c_write_misses : Z;
  c_bytes_written : Z;
  c_writebacks : Z
}.

Definition copy_construct (junk : counters) (junk_handler : option nat)
    (rhs : cache_sim_t) : cache_sim_t :=
  {| lfsr := lfsr_new; miss_handler := junk_handler;
     sets := sets rhs; ways := ways rhs; linesz := linesz rhs;
     idx_shift := idx_shift rhs;
     tags := take (Z.to_nat (wrap64 (sets rhs * ways rhs))) (tags rhs);
     read_accesses := c_read_accesses junk;
     read_misses := c_read_misses junk;
     bytes_read := c_bytes_read junk;
     write_accesses := c_write_accesses junk;
     write_misses := c_write_misses junk;
     bytes_written := c_bytes_written junk;
     writebacks := c_writebacks junk;
     name := name rhs; log := false; pol := Random |}.

(** The statistics of a cache. *)
Definition stats (c : cache_sim_t) : counters :=
  {| c_read_accesses := read_accesses c;
     c_read_misses := read_misses c;
     c_bytes_read := bytes_read c;
     c_write_accesses := write_accesses c;
     c_write_misses := write_misses c;
     c_bytes_written := bytes_written c;
     c_writebacks := writebacks c |}.

Definition zero_counters : counters :=
  {| c_read_accesses := 0; c_read_misses := 0; c_bytes_read := 0;
     c_write_accesses := 0; c_write_misses := 0; c_bytes_written := 0;
     c_writebacks := 0 |}.

End cachesim.

(* ===================================================================== *)
(** ** The tag array as a heap block *)
(* ===================================================================== *)

(** [tags] is a [uint64_t*] to a block that [new uint64_t[n]] returns.  A
    heap maps the address of a block to its contents. *)
Definition heap : Type := gmap nat (list Z).

(** The address [new] returns: one that is not in use. *)
Definition new_block (h : heap) : nat := fresh (dom h).

(** [tags = new uint64_t[n]; memcpy(tags, rhs.tags, n*sizeof(uint64_t));]
    of the copy constructor, [n] being [sets*ways].  Reading past the end
    of the source block is undefined. *)
Definition copy_tags (h : heap) (rhs_tags : nat) (n : nat)
  : res (heap * nat) :=
  match h !! rhs_tags with
  | Some src =>
      if decide (n <= length src)%nat
      then Ok (<[new_block h := take n src]> h, new_block h)
      else Err Undefined
  | None => Err Undefined
  end.

(** [p[i] = v] *)
Definition heap_store (h : heap) (p : nat) (i : nat) (v : Z) : heap :=
  alter (fun blk => <[i := v]> blk) p h.

(** [p[i]] *)
Definition heap_load (h : heap) (p : nat) (i : nat) : option Z :=
  match h !! p with
  | Some blk => blk !! i
  | None => None
  end.

(* ===================================================================== *)
(** ** An instance of the missing headers *)
(* ===================================================================== *)

(** Modelled from the spec: the OPTgen engine of optgen.h, which is not
    part of the sources at hand.  "Per-set fixed-capacity ring buffer of
    OPTGEN_VECTOR_SIZE occupancy counters indexed by discrete quanta";
    [add_access] "records that a reference occurred at this quantum";
    [should_cache] "returns true iff for every quantum q in the interval
    (last_quanta, curr_quanta] (with wrap-around handling), the occupancy
    counter is strictly less than capacity.  On true, it additionally fills
    the interval (increments occupancy for each quantum)".  The
    specification gives no value for the two constants; 128 and 1024 are
    taken here. *)
Record optgen_model : Type := {
  occupancy : list Z;
  references : list Z;
  capacity : Z
}.

Definition model_vector_size : Z := 128.
Definition model_timer_size : Z := 1024.

Definition optgen_model_new : optgen_model :=
  {| occupancy := []; references := []; capacity := 0 |}.

Definition optgen_model_init (_ : optgen_model) (size : Z) : optgen_model :=
  {| occupancy := replicate (Z.to_nat model_vector_size) 0;
     references := replicate (Z.to_nat model_vector_size) 0;
     capacity := size |}.

Definition optgen_model_add_access (og : optgen_model) (q : Z) : optgen_model :=
  {| occupancy := occupancy og;
     references :=
       <[Z.to_nat q := default 0 (references og !! Z.to_nat q) + 1]>
         (references og);
     capacity := capacity og |}.

(** The quanta of the interval (last, curr], walking the ring. *)
Definition ring_interval (curr last : Z) : list Z :=
  (fun k => (last + 1 + k) mod model_vector_size)
    <$> seqZ 0 ((curr - last) mod model_vector_size).

Definition optgen_model_should_cache (og : optgen_model) (curr last : Z)
  : bool * optgen_model :=
  let qs := ring_interval curr last in
  if forallb (fun q => default 0 (occupancy og !! Z.to_nat q) <? capacity og) qs
  then (true,
        {| occupancy :=
             fold_left
               (fun occ q => <[Z.to_nat q := default 0 (occ !! Z.to_nat q) + 1]> occ)
               qs (occupancy og);
           references := references og;
           capacity := capacity og |})
  else (false, og).

(** Modelled from the spec: the predictor of hawkeye_predictor.h, which is
    not part of the sources at hand.  "A small set of 3-bit saturating
    counters indexed by a hash of the PC (a small power-of-two-sized table,
    e.g., 8K entries).  Operations: increment(PC) (saturating toward 7),
    decrement(PC) (saturating toward 0), get_prediction(PC) returns true
    iff counter >= mid-point (e.g., 4)".  The hash is reduction modulo the
    table size, and a new table holds zeros. *)
Definition predictor_model : Type := gmap Z Z.

Definition model_hash (pc : Z) : Z := pc mod 8192.

Definition model_counter (p : predictor_model) (pc : Z) : Z :=
  default 0 (p !! model_hash pc).

Definition predictor_model_increment (p : predictor_model) (pc : Z)
  : predictor_model :=
  <[model_hash pc := Z.min 7 (model_counter p pc + 1)]> p.

Definition predictor_model_decrement (p : predictor_model) (pc : Z)
  : predictor_model :=
  <[model_hash pc := Z.max 0 (model_counter p pc - 1)]> p.

Definition predictor_model_get_prediction (p : predictor_model) (pc : Z)
  : bool :=
  4 <=? model_counter p pc.

(** Modelled from the spec: the two methods of [ADDR_INFO] (optgen.h, not
    part of the sources at hand).  [update] "update[s] the sampler entry
    with (timer, PC, new_prediction)"; [init] starts an entry at the
    current quantum. *)
Definition addr_info_model_new : ADDR_INFO :=
  {| last_quanta := 0; PC := 0; prediction := false; lru := 0 |}.

Definition addr_info_model_init (a : ADDR_INFO) (curr_quanta : Z) : ADDR_INFO :=
  {| last_quanta := curr_quanta; PC := 0; prediction := false; lru := 0 |}.

Definition addr_info_model_update (a : ADDR_INFO) (curr_quanta pc : Z)
    (pred : bool) : ADDR_INFO :=
  {| last_quanta := curr_quanta; PC := pc; prediction := pred; lru := lru a |}.

Definition model_timer_size_range : 0 < model_timer_size < 2 ^ 32 :=
  conj eq_refl eq_refl.

Definition model_vector_size_range : 0 < model_vector_size < 2 ^ 32 :=
  conj eq_refl eq_refl.

#[export] Instance model_deps : hawkeye_deps :=
  {| TIMER_SIZE := model_timer_size;
     OPTGEN_VECTOR_SIZE := model_vector_size;
     TIMER_SIZE_range := model_timer_size_range;
     OPTGEN_VECTOR_SIZE_range := model_vector_size_range;
     OPTgen := optgen_model;
     OPTgen_new := optgen_model_new;
     OPTgen_init := optgen_model_init;
     add_access := optgen_model_add_access;
     should_cache := optgen_model_should_cache;
     HAWKEYE_PC_PREDICTOR := predictor_model;
     predictor_new := ∅;
     increment := predictor_model_increment;
     decrement := predictor_model_decrement;
     get_prediction := predictor_model_get_prediction;
     ADDR_INFO_new := addr_info_model_new;
     ADDR_INFO_init := addr_info_model_init;
     ADDR_INFO_update := addr_info_model_update |}.

(* ===================================================================== *)
(** ** The vocabulary of the properties *)
(* ===================================================================== *)

(** The values of a [uint64_t]. *)
Definition uint64 (x : Z) : Prop := 0 <= x < 2 ^ 64.

(** The parts of a tag word: bit 63, bit 62 and the payload below them. *)
Definition valid (t : Z) : bool := Z.testbit t 63.
Definition dirty (t : Z) : bool := Z.testbit t 62.
Definition payload (t : Z) : Z := Z.land t (not64 (Z.lor VALID DIRTY)).

(** The calls on the downstream handler among the events of a run. *)
Definition downstream_calls (evs : list event) : list event :=
  List.filter is_downstream evs.

(** A downstream call for a whole line at a line boundary. *)
Definition line_call (line_size : Z) (e : event) : Prop :=
  match e with
  | EvDownstream a b _ => a mod line_size = 0 /\ b = line_size
  | _ => True
  end.

(** The policy the specification selects for a configuration: "explicit
    linear or hawkeye; otherwise, if ways > 4 && sets == 1 use
    fully-associative; otherwise use the default random-evict". *)
Definition spec_policy (fourth_field : option string) (_sets _ways : Z)
  : policy_kind :=
  let automatic :=
    if (4 <? _ways) && (_sets =? 1) then KFullyAssoc else KRandom in
  match fourth_field with
  | Some t =>
      if String.eqb t "linear" then KLinear
      else if String.eqb t "hawkeye" then KHawkeye
      else automatic
  | None => automatic
  end.

(** What [init] accepts: [sets] a power of two, [linesz] a power of two
    that is at least 8. *)
Definition geometry_ok (_sets _linesz : Z) : bool :=
  negb ((_sets =? 0) || negb (Z.land _sets (wrap64 (_sets - 1)) =? 0)) &&
  negb ((_linesz <? 8) || negb (Z.land _linesz (wrap64 (_linesz - 1)) =? 0)).

Section properties.
Context {deps : hawkeye_deps}.

(** The pointer [check_tag] returns, whatever else the method does. *)
Definition lookup (c : cache_sim_t) (addr : Z) : option slot :=
  match pol c with
  | FullyAssoc m => fa_check_tag c m addr
  | _ => base_check_tag c addr
  end.

(** The tag word in way [i] of set [s]. *)
Definition way_tag (c : cache_sim_t) (s i : Z) : Z :=
  tag_at (tags c) (s * ways c + i).

(** No two valid ways of a set of the tag array hold the same payload. *)
Definition array_distinct (c : cache_sim_t) : Prop :=
  forall s i j,
    0 <= s < sets c -> 0 <= i < ways c -> 0 <= j < ways c -> i <> j ->
    valid (way_tag c s i) = true -> valid (way_tag c s j) = true ->
    payload (way_tag c s i) <> payload (way_tag c s j).

(** No two entries of the map of a fully-associative cache share a key,
    and no two valid entries hold the same payload. *)
Definition map_distinct (m : omap Z) : Prop :=
  NoDup (om_keys m) /\
  forall (i j : nat) e1 e2,
    m !! i = Some e1 -> m !! j = Some e2 -> i <> j ->
    valid (snd e1) = true -> valid (snd e2) = true ->
    payload (snd e1) <> payload (snd e2).

Definition no_duplicate_tags (c : cache_sim_t) : Prop :=
  array_distinct c /\
  match pol c with
  | FullyAssoc m => map_distinct m
  | _ => True
  end.

(** The entries of the map of a fully-associative cache: valid words filed
    under their payload, in ascending key order, at most [ways] of them. *)
Definition fa_wf (c : cache_sim_t) (m : omap Z) : Prop :=
  om_sorted_from (-1) m /\
  Forall (fun e : Z * Z => valid (snd e) = true /\ payload (snd e) = fst e) m /\
  om_size m <= ways c.

(** The cursors of a linear-evict cache stay below [ways]. *)
Definition linear_wf (c : cache_sim_t) (ec : gmap Z Z) : Prop :=
  forall idx v, ec !! idx = Some v -> 0 <= v < ways c.

(** The arrays of a Hawkeye cache have the extent the constructor gave
    them, and the timers stay below [TIMER_SIZE]. *)
Definition hawkeye_wf (c : cache_sim_t) (h : hawkeye_t) : Prop :=
  length (rrpv h) = Z.to_nat (sets c) /\
  Forall (fun row => length row = Z.to_nat (ways c)) (rrpv h) /\
  length (signatures h) = Z.to_nat (sets c) /\
  Forall (fun row => length row = Z.to_nat (ways c)) (signatures h) /\
  length (perset_optgen h) = Z.to_nat (sets c) /\
  length (perset_timer h) = Z.to_nat (sets c) /\
  Forall (fun t => 0 <= t < TIMER_SIZE) (perset_timer h) /\
  length (addr_history h) = Z.to_nat (sets c).

(** The state a constructor leaves and [access] keeps: the geometry [init]
    checked, a tag array of [sets*ways] words, and the members of the
    derived class in range. *)
Record wf (c : cache_sim_t) : Prop := {
  wf_sets : sets c = 2 ^ Z.log2 (sets c);
  wf_sets_lt : sets c < 2 ^ 64;
  wf_ways : 0 <= ways c;
  wf_linesz : linesz c = 2 ^ idx_shift c;
  wf_shift : 3 <= idx_shift c < 64;
  wf_tags : length (tags c) = Z.to_nat (sets c * ways c);
  wf_pol :
    match pol c with
    | Random => True
    | FullyAssoc m => fa_wf c m
    | Linear ec => linear_wf c ec
    | Hawkeye h => hawkeye_wf c h
    end
}.

(** A cache as one of the four constructors leaves it. *)
Definition constructed (c : cache_sim_t) : Prop :=
  exists _sets _ways _linesz _name,
    uint64 _sets /\ uint64 _ways /\ uint64 _linesz /\
    _sets * _ways < 2 ^ 64 /\
    (cache_sim_new _sets _ways _linesz _name = Ok c \/
     (_sets = 1 /\ fa_cache_sim_new _ways _linesz _name = Ok c) \/
     linear_evict_cache_sim_new _sets _ways _linesz _name = Ok c \/
     hawkeye_cache_sim_new _sets _ways _linesz _name = Ok c).

(** Two states of a cache with the same geometry. *)
Definition same_geometry (c c' : cache_sim_t) : Prop :=
  sets c' = sets c /\ ways c' = ways c /\ linesz c' = linesz c /\
  idx_shift c' = idx_shift c.

(** What neither [check_tag] nor [victimize] touches: the geometry, the
    statistics, the wiring and the LFSR aside. *)
Definition same_frame (c c' : cache_sim_t) : Prop :=
  same_geometry c c' /\ stats c' = stats c /\
  miss_handler c' = miss_handler c /\ log c' = log c /\ name c' = name c.

(** [victimize] on the tag array: the tag of [addr] replaces the word of
    one way of the indexed set, and that word is the victim. *)
Definition installs (c c' : cache_sim_t) (addr victim : Z) : Prop :=
  exists w, 0 <= w < ways c /\
    tags c' = tag_store (tags c) (set_index c addr * ways c + w) (tag_of c addr) /\
    victim = way_tag c (set_index c addr) w.

(** What no method changes after construction: the geometry, the dynamic
    type, the wiring and the log switch. *)
Definition same_shape (c c' : cache_sim_t) : Prop :=
  same_geometry c c' /\ kind_of (pol c') = kind_of (pol c) /\
  miss_handler c' = miss_handler c /\ log c' = log c.

(** The sampler of the set of [addr] already holds the line of [addr]. *)
Definition sampled (c : cache_sim_t) (h : hawkeye_t) (addr : Z) : bool :=
  match om_find (tag_of c addr)
          (default [] (addr_history h !! Z.to_nat (wrap32 (set_index c addr)))) with
  | Some _ => true
  | None => false
  end.

(** The timer of the set of [addr]. *)
Definition timer_of (c : cache_sim_t) (h : hawkeye_t) (addr : Z) : Z :=
  default 0 (perset_timer h !! Z.to_nat (set_index c addr)).

(** The line number of an address: [addr >> idx_shift]. *)
Definition line_of (c : cache_sim_t) (addr : Z) : Z :=
  Z.shiftr addr (idx_shift c).

(** The requests of a stream carry [uint64_t] addresses. *)
Definition well_typed (reqs : list request) : Prop :=
  Forall (fun r : request => uint64 (snd (fst (fst r)))) reqs.

End properties.

(* ===================================================================== *)
(** ** Concrete caches and streams *)
(* ===================================================================== *)

(** The state [init] leaves for a geometry it accepts; [shift] is
    [log2 linesz]. *)
Definition fresh_cache (s w l shift : Z) (n : string) (p : policy)
  : cache_sim_t :=
  {| lfsr := lfsr_new; miss_handler := None;
     sets := s; ways := w; linesz := l; idx_shift := shift;
     tags := replicate (Z.to_nat (s * w)) 0;
     read_accesses := 0; read_misses := 0; bytes_read := 0;
     write_accesses := 0; write_misses := 0; bytes_written := 0;
     writebacks := 0;
     name := n; log := false; pol := p |}.

(** "2:2:64", random policy. *)
Definition random_2_2_64 : cache_sim_t := fresh_cache 2 2 64 6 "D$" Random.

(** "1:8:64": fully associative under automatic selection. *)
Definition fa_1_8_64 : cache_sim_t := fresh_cache 1 8 64 6 "D$" (FullyAssoc []).

(** "1:4:64:hawkeye". *)
Definition hawkeye_1_4_64 : cache_sim_t :=
  fresh_cache 1 4 64 6 "D$" (Hawkeye (hawkeye_new_state 1 4)).

(** Scenario S5. *)
Definition read_write_read : list request :=
  [(0, 0, 8, false); (0, 0, 8, true); (0, 0, 8, false)].

(** Lines A to D are read by the instruction at 100 until each is
    predicted cache-friendly; line E is then read by the instruction at
    200. *)
Definition warm_up : list request :=
  [(100, 0, 8, false); (100, 0, 8, false); (100, 0, 8, false);
   (100, 0, 8, false); (100, 0, 8, false);
   (100, 64, 8, false); (100, 64, 8, false);
   (100, 128, 8, false); (100, 128, 8, false);
   (100, 192, 8, false); (100, 192, 8, false)].

(** The state of a result, for inspection. *)
Definition state_of (r : res (cache_sim_t * list event)) (d : cache_sim_t)
  : cache_sim_t :=
  match r with
  | Ok (c, _) => c
  | Err _ => d
  end.

Definition events_of (r : res (cache_sim_t * list event)) : list event :=
  match r with
  | Ok (_, evs) => evs
  | Err _ => []
  end.

Definition hawkeye_of (c : cache_sim_t) : hawkeye_t :=
  match pol c with
  | Hawkeye h => h
  | _ => hawkeye_new_state 0 0
  end.

(** The Hawkeye cache after [warm_up]. *)
Definition warmed_up : cache_sim_t :=
  state_of (run hawkeye_1_4_64 warm_up) hawkeye_1_4_64.

(* ===================================================================== *)
(** ** The memory tracers of cachesim.h *)
(* ===================================================================== *)

(** [access_type] of memtracer.h, as cachesim.h uses it. *)
Inductive access_type : Type := LOAD | STORE | FETCH.

Definition is_fetch (t : access_type) : bool :=
  match t with FETCH => true | _ => false end.

Definition is_store_type (t : access_type) : bool :=
  match t with STORE => true | _ => false end.

(** [icache_sim_t::interested_in_range] and
    [dcache_sim_t::interested_in_range]. *)
Definition icache_interested_in_range (_begin _end : Z) (t : access_type)
  : bool :=
  is_fetch t.

Definition dcache_interested_in_range (_begin _end : Z) (t : access_type)
  : bool :=
  negb (is_fetch t).

Section tracers.
Context {deps : hawkeye_deps}.

(** [icache_sim_t::trace]:
    [if (type == FETCH) cache->access(addr, bytes, false);] *)
Definition icache_trace (pc : Z) (c : cache_sim_t) (addr bytes : Z)
    (t : access_type) : res (cache_sim_t * list event) :=
  if is_fetch t then access pc c addr bytes false else Ok (c, []).

(** [dcache_sim_t::trace]:
    [if (type == LOAD || type == STORE)
       cache->access(addr, bytes, type == STORE);] *)
Definition dcache_trace (pc : Z) (c : cache_sim_t) (addr bytes : Z)
    (t : access_type) : res (cache_sim_t * list event) :=
  if negb (is_fetch t) then access pc c addr bytes (is_store_type t)
  else Ok (c, []).

(** A stream of traced events: [(pc, addr, bytes, type)] in order. *)
Definition trace_event : Type := Z * Z * Z * access_type.

Fixpoint icache_run (c : cache_sim_t) (evs : list trace_event)
  : res (cache_sim_t * list event) :=
  match evs with
  | [] => Ok (c, [])
  | (pc, addr, bytes, t) :: evs' =>
      let* (c1, ev1) := icache_trace pc c addr bytes t in
      let* (c2, ev2) := icache_run c1 evs' in
      Ok (c2, ev1 ++ ev2)
  end.

(** The accesses an instruction cache makes for a stream of traced
    events: one load for each FETCH. *)
Definition fetches (tevs : list trace_event) : list request :=
  flat_map
    (fun e : trace_event =>
       if is_fetch (snd e)
       then [(fst (fst (fst e)), snd (fst (fst e)), snd (fst e), false)]
       else [])
    tevs.

(** The word a pointer returned by [check_tag] points at. *)
Definition slot_word (c : cache_sim_t) (p : slot) : Z :=
  match p with
  | ArraySlot i => tag_at (tags c) i
  | MapSlot k =>
      match pol c with
      | FullyAssoc m => default 0 (om_find k m)
      | _ => 0
      end
  end.

(** No word of the cache has its DIRTY bit set. *)
Definition clean (c : cache_sim_t) : Prop :=
  Forall (fun t => dirty t = false) (tags c) /\
  match pol c with
  | FullyAssoc m => Forall (fun e : Z * Z => dirty (snd e) = false) m
  | _ => True
  end.

(** The loads and the stores of a stream. *)
Definition loads (reqs : list request) : Z :=
  Z.of_nat (length (List.filter (fun r : request => negb (snd r)) reqs)).

Definition stores (reqs : list request) : Z :=
  Z.of_nat (length (List.filter (fun r : request => snd r) reqs)).

(** The RRPVs of a Hawkeye cache are 3-bit values. *)
Definition rrpv_bounded (c : cache_sim_t) : Prop :=
  match pol c with
  | Hawkeye h =>
      Forall (Forall (fun v => 0 <= v <= MAX_RRPV)) (rrpv h)
  | _ => True
  end.

(** The tag array outside way [w] of set [s] is the same in [c] and [c']. *)
Definition same_ways_except (c c' : cache_sim_t) (s w : Z) : Prop :=
  forall s' i,
    0 <= s' < sets c -> 0 <= i < ways c -> (s', i) <> (s, w) ->
    way_tag c' s' i = way_tag c s' i.

End tracers.

(* ===================================================================== *)
(** ** The LRU stack of a Hawkeye sampler *)
(* ===================================================================== *)

Section sampler_vocabulary.
Context {deps : hawkeye_deps}.

(** One turn of the loop of [update_addr_history_lru]: an entry in front
    of position [curr] moves back by one. *)
Definition lru_bump (curr : Z) (a : ADDR_INFO) : ADDR_INFO :=
  if lru a <? curr then set_lru (wrap32 (lru a + 1)) a else a.

(** The sampler of a set is an LRU stack: ascending keys, at most [ways]
    entries, and the [lru] fields are positions below the size, no two
    entries at the same position. *)
Definition lru_stack (c : cache_sim_t) (m : omap ADDR_INFO) : Prop :=
  om_sorted_from (-1) m /\
  om_size m <= ways c /\
  (forall k v, om_find k m = Some v -> 0 <= lru v < om_size m) /\
  (forall k1 v1 k2 v2,
     om_find k1 m = Some v1 -> om_find k2 m = Some v2 ->
     lru v1 = lru v2 -> k1 = k2).

Definition samplers_ok (c : cache_sim_t) : Prop :=
  match pol c with
  | Hawkeye h => Forall (lru_stack c) (addr_history h)
  | _ => True
  end.

(** The sampler of the set of [addr]. *)
Definition sampler_of (c : cache_sim_t) (h : hawkeye_t) (addr : Z)
  : omap ADDR_INFO :=
  default [] (addr_history h !! Z.to_nat (wrap32 (set_index c addr))).

End sampler_vocabulary.

(* ===================================================================== *)
(** ** More concrete caches and streams *)
(* ===================================================================== *)

(** "2:2:64:linear". *)
Definition linear_2_2_64 : cache_sim_t := fresh_cache 2 2 64 6 "D$" (Linear ∅).

(** Two loads, of lines 0 and 2, which share set 0 of a cache of two sets. *)
Definition load_twice : list request :=
  [(0, 0, 8, false); (0, 128, 8, false)].

(** What a hart reports while it runs: fetches, a store and a load. *)
Definition traced : list trace_event :=
  [(0, 0, 4, FETCH); (0, 64, 8, STORE); (4, 4, 4, FETCH); (4, 128, 8, LOAD)].

(** The map of a fully-associative cache, for inspection. *)
Definition fa_map_of (c : cache_sim_t) : omap Z :=
  match pol c with
  | FullyAssoc m => m
  | _ => []
  end.

(** The result of a replacement, for inspection. *)
Definition replaced (r : res (cache_sim_t * Z)) (d : cache_sim_t) : cache_sim_t :=
  match r with
  | Ok (c, _) => c
  | Err _ => d
  end.

Definition victim_of (r : res (cache_sim_t * Z)) : Z :=
  match r with
  | Ok (_, v) => v
  | Err _ => 0
  end.

(** A heap with one block of two words. *)
Definition one_block : heap := {[ 0%nat := [1; 2] ]}.

(* ===================================================================== *)
(** ** Caches as the simulator sets them up; configuration texts *)
(* ===================================================================== *)

Section configured_caches.
Context {deps : hawkeye_deps}.

(** A cache as the simulator sets it up: one of the four constructors,
    then [set_miss_handler] and [set_log]. *)
Definition configured (c : cache_sim_t) : Prop :=
  exists c0 mh l, constructed c0 /\ c = set_log l (set_miss_handler mh c0).

End configured_caches.

(** A field of a configuration: a text without a colon. *)
Fixpoint no_colon (s : string) : bool :=
  match s with
  | EmptyString => true
  | String a s' => negb (Ascii.eqb a ":"%char) && no_colon s'
  end.

(** The configuration [sets:ways:linesz] or [sets:ways:linesz:fourth]. *)
Definition config_text (s w l : string) (fourth : option string) : string :=
  (s ++ ":" ++ w ++ ":" ++
   match fourth with
   | Some t => l ++ ":" ++ t
   | None => l
   end)%string.

(** A linear-evict cache with a downstream cache wired and the miss log
    on; a random-evict cache with a downstream cache wired. *)
Definition wired_linear_2_2_64 : cache_sim_t :=
  set_log true (set_miss_handler (Some 1%nat) linear_2_2_64).

Definition wired_random_2_2_64 : cache_sim_t :=
  set_miss_handler (Some 1%nat) random_2_2_64.

(** A load of line 0, a store to line 2 and a load of line 4: the three
    lines share set 0 of a cache of two sets. *)
Definition fill_a_set : list request :=
  [(0, 0, 8, false); (0, 128, 8, true); (0, 256, 8, false)].

(** The random-evict cache after a store to address 0. *)
Definition stored_line_0 : cache_sim_t :=
  state_of (access 0 random_2_2_64 0 8 true) random_2_2_64.

(* ===================================================================== *)
(** ** Tag words, bit by bit *)
(* ===================================================================== *)

Lemma VALID_eq : VALID = 2 ^ 63. Proof. reflexivity. Qed.
Lemma DIRTY_eq : DIRTY = 2 ^ 62. Proof. reflexivity. Qed.

Lemma testbit_VALID n : 0 <= n -> Z.testbit VALID n = (63 =? n).
Proof. intros. rewrite VALID_eq. apply Z.pow2_bits_eqb. lia. Qed.

Lemma testbit_DIRTY n : 0 <= n -> Z.testbit DIRTY n = (62 =? n).
Proof. intros. rewrite DIRTY_eq. apply Z.pow2_bits_eqb. lia. Qed.

Lemma testbit_not64 x n :
  0 <= n -> Z.testbit (not64 x) n = xorb (Z.testbit x n) (n <? 64).
Proof.
  intros Hn. unfold not64. rewrite Z.lxor_spec, Z.testbit_ones_nonneg by lia.
  reflexivity.
Qed.

Lemma testbit_small p k n : 0 <= p < 2 ^ k -> k <= n -> Z.testbit p n = false.
Proof.
  intros Hp Hn. destruct (Z.eq_dec p 0) as [->|Hne].
  - apply Z.bits_0.
  - apply Z.bits_above_log2; [lia|].
    assert (Z.log2 p < k); [|lia].
    apply Z.log2_lt_pow2; lia.
Qed.

Ltac bitwise :=
  apply Z.bits_inj'; intros ?n ?Hn;
  repeat first
    [ rewrite Z.land_spec | rewrite Z.lor_spec
    | rewrite testbit_not64 by assumption
    | rewrite testbit_VALID by assumption
    | rewrite testbit_DIRTY by assumption ].

Ltac bitcases n :=
  destruct (Z.eqb_spec 63 n); destruct (Z.eqb_spec 62 n);
  destruct (Z.ltb_spec n 64); subst; try lia;
  rewrite ?andb_true_r, ?andb_false_r, ?orb_false_r, ?orb_true_r,
          ?xorb_false_r, ?xorb_true_r; cbn [xorb andb orb negb]; try reflexivity.

Lemma valid_install p : valid (Z.lor p VALID) = true.
Proof. unfold valid. rewrite Z.lor_spec, testbit_VALID by lia. apply orb_true_r. Qed.

Lemma payload_install p : 0 <= p < 2 ^ 62 -> payload (Z.lor p VALID) = p.
Proof.
  intros Hp. unfold payload. bitwise. bitcases n;
    rewrite ?andb_true_r, ?(testbit_small p 62) by lia; reflexivity.
Qed.

Lemma install_not_dirty p :
  0 <= p < 2 ^ 62 -> Z.land (Z.lor p VALID) (not64 DIRTY) = Z.lor p VALID.
Proof.
  intros Hp. bitwise. bitcases n;
    rewrite ?andb_true_r, ?(testbit_small p 62) by lia; reflexivity.
Qed.

Lemma valid_masked t :
  valid t = true -> Z.land t (not64 DIRTY) = Z.lor (payload t) VALID.
Proof.
  unfold valid, payload. intros Hv. bitwise. bitcases n;
    rewrite ?andb_true_r, ?andb_false_r, ?orb_false_r; try reflexivity.
  rewrite Hv. reflexivity.
Qed.

Lemma dirty_masked t :
  Z.land (Z.lor t DIRTY) (not64 DIRTY) = Z.land t (not64 DIRTY).
Proof.
  bitwise. bitcases n; rewrite ?andb_true_r, ?andb_false_r, ?orb_false_r; reflexivity.
Qed.

Lemma valid_mark_dirty t : valid (Z.lor t DIRTY) = valid t.
Proof. unfold valid. rewrite Z.lor_spec, testbit_DIRTY by lia. apply orb_false_r. Qed.

Lemma payload_mark_dirty t : payload (Z.lor t DIRTY) = payload t.
Proof.
  unfold payload. bitwise. bitcases n;
    rewrite ?andb_true_r, ?andb_false_r, ?orb_false_r; reflexivity.
Qed.

Lemma valid_dirty_test v :
  (Z.land v (Z.lor VALID DIRTY) =? Z.lor VALID DIRTY) = valid v && dirty v.
Proof.
  unfold valid, dirty.
  destruct (Z.eqb_spec (Z.land v (Z.lor VALID DIRTY)) (Z.lor VALID DIRTY)) as [E|E].
  - assert (H63 := f_equal (fun x => Z.testbit x 63) E).
    assert (H62 := f_equal (fun x => Z.testbit x 62) E).
    cbv beta in *.
    rewrite Z.land_spec, Z.lor_spec, testbit_VALID, testbit_DIRTY in H63, H62 by lia.
    change (63 =? 63) with true in H63. change (62 =? 63) with false in H63.
    change (63 =? 62) with false in H62. change (62 =? 62) with true in H62.
    cbn [orb] in H63, H62.
    rewrite andb_true_r in H63, H62. rewrite H63, H62. reflexivity.
  - destruct (Z.testbit v 63) eqn:E63; [|reflexivity].
    destruct (Z.testbit v 62) eqn:E62; [|reflexivity].
    exfalso. apply E. bitwise. bitcases n;
      rewrite ?andb_true_r, ?andb_false_r; try reflexivity; assumption.
Qed.

Lemma line_number_range addr k :
  uint64 addr -> 3 <= k -> 0 <= Z.shiftr addr k < 2 ^ 61.
Proof.
  intros [H0 H1] Hk. rewrite Z.shiftr_div_pow2 by lia. split.
  - apply Z.div_pos; lia.
  - apply Z.div_lt_upper_bound; [lia|].
    assert (2 ^ 3 <= 2 ^ k) by (apply Z.pow_le_mono_r; lia).
    nia.
Qed.

(* ===================================================================== *)
(** ** Powers of two and the geometry [init] accepts *)
(* ===================================================================== *)

Lemma power_of_two x :
  0 < x -> Z.land x (x - 1) = 0 -> x = 2 ^ Z.log2 x.
Proof.
  intros Hx Hland.
  destruct (Z.log2_spec x Hx) as [Hlo Hhi].
  destruct (Z.eq_dec x (2 ^ Z.log2 x)) as [|Hne]; [assumption|exfalso].
  assert (Hk : 0 <= Z.log2 x) by apply Z.log2_nonneg.
  assert (Hb1 : Z.testbit x (Z.log2 x) = true) by (apply Z.bit_log2; lia).
  assert (Hl : Z.log2 (x - 1) = Z.log2 x).
  { apply Z.log2_unique; [assumption|].
    rewrite Z.pow_succ_r in Hhi by assumption.
    replace (Z.log2 x + 1) with (Z.succ (Z.log2 x)) by lia.
    rewrite Z.pow_succ_r by assumption. lia. }
  assert (Hb2 : Z.testbit (x - 1) (Z.log2 x) = true).
  { rewrite <- Hl. apply Z.bit_log2. lia. }
  assert (Hb : Z.testbit (Z.land x (x - 1)) (Z.log2 x) = true).
  { rewrite Z.land_spec, Hb1, Hb2. reflexivity. }
  rewrite Hland, Z.bits_0 in Hb. discriminate.
Qed.

Lemma shift_loop_pow2 fuel k acc :
  0 <= k -> (Z.to_nat k <= fuel)%nat -> shift_loop fuel (2 ^ k) acc = acc + k.
Proof.
  revert k acc. induction fuel as [|fuel IH]; intros k acc Hk Hf.
  - assert (k = 0) by lia. subst. simpl. lia.
  - simpl. destruct (Z.ltb_spec 1 (2 ^ k)) as [Hlt|Hge].
    + assert (0 < k).
      { destruct (Z.eq_dec k 0) as [->|]; [simpl in Hlt; lia|lia]. }
      rewrite Z.shiftr_div_pow2 by lia.
      replace (2 ^ k / 2 ^ 1) with (2 ^ (k - 1)).
      * rewrite IH by lia. lia.
      * rewrite <- Z.pow_sub_r by lia. reflexivity.
    + assert (k = 0).
      { destruct (Z.eq_dec k 0); [assumption|].
        assert (2 ^ 1 <= 2 ^ k) by (apply Z.pow_le_mono_r; lia).
        change (2 ^ 1) with 2 in *. lia. }
      subst. lia.
Qed.

Lemma log2_below x n : 0 < x < 2 ^ n -> 0 <= n -> 0 <= Z.log2 x < n.
Proof.
  intros Hx Hn. split; [apply Z.log2_nonneg|].
  apply Z.log2_lt_pow2; lia.
Qed.

Lemma wrap64_small x : uint64 x -> wrap64 x = x.
Proof. intros H. apply Z.mod_small. exact H. Qed.

Lemma pow2_pred_ones k : 0 <= k -> 2 ^ k - 1 = Z.ones k.
Proof. intros. rewrite Z.ones_equiv. lia. Qed.

Lemma mask_index p k :
  0 <= k -> 0 <= Z.land p (2 ^ k - 1) < 2 ^ k.
Proof.
  intros Hk. rewrite pow2_pred_ones, Z.land_ones by assumption.
  apply Z.mod_pos_bound. apply Z.pow_pos_nonneg; lia.
Qed.

Lemma geometry_ok_sets s l :
  geometry_ok s l = true -> uint64 s -> s = 2 ^ Z.log2 s.
Proof.
  unfold geometry_ok. intros H Hs.
  apply andb_prop in H as [H _]. apply negb_true_iff, orb_false_elim in H as [H0 H1].
  apply Z.eqb_neq in H0. apply negb_false_iff, Z.eqb_eq in H1.
  rewrite wrap64_small in H1 by (unfold uint64 in *; lia).
  apply power_of_two; [unfold uint64 in Hs; lia | assumption].
Qed.

Lemma geometry_ok_linesz s l :
  geometry_ok s l = true -> uint64 l -> l = 2 ^ Z.log2 l /\ 3 <= Z.log2 l < 64.
Proof.
  unfold geometry_ok. intros H Hl.
  apply andb_prop in H as [_ H]. apply negb_true_iff, orb_false_elim in H as [H0 H1].
  apply Z.ltb_ge in H0. apply negb_false_iff, Z.eqb_eq in H1.
  rewrite wrap64_small in H1 by (unfold uint64 in *; lia).
  split; [apply power_of_two; [lia | assumption]|].
  split.
  - change 3 with (Z.log2 8). apply Z.log2_le_mono. assumption.
  - apply log2_below; [unfold uint64 in Hl; lia | lia].
Qed.

Section construction.
Context {deps : hawkeye_deps}.

Lemma init_ok_iff s w l n p :
  is_ok (init s w l n p) = geometry_ok s l.
Proof.
  unfold init, geometry_ok.
  destruct ((s =? 0) || negb (Z.land s (wrap64 (s - 1)) =? 0)); [reflexivity|].
  destruct ((l <? 8) || negb (Z.land l (wrap64 (l - 1)) =? 0)); reflexivity.
Qed.

Lemma init_inv s w l n p c :
  init s w l n p = Ok c ->
  geometry_ok s l = true /\
  c = {| lfsr := lfsr_new; miss_handler := None;
         sets := s; ways := w; linesz := l;
         idx_shift := shift_loop 64 l 0;
         tags := replicate (Z.to_nat (wrap64 (s * w))) 0;
         read_accesses := 0; read_misses := 0; bytes_read := 0;
         write_accesses := 0; write_misses := 0; bytes_written := 0;
         writebacks := 0;
         name := n; log := false; pol := p |}.
Proof.
  intros H. split.
  - rewrite <- (init_ok_iff s w l n p), H. reflexivity.
  - unfold init in H.
    destruct ((s =? 0) || negb (Z.land s (wrap64 (s - 1)) =? 0)); [discriminate|].
    destruct ((l <? 8) || negb (Z.land l (wrap64 (l - 1)) =? 0)); [discriminate|].
    congruence.
Qed.

Lemma init_geometry s w l n p c :
  init s w l n p = Ok c -> uint64 s -> uint64 w -> uint64 l ->
  s * w < 2 ^ 64 ->
  sets c = 2 ^ Z.log2 (sets c) /\ sets c < 2 ^ 64 /\ 0 <= ways c /\
  linesz c = 2 ^ idx_shift c /\ 3 <= idx_shift c < 64 /\
  length (tags c) = Z.to_nat (sets c * ways c) /\
  sets c = s /\ ways c = w /\ pol c = p /\
  Forall (fun t => t = 0) (tags c).
Proof.
  intros H Hs Hw Hl Hsw. apply init_inv in H as [Hg ->].
  cbn [sets ways linesz idx_shift tags pol].
  pose proof (geometry_ok_sets _ _ Hg Hs) as Hs2.
  pose proof (geometry_ok_linesz _ _ Hg Hl) as [Hl2 Hl3].
  assert (Hsh : shift_loop 64 l 0 = Z.log2 l).
  { rewrite Hl2 at 1. rewrite shift_loop_pow2 by lia. lia. }
  rewrite Hsh.
  assert (wrap64 (s * w) = s * w).
  { apply wrap64_small. unfold uint64 in *. nia. }
  repeat split; try (unfold uint64 in *; lia); try assumption.
  - rewrite length_replicate. congruence.
  - apply Forall_replicate. reflexivity.
Qed.

End construction.

(* ===================================================================== *)
(** ** Configuration texts *)
(* ===================================================================== *)

Lemma append_cons a (s t : string) : (String a s ++ t)%string = String a (s ++ t).
Proof. reflexivity. Qed.

Lemma append_nil (t : string) : ("" ++ t)%string = t.
Proof. reflexivity. Qed.

Lemma strchr_no_colon s : no_colon s = true -> strchr s ":"%char = None.
Proof.
  induction s as [|a s IH]; cbn [no_colon strchr]; [reflexivity|].
  intros H. apply andb_prop in H as [Ha Hs].
  apply negb_true_iff in Ha. rewrite Ha. auto.
Qed.

Lemma strchr_colon s r :
  no_colon s = true ->
  strchr (s ++ String ":" r) ":"%char = Some (String ":"%char r).
Proof.
  induction s as [|a s IH]; rewrite ?append_cons, ?append_nil;
    cbn [no_colon strchr]; [reflexivity|].
  intros H. apply andb_prop in H as [Ha Hs].
  apply negb_true_iff in Ha. rewrite Ha. auto.
Qed.

Lemma string_length_app (a b : string) :
  String.length (a ++ b) = (String.length a + String.length b)%nat.
Proof.
  induction a as [|x a IH]; rewrite ?append_cons, ?append_nil;
    cbn [String.length plus]; [reflexivity|].
  rewrite IH. reflexivity.
Qed.

(* The characters of [a ++ b] in front of [b]. *)
Lemma between_app (a b : string) : between (a ++ b) b = a.
Proof.
  unfold between. rewrite string_length_app.
  replace (String.length a + String.length b - String.length b)%nat
    with (String.length a) by lia.
  induction a as [|x a IH]; rewrite ?append_cons, ?append_nil; cbn [String.length].
  - destruct b; reflexivity.
  - cbn [substring]. rewrite IH. reflexivity.
Qed.

Lemma skip_spaces_colon s r :
  skip_spaces (s ++ String ":" r) = (skip_spaces s ++ String ":" r)%string.
Proof.
  induction s as [|a s IH]; rewrite ?append_cons, ?append_nil;
    cbn [skip_spaces]; [reflexivity|].
  destruct (isspace a); [exact IH|reflexivity].
Qed.

Lemma read_digits_colon s r acc :
  read_digits (s ++ String ":" r) acc = read_digits s acc.
Proof.
  revert acc. induction s as [|a s IH]; intros acc;
    rewrite ?append_cons, ?append_nil; cbn [read_digits]; [reflexivity|].
  destruct (isdigit a); [apply IH|reflexivity].
Qed.

(* [atoi] stops at the colon that ends a field. *)
Lemma atoi_colon s r : atoi (s ++ String ":" r) = atoi s.
Proof.
  unfold atoi. rewrite skip_spaces_colon.
  destruct (skip_spaces s) as [|a u]; [reflexivity|].
  rewrite append_cons.
  destruct a as [[] [] [] [] [] [] [] []]; cbv beta iota zeta;
    first [rewrite read_digits_colon | rewrite <- append_cons, read_digits_colon];
    reflexivity.
Qed.

Lemma split_config_text s w l fourth :
  no_colon s = true -> no_colon w = true -> no_colon l = true ->
  split_config (config_text s w l fourth)
    = Ok ((w ++ ":" ++
           match fourth with Some t => l ++ ":" ++ t | None => l end)%string,
          match fourth with Some t => (l ++ ":" ++ t)%string | None => l end,
          fourth).
Proof.
  intros Hs Hw Hl. unfold split_config, config_text.
  destruct fourth as [t|]; rewrite ?append_cons, ?append_nil;
    rewrite (strchr_colon s _ Hs); cbn [next_char];
    rewrite (strchr_colon w _ Hw); cbn [next_char].
  - rewrite (strchr_colon l _ Hl). reflexivity.
  - rewrite (strchr_no_colon l Hl). reflexivity.
Qed.

Lemma strchr_Some s p :
  strchr s ":"%char = Some p ->
  exists a r, no_colon a = true /\ s = (a ++ String ":" r)%string /\
              p = String ":"%char r.
Proof.
  induction s as [|x s IH]; cbn [strchr]; [discriminate|].
  destruct (Ascii.eqb_spec x ":"%char) as [->|Hx].
  - intros [= <-]. exists ""%string, s. repeat split.
  - intros H. destruct (IH H) as (a & r & Ha & -> & ->).
    exists (String x a), r. rewrite append_cons. split; [|split; reflexivity].
    cbn [no_colon]. rewrite Ha. apply Ascii.eqb_neq in Hx. rewrite Hx. reflexivity.
Qed.

Lemma strchr_None s : strchr s ":"%char = None -> no_colon s = true.
Proof.
  induction s as [|x s IH]; cbn [strchr no_colon]; [reflexivity|].
  destruct (Ascii.eqb x ":"%char); [discriminate|]. intros H. rewrite (IH H).
  reflexivity.
Qed.

(* Every configuration [construct] takes apart is a text [s:w:l] or
   [s:w:l:t], with the fourth field the model hands to [strcmp]. *)
Lemma split_config_is_text config wp bp fourth :
  split_config config = Ok (wp, bp, fourth) ->
  exists s w l,
    no_colon s = true /\ no_colon w = true /\ no_colon l = true /\
    config = config_text s w l fourth.
Proof.
  unfold split_config.
  destruct (strchr config ":"%char) as [p|] eqn:E1; [|discriminate].
  apply strchr_Some in E1 as (s & r1 & Hs & -> & ->). cbn [next_char].
  destruct (strchr r1 ":"%char) as [q|] eqn:E2; [|discriminate].
  apply strchr_Some in E2 as (w & r2 & Hw & -> & ->). cbn [next_char].
  intros [= <- <- <-]. exists s, w.
  destruct (strchr r2 ":"%char) as [t|] eqn:E3.
  - apply strchr_Some in E3 as (l & r3 & Hl & -> & ->). exists l.
    cbn [option_map next_char]. unfold config_text.
    rewrite ?append_cons, ?append_nil. repeat split; assumption.
  - exists r2. apply strchr_None in E3. cbn [option_map]. unfold config_text.
    rewrite ?append_cons, ?append_nil. repeat split; assumption.
Qed.

(* ===================================================================== *)
(** ** Arrays, grids and ordered maps *)
(* ===================================================================== *)

Lemma tag_at_store_same t i v :
  0 <= i < Z.of_nat (length t) -> tag_at (tag_store t i v) i = v.
Proof.
  intros Hi. unfold tag_at, tag_store.
  rewrite list_lookup_insert_eq by lia. reflexivity.
Qed.

Lemma tag_at_store_other t i j v :
  0 <= i -> 0 <= j -> i <> j -> tag_at (tag_store t i v) j = tag_at t j.
Proof.
  intros Hi Hj Hne. unfold tag_at, tag_store.
  rewrite list_lookup_insert_ne by lia. reflexivity.
Qed.

Lemma length_tag_store t i v : length (tag_store t i v) = length t.
Proof. apply length_insert. Qed.

Lemma in_seqZ x n : In x (seqZ 0 n) <-> 0 <= x < n.
Proof. rewrite <- list_elem_of_In, elem_of_seqZ. lia. Qed.

Lemma length_grid_store a i j v : length (grid_store a i j v) = length a.
Proof. unfold grid_store. apply length_alter. Qed.

Lemma rows_grid_store (n : nat) a i j v :
  Forall (fun row : list Z => length row = n) a ->
  Forall (fun row : list Z => length row = n) (grid_store a i j v).
Proof.
  intros H. unfold grid_store. apply Forall_alter; [assumption|].
  intros row _ Hrow. rewrite length_insert. assumption.
Qed.

Lemma grid_at_store_same (n : nat) a i j v :
  Forall (fun row : list Z => length row = n) a ->
  0 <= i < Z.of_nat (length a) -> 0 <= j < Z.of_nat n ->
  grid_at (grid_store a i j v) i j = v.
Proof.
  intros Hrows Hi Hj. unfold grid_at, grid_store.
  rewrite list_lookup_alter_eq.
  destruct (a !! Z.to_nat i) as [row|] eqn:E.
  - cbn. rewrite list_lookup_insert_eq; [reflexivity|].
    rewrite Forall_lookup in Hrows. rewrite (Hrows _ _ E). lia.
  - apply lookup_ge_None in E. lia.
Qed.

Section omap_facts.
Context {V : Type}.
Implicit Types m : omap V.

Lemma om_find_set_same k v m : om_find k (om_set k v m) = Some v.
Proof.
  induction m as [|[k' v'] m IH]; cbn.
  - rewrite Z.eqb_refl. reflexivity.
  - destruct (Z.ltb_spec k k'); cbn.
    + rewrite Z.eqb_refl. reflexivity.
    + destruct (Z.eqb_spec k k'); cbn.
      * rewrite Z.eqb_refl. reflexivity.
      * destruct (Z.eqb_spec k' k); [congruence|assumption].
Qed.

Lemma om_find_set_other k k' v m :
  k <> k' -> om_find k' (om_set k v m) = om_find k' m.
Proof.
  intros Hne. induction m as [|[k0 v0] m IH]; cbn.
  - destruct (Z.eqb_spec k k'); [congruence|reflexivity].
  - destruct (Z.ltb_spec k k0); cbn.
    + destruct (Z.eqb_spec k k'); [congruence|reflexivity].
    + destruct (Z.eqb_spec k k0); cbn.
      * subst k0. destruct (Z.eqb_spec k k'); [congruence|reflexivity].
      * destruct (Z.eqb_spec k0 k'); [reflexivity|assumption].
Qed.

Lemma om_find_In k v m : om_find k m = Some v -> In (k, v) m.
Proof.
  induction m as [|[k' v'] m IH]; cbn; [discriminate|].
  destruct (Z.eqb_spec k' k); intros H.
  - left. congruence.
  - right. auto.
Qed.

Lemma om_find_None k m : om_find k m = None -> ~ In k (om_keys m).
Proof.
  induction m as [|[k' v'] m IH]; cbn; [tauto|].
  destruct (Z.eqb_spec k' k); [discriminate|].
  intros H [E|E]; [congruence|]. apply IH; assumption.
Qed.

Lemma length_om_set_le k v m : (length (om_set k v m) <= S (length m))%nat.
Proof.
  induction m as [|[k' v'] m IH]; cbn; [lia|].
  destruct (k <? k'); cbn; [lia|]. destruct (k =? k'); cbn; lia.
Qed.

Lemma om_sorted_from_weaken lo lo' m :
  lo' <= lo -> om_sorted_from lo m -> om_sorted_from lo' m.
Proof.
  destruct m as [|[k v] m]; cbn; [tauto|]. intros Hle [Hlt Hs]. split; [lia|assumption].
Qed.

Lemma om_sorted_from_keys lo m :
  om_sorted_from lo m -> Forall (fun k => lo < k) (om_keys m).
Proof.
  revert lo. induction m as [|[k v] m IH]; intros lo; cbn.
  - constructor.
  - intros [Hlt Hs]. constructor; [assumption|].
    eapply Forall_impl; [apply IH; eassumption|]. cbn. intros. lia.
Qed.

Lemma om_sorted_from_NoDup lo m : om_sorted_from lo m -> NoDup (om_keys m).
Proof.
  revert lo. induction m as [|[k v] m IH]; intros lo; cbn.
  - constructor.
  - intros [Hlt Hs]. constructor; [|eapply IH; eassumption].
    intros Hin. apply om_sorted_from_keys in Hs.
    rewrite Forall_forall in Hs. apply Hs in Hin. lia.
Qed.

Lemma om_sorted_from_set lo k v m :
  lo < k -> om_sorted_from lo m -> om_sorted_from lo (om_set k v m).
Proof.
  revert lo. induction m as [|[k' v'] m IH]; intros lo Hlo; cbn.
  - tauto.
  - intros [Hlt Hs]. destruct (Z.ltb_spec k k'); cbn.
    + tauto.
    + destruct (Z.eqb_spec k k'); cbn.
      * subst. tauto.
      * split; [assumption|]. apply IH; [lia|assumption].
Qed.

Lemma om_sorted_from_delete lo (n : nat) m :
  om_sorted_from lo m -> om_sorted_from lo (delete n m).
Proof.
  revert lo n. induction m as [|[k v] m IH]; intros lo n; cbn; [tauto|].
  intros [Hlt Hs]. destruct n as [|n]; cbn.
  - eapply om_sorted_from_weaken; [|eassumption]. lia.
  - split; [assumption|]. apply IH. assumption.
Qed.

Lemma om_sorted_from_erase lo k m :
  om_sorted_from lo m -> om_sorted_from lo (om_erase k m).
Proof.
  revert lo. induction m as [|[k' v] m IH]; intros lo; cbn; [tauto|].
  intros [Hlt Hs]. destruct (k' =? k); cbn.
  - eapply om_sorted_from_weaken; [|eassumption]. lia.
  - split; [assumption|]. apply IH. assumption.
Qed.

Lemma om_sorted_find_set_length lo k v m :
  om_sorted_from lo m -> is_Some (om_find k m) ->
  length (om_set k v m) = length m.
Proof.
  revert lo. induction m as [|[k' v'] m IH]; intros lo; cbn.
  - intros _ [w Hw]. discriminate.
  - intros [Hlt Hs] Hf. destruct (Z.eqb_spec k' k).
    + subst. rewrite Z.ltb_irrefl, Z.eqb_refl. reflexivity.
    + destruct (Z.ltb_spec k k').
      * exfalso. destruct Hf as [w Hw]. apply om_find_In in Hw.
        apply om_sorted_from_keys in Hs. rewrite Forall_forall in Hs.
        assert (k' < k); [|lia]. apply Hs.
        unfold om_keys. apply list_elem_of_fmap. exists (k, w).
        split; [reflexivity|]. apply list_elem_of_In. assumption.
      * destruct (Z.eqb_spec k k'); [congruence|]. cbn. f_equal.
        eapply IH; eassumption.
Qed.

Lemma Forall_om_set (P : Z * V -> Prop) k v m :
  P (k, v) -> Forall P m -> Forall P (om_set k v m).
Proof.
  intros Hk. induction m as [|[k' v'] m IH]; cbn; intros H.
  - constructor; [assumption|constructor].
  - inversion H; subst. destruct (k <? k').
    + constructor; assumption.
    + destruct (k =? k'); constructor; auto.
Qed.

End omap_facts.

(* ===================================================================== *)
(** ** The tag array under the geometry invariant *)
(* ===================================================================== *)

Section tag_array.
Context {deps : hawkeye_deps}.
Implicit Types c : cache_sim_t.

Lemma sets_positive c : wf c -> 0 < sets c.
Proof.
  intros Hwf. rewrite (wf_sets c Hwf).
  apply Z.pow_pos_nonneg; [lia|apply Z.log2_nonneg].
Qed.

Lemma set_index_range c addr : wf c -> 0 <= set_index c addr < sets c.
Proof.
  intros Hwf. pose proof (sets_positive c Hwf) as Hpos.
  pose proof (wf_sets_lt c Hwf) as Hlt.
  unfold set_index. rewrite wrap64_small by (unfold uint64; lia).
  pose proof (mask_index (Z.shiftr addr (idx_shift c)) (Z.log2 (sets c))
                (Z.log2_nonneg _)) as H.
  rewrite <- (wf_sets c Hwf) in H. exact H.
Qed.

Lemma slot_index_range c s i :
  wf c -> 0 <= s < sets c -> 0 <= i < ways c ->
  0 <= s * ways c + i < Z.of_nat (length (tags c)).
Proof.
  intros Hwf Hs Hi. rewrite (wf_tags c Hwf), Z2Nat.id by nia. nia.
Qed.

Lemma slot_index_inj w s i s' j :
  0 <= i < w -> 0 <= j < w -> s * w + i = s' * w + j -> s = s' /\ i = j.
Proof. intros Hi Hj E. assert (s = s') by nia. subst. lia. Qed.

Lemma line_of_range c addr :
  wf c -> uint64 addr -> 0 <= line_of c addr < 2 ^ 61.
Proof.
  intros Hwf Ha. apply line_number_range; [assumption|].
  apply (wf_shift c Hwf).
Qed.

Lemma tag_of_line c addr : tag_of c addr = Z.lor (line_of c addr) VALID.
Proof. reflexivity. Qed.

Lemma set_index_line c addr :
  set_index c addr = Z.land (line_of c addr) (wrap64 (sets c - 1)).
Proof. reflexivity. Qed.

Lemma way_matches_eq c addr i :
  way_matches c addr i = true <->
  Z.land (way_tag c (set_index c addr) i) (not64 DIRTY) = tag_of c addr.
Proof.
  unfold way_matches, way_tag. rewrite Z.eqb_eq. split; congruence.
Qed.

Lemma payload_masked t : payload (Z.land t (not64 DIRTY)) = payload t.
Proof.
  unfold payload. bitwise. bitcases n;
    rewrite ?andb_true_r, ?andb_false_r; reflexivity.
Qed.

Lemma valid_masked_bit t : valid (Z.land t (not64 DIRTY)) = valid t.
Proof.
  unfold valid. rewrite Z.land_spec, testbit_not64, testbit_DIRTY by lia.
  apply andb_true_r.
Qed.

(** A way matches an address exactly when it is valid and holds the line
    number of the address. *)
Lemma way_matches_spec c addr i :
  wf c -> uint64 addr ->
  way_matches c addr i = true <->
  valid (way_tag c (set_index c addr) i) = true /\
  payload (way_tag c (set_index c addr) i) = line_of c addr.
Proof.
  intros Hwf Ha. pose proof (line_of_range c addr Hwf Ha) as Hp.
  assert (Hp' : 0 <= line_of c addr < 2 ^ 62) by lia.
  rewrite way_matches_eq, tag_of_line. split.
  - intros E. split.
    + rewrite <- valid_masked_bit, E. apply valid_install.
    + rewrite <- payload_masked, E. apply payload_install. assumption.
  - intros [Hv Hpl]. rewrite (valid_masked _ Hv), Hpl. reflexivity.
Qed.

Lemma base_check_tag_None c addr :
  base_check_tag c addr = None <->
  forall i, 0 <= i < ways c -> way_matches c addr i = false.
Proof.
  unfold base_check_tag. split.
  - destruct (List.find _ _) eqn:E; [discriminate|]. intros _ i Hi.
    eapply find_none in E; [eassumption|]. apply in_seqZ. assumption.
  - intros H. destruct (List.find _ _) eqn:E; [|reflexivity].
    apply find_some in E as [Hin Hm]. apply in_seqZ in Hin.
    rewrite H in Hm by assumption. discriminate.
Qed.

Lemma base_check_tag_Some c addr p :
  base_check_tag c addr = Some p ->
  exists i, 0 <= i < ways c /\ way_matches c addr i = true /\
            p = ArraySlot (set_index c addr * ways c + i).
Proof.
  unfold base_check_tag. destruct (List.find _ _) eqn:E; [|discriminate].
  intros [= <-]. apply find_some in E as [Hin Hm]. apply in_seqZ in Hin.
  eauto.
Qed.

Lemma base_check_tag_hit c addr i :
  0 <= i < ways c -> way_matches c addr i = true ->
  is_Some (base_check_tag c addr).
Proof.
  intros Hi Hm. destruct (base_check_tag c addr) eqn:E; [eauto|].
  rewrite base_check_tag_None in E. rewrite E in Hm by assumption.
  discriminate.
Qed.

Lemma way_matches_ext c c' addr i :
  same_geometry c c' -> tags c' = tags c ->
  way_matches c' addr i = way_matches c addr i.
Proof.
  intros (Hs & Hw & _ & Hsh) Ht.
  unfold way_matches, tag_of, set_index. rewrite Hs, Hw, Hsh, Ht. reflexivity.
Qed.

Lemma base_check_tag_ext c c' addr :
  same_geometry c c' -> tags c' = tags c ->
  base_check_tag c' addr = base_check_tag c addr.
Proof.
  intros Hg Ht. pose proof Hg as (Hs & Hw & _ & Hsh).
  unfold base_check_tag.
  assert (E : List.find (way_matches c' addr) (seqZ 0 (ways c')) =
              List.find (way_matches c addr) (seqZ 0 (ways c))).
  { rewrite Hw. induction (seqZ 0 (ways c)) as [|x l IH]; [reflexivity|].
    cbn. rewrite (way_matches_ext c c') by assumption. rewrite IH. reflexivity. }
  rewrite E. unfold set_index. rewrite Hs, Hw, Hsh. reflexivity.
Qed.

Lemma way_matches_same_line c a1 a2 i :
  line_of c a1 = line_of c a2 -> way_matches c a1 i = way_matches c a2 i.
Proof.
  intros E. unfold way_matches. rewrite !tag_of_line, !set_index_line, E.
  reflexivity.
Qed.

Lemma base_check_tag_same_line c a1 a2 :
  line_of c a1 = line_of c a2 -> base_check_tag c a1 = base_check_tag c a2.
Proof.
  intros E. unfold base_check_tag.
  assert (E' : List.find (way_matches c a1) (seqZ 0 (ways c)) =
               List.find (way_matches c a2) (seqZ 0 (ways c))).
  { induction (seqZ 0 (ways c)) as [|x l IH]; [reflexivity|].
    cbn. rewrite (way_matches_same_line c a1 a2) by assumption.
    rewrite IH. reflexivity. }
  rewrite E', !set_index_line, E. reflexivity.
Qed.

Lemma array_distinct_ext c c' :
  same_geometry c c' -> tags c' = tags c ->
  array_distinct c -> array_distinct c'.
Proof.
  intros (Hs & Hw & _ & _) Ht H s i j. unfold way_tag.
  rewrite Hs, Hw, Ht. apply H.
Qed.

(** Installing the tag of a missing line in a way of its set. *)
Lemma install_present c c' addr w :
  wf c -> uint64 addr -> 0 <= w < ways c -> same_geometry c c' ->
  tags c' = tag_store (tags c) (set_index c addr * ways c + w) (tag_of c addr) ->
  way_matches c' addr w = true.
Proof.
  intros Hwf Ha Hw Hg Ht. pose proof Hg as (Hs & Hww & _ & Hsh).
  pose proof (set_index_range c addr Hwf) as Hidx.
  pose proof (slot_index_range c _ _ Hwf Hidx Hw) as Hr.
  pose proof (line_of_range c addr Hwf Ha) as Hp.
  unfold way_matches, tag_of, set_index. rewrite Hs, Hww, Hsh, Ht.
  fold (set_index c addr). fold (tag_of c addr).
  rewrite tag_at_store_same by assumption.
  rewrite tag_of_line, install_not_dirty by lia. apply Z.eqb_refl.
Qed.

Lemma install_distinct c c' addr w :
  wf c -> uint64 addr -> base_check_tag c addr = None ->
  0 <= w < ways c -> same_geometry c c' ->
  tags c' = tag_store (tags c) (set_index c addr * ways c + w) (tag_of c addr) ->
  array_distinct c -> array_distinct c'.
Proof.
  intros Hwf Ha Hmiss Hw Hg Ht Hd. pose proof Hg as (Hs & Hww & _ & Hsh).
  pose proof (set_index_range c addr Hwf) as Hidx.
  pose proof (slot_index_range c _ _ Hwf Hidx Hw) as Hr.
  pose proof (line_of_range c addr Hwf Ha) as Hp.
  rewrite base_check_tag_None in Hmiss.
  assert (Hnew : forall s i, 0 <= s < sets c -> 0 <= i < ways c ->
            way_tag c' s i =
            if decide (s = set_index c addr /\ i = w)
            then tag_of c addr else way_tag c s i).
  { intros s i Hs' Hi. unfold way_tag. rewrite Hww, Ht.
    destruct (decide _) as [[-> ->]|Hne].
    - apply tag_at_store_same. assumption.
    - apply tag_at_store_other; [nia|nia|].
      intros E. apply slot_index_inj in E as [? ?]; [|lia|lia].
      apply Hne. split; congruence. }
  assert (Hclash : forall j, 0 <= j < ways c ->
            valid (way_tag c (set_index c addr) j) = true ->
            payload (way_tag c (set_index c addr) j) <> line_of c addr).
  { intros j Hj Hv Hpl.
    assert (way_matches c addr j = true) by (apply way_matches_spec; auto).
    rewrite Hmiss in H by assumption. discriminate. }
  intros s i j Hs' Hi Hj Hne. rewrite Hs in Hs'. rewrite Hww in Hi, Hj.
  rewrite !Hnew by assumption.
  destruct (decide (s = set_index c addr /\ i = w)) as [[-> ->]|Hi'];
    destruct (decide (_ /\ j = w)) as [[E ->]|Hj']; try subst s.
  - congruence.
  - intros _ Hv. rewrite tag_of_line, payload_install by lia.
    intros E. symmetry in E. revert E. apply Hclash; assumption.
  - intros Hv _. rewrite tag_of_line, payload_install by lia.
    apply Hclash; assumption.
  - apply Hd; assumption.
Qed.

(** Setting the DIRTY bit of a word of the array. *)
Lemma dirty_store_masked t k j :
  0 <= k -> 0 <= j ->
  Z.land (tag_at (tag_store t k (Z.lor (tag_at t k) DIRTY)) j) (not64 DIRTY) =
  Z.land (tag_at t j) (not64 DIRTY).
Proof.
  intros Hk Hj. destruct (Z.eq_dec k j) as [->|Hne].
  - destruct (Z.lt_ge_cases j (Z.of_nat (length t))).
    + rewrite tag_at_store_same by lia. apply dirty_masked.
    + unfold tag_store. rewrite list_insert_ge by lia. reflexivity.
  - rewrite tag_at_store_other by assumption. reflexivity.
Qed.

Lemma dirty_way_matches c c' addr k i :
  wf c -> 0 <= k -> 0 <= i -> same_geometry c c' ->
  tags c' = tag_store (tags c) k (Z.lor (tag_at (tags c) k) DIRTY) ->
  way_matches c' addr i = way_matches c addr i.
Proof.
  intros Hwf Hk Hi (Hs & Hw & _ & Hsh) Ht.
  pose proof (set_index_range c addr Hwf) as Hidx.
  pose proof (wf_ways c Hwf).
  unfold way_matches, tag_of, set_index. rewrite Hs, Hw, Hsh, Ht.
  fold (set_index c addr). rewrite dirty_store_masked by nia. reflexivity.
Qed.

Lemma dirty_distinct c c' k :
  wf c -> 0 <= k -> same_geometry c c' ->
  tags c' = tag_store (tags c) k (Z.lor (tag_at (tags c) k) DIRTY) ->
  array_distinct c -> array_distinct c'.
Proof.
  intros Hwf Hk (Hs & Hw & _ & _) Ht Hd s i j Hs' Hi Hj Hne.
  rewrite Hs in Hs'. rewrite Hw in Hi, Hj. pose proof (wf_ways c Hwf).
  assert (Hv : forall x, 0 <= x ->
            valid (tag_at (tags c') x) = valid (tag_at (tags c) x)).
  { intros x Hx. rewrite <- (valid_masked_bit (tag_at (tags c') x)), Ht.
    rewrite dirty_store_masked by assumption. apply valid_masked_bit. }
  assert (Hpl : forall x, 0 <= x ->
            payload (tag_at (tags c') x) = payload (tag_at (tags c) x)).
  { intros x Hx. rewrite <- (payload_masked (tag_at (tags c') x)), Ht.
    rewrite dirty_store_masked by assumption. apply payload_masked. }
  unfold way_tag. rewrite Hw, !Hv, !Hpl by nia. apply Hd; assumption.
Qed.

End tag_array.

(* ===================================================================== *)
(** ** The invariants along [check_tag], [victimize] and [mark_dirty] *)
(* ===================================================================== *)

(** The four paths through the sampler step of the Hawkeye lookup. *)
Ltac crack_sample :=
  destruct (om_find _ _);
  [ destruct (OPTGEN_VECTOR_SIZE <? _);
    [ | destruct (should_cache _ _ _) as [[] ?] ] | ].

Section steps.
Context {deps : hawkeye_deps}.
Implicit Types c : cache_sim_t.

Lemma same_geometry_refl c : same_geometry c c.
Proof. repeat split. Qed.

Lemma same_geometry_trans c1 c2 c3 :
  same_geometry c1 c2 -> same_geometry c2 c3 -> same_geometry c1 c3.
Proof. unfold same_geometry. intuition congruence. Qed.

Lemma same_frame_refl c : same_frame c c.
Proof. repeat split. Qed.

Lemma same_frame_trans c1 c2 c3 :
  same_frame c1 c2 -> same_frame c2 c3 -> same_frame c1 c3.
Proof.
  intros (G1 & S1 & M1 & L1 & N1) (G2 & S2 & M2 & L2 & N2).
  split; [eapply same_geometry_trans; eassumption|].
  repeat split; congruence.
Qed.

Lemma same_frame_geometry c c' : same_frame c c' -> same_geometry c c'.
Proof. intros [H _]. exact H. Qed.

Lemma policy_wf_ext c c' :
  same_geometry c c' -> pol c' = pol c ->
  match pol c with
  | Random => True
  | FullyAssoc m => fa_wf c m
  | Linear ec => linear_wf c ec
  | Hawkeye h => hawkeye_wf c h
  end ->
  match pol c' with
  | Random => True
  | FullyAssoc m => fa_wf c' m
  | Linear ec => linear_wf c' ec
  | Hawkeye h => hawkeye_wf c' h
  end.
Proof.
  intros (Hs & Hw & _ & _) ->.
  destruct (pol c); unfold fa_wf, linear_wf, hawkeye_wf; rewrite ?Hs, ?Hw; auto.
Qed.

Lemma wf_ext c c' :
  same_geometry c c' -> tags c' = tags c -> pol c' = pol c -> wf c -> wf c'.
Proof.
  intros Hg Ht Hp Hwf. pose proof Hg as (Hs & Hw & Hl & Hsh).
  destruct Hwf as [W1 W2 W3 W4 W5 W6 W7].
  constructor; rewrite ?Hs, ?Hw, ?Hl, ?Hsh, ?Ht; try assumption.
  eapply policy_wf_ext; eassumption.
Qed.

Lemma no_duplicate_tags_ext c c' :
  same_geometry c c' -> tags c' = tags c -> pol c' = pol c ->
  no_duplicate_tags c -> no_duplicate_tags c'.
Proof.
  intros Hg Ht Hp [Ha Hm]. split.
  - eapply array_distinct_ext; eassumption.
  - rewrite Hp. assumption.
Qed.

Lemma lookup_ext c c' addr :
  same_geometry c c' -> tags c' = tags c -> pol c' = pol c ->
  lookup c' addr = lookup c addr.
Proof.
  intros Hg Ht Hp. unfold lookup. rewrite Hp. destruct (pol c);
    try (apply base_check_tag_ext; assumption).
  unfold fa_check_tag. destruct Hg as (_ & _ & _ & ->). reflexivity.
Qed.

Lemma lookup_same_line c a1 a2 :
  line_of c a1 = line_of c a2 -> lookup c a1 = lookup c a2.
Proof.
  intros E. unfold lookup. destruct (pol c);
    try (apply base_check_tag_same_line; assumption).
  unfold fa_check_tag. fold (line_of c a1). fold (line_of c a2).
  rewrite E. reflexivity.
Qed.

(** The counters. *)
Lemma count_access_frame store bytes c :
  same_geometry c (count_access store bytes c) /\
  tags (count_access store bytes c) = tags c /\
  pol (count_access store bytes c) = pol c /\
  miss_handler (count_access store bytes c) = miss_handler c /\
  log (count_access store bytes c) = log c /\
  lfsr (count_access store bytes c) = lfsr c.
Proof. repeat split. Qed.

Lemma count_miss_frame store c :
  same_geometry c (count_miss store c) /\
  tags (count_miss store c) = tags c /\
  pol (count_miss store c) = pol c /\
  miss_handler (count_miss store c) = miss_handler c /\
  log (count_miss store c) = log c /\
  lfsr (count_miss store c) = lfsr c.
Proof. repeat split. Qed.

Lemma count_writeback_frame c :
  same_geometry c (count_writeback c) /\
  tags (count_writeback c) = tags c /\
  pol (count_writeback c) = pol c /\
  miss_handler (count_writeback c) = miss_handler c /\
  log (count_writeback c) = log c /\
  lfsr (count_writeback c) = lfsr c.
Proof. repeat split. Qed.

(** The sampler part of the Hawkeye lookup. *)

Lemma hawkeye_sample_grids pc c h addr :
  rrpv (hawkeye_sample pc c h addr).1.1 = rrpv h /\
  signatures (hawkeye_sample pc c h addr).1.1 = signatures h.
Proof.
  unfold hawkeye_sample.
  crack_sample; split; reflexivity.
Qed.

Lemma hawkeye_sample_timer pc c h addr :
  perset_timer (hawkeye_sample pc c h addr).1.1 =
  <[Z.to_nat (set_index c addr) :=
      wrap64 (default 0 (perset_timer h !! Z.to_nat (set_index c addr)) + 1)
      mod TIMER_SIZE]> (perset_timer h).
Proof.
  unfold hawkeye_sample.
  crack_sample; reflexivity.
Qed.

Lemma hawkeye_sample_lengths pc c h addr :
  length (perset_optgen (hawkeye_sample pc c h addr).1.1) =
    length (perset_optgen h) /\
  length (addr_history (hawkeye_sample pc c h addr).1.1) =
    length (addr_history h).
Proof.
  unfold hawkeye_sample.
  crack_sample; cbn; rewrite !length_insert; split; reflexivity.
Qed.

Lemma hawkeye_sample_wf pc c h addr :
  hawkeye_wf c h -> hawkeye_wf c (hawkeye_sample pc c h addr).1.1.
Proof.
  intros (R1 & R2 & S1 & S2 & O & T1 & T2 & A).
  destruct (hawkeye_sample_grids pc c h addr) as [Er Es].
  destruct (hawkeye_sample_lengths pc c h addr) as [Eo Ea].
  unfold hawkeye_wf. rewrite Er, Es, Eo, Ea, hawkeye_sample_timer.
  rewrite length_insert. repeat split; try assumption.
  apply Forall_insert; [assumption|].
  apply Z.mod_pos_bound. pose proof TIMER_SIZE_range. lia.
Qed.

Lemma hawkeye_wf_grids c h r s :
  hawkeye_wf c h ->
  length r = length (rrpv h) ->
  Forall (fun row => length row = Z.to_nat (ways c)) r ->
  length s = length (signatures h) ->
  Forall (fun row => length row = Z.to_nat (ways c)) s ->
  hawkeye_wf c (set_rrpv r (set_signatures s h)).
Proof.
  intros (R1 & R2 & S1 & S2 & O & T1 & T2 & A) Hr1 Hr2 Hs1 Hs2.
  unfold hawkeye_wf. cbn. repeat split; try assumption; congruence.
Qed.

Lemma hawkeye_check_tag_spec pc c h addr c1 r evs :
  hawkeye_check_tag pc c h addr = (c1, r, evs) ->
  r = base_check_tag c addr /\
  same_frame c c1 /\ tags c1 = tags c /\ lfsr c1 = lfsr c /\
  (exists h1, pol c1 = Hawkeye h1 /\ (hawkeye_wf c h -> hawkeye_wf c h1)) /\
  Forall (fun e => is_downstream e = false) evs.
Proof.
  unfold hawkeye_check_tag.
  destruct (hawkeye_sample pc c h addr) as [[h1 ev] np] eqn:E.
  intros [= <- <- <-].
  split; [reflexivity|]. split; [repeat split|]. split; [reflexivity|].
  split; [reflexivity|]. split.
  - eexists. split; [reflexivity|]. intros Hwf.
    pose proof (hawkeye_sample_wf pc c h addr Hwf) as Hwf1.
    rewrite E in Hwf1. cbn in Hwf1.
    destruct (last_matching_way c addr =? -1); [assumption|].
    pose proof Hwf1 as (R1 & R2 & S1 & S2 & _).
    apply hawkeye_wf_grids; try assumption.
    + apply length_grid_store.
    + apply rows_grid_store. assumption.
    + apply length_grid_store.
    + apply rows_grid_store. assumption.
  - assert (Hev : ev = (hawkeye_sample pc c h addr).1.2) by (rewrite E; reflexivity).
    subst ev. clear E. unfold hawkeye_sample.
    crack_sample; cbn; repeat constructor.
Qed.

Lemma check_tag_spec pc c addr c1 r evs :
  check_tag pc c addr = (c1, r, evs) ->
  r = lookup c addr /\
  same_frame c c1 /\ tags c1 = tags c /\ lfsr c1 = lfsr c /\
  kind_of (pol c1) = kind_of (pol c) /\
  (forall m, pol c = FullyAssoc m -> pol c1 = FullyAssoc m) /\
  (wf c -> wf c1) /\
  Forall (fun e => is_downstream e = false) evs.
Proof.
  unfold check_tag, lookup. destruct (pol c) as [|m|ec|h] eqn:Hp.
  1-3: intros [= <- <- <-];
       refine (conj eq_refl (conj (same_frame_refl _) (conj eq_refl
                 (conj eq_refl (conj _ (conj _ (conj (fun H => H) _)))))));
       [rewrite Hp; reflexivity | intros ? ?; congruence | constructor].
  intros H. apply hawkeye_check_tag_spec in H
    as (-> & Hf & Ht & Hl & (h1 & Hp1 & Hwf1) & Hev).
  rewrite Hp1.
  refine (conj eq_refl (conj Hf (conj Ht (conj Hl (conj eq_refl
            (conj _ (conj _ Hev))))))); [discriminate|].
  intros Hwf. pose proof Hf as [Hg _]. pose proof Hg as (Hs & Hw & Hls & Hsh).
  destruct Hwf as [W1 W2 W3 W4 W5 W6 W7]. rewrite Hp in W7.
  constructor; rewrite ?Hs, ?Hw, ?Hls, ?Hsh, ?Ht; try assumption.
  rewrite Hp1. specialize (Hwf1 W7).
  unfold hawkeye_wf in *. rewrite Hs, Hw. assumption.
Qed.

Lemma check_tag_no_duplicate pc c addr c1 r evs :
  check_tag pc c addr = (c1, r, evs) ->
  no_duplicate_tags c -> no_duplicate_tags c1.
Proof.
  intros H [Ha Hm].
  pose proof (check_tag_spec _ _ _ _ _ _ H) as (_ & Hf & Ht & _ & Hk & Hfa & _).
  split.
  - eapply array_distinct_ext; [apply Hf|eassumption|assumption].
  - destruct (pol c) as [|m|ec|h] eqn:Hp.
    + destruct (pol c1); try discriminate; exact I.
    + rewrite (Hfa m eq_refl). assumption.
    + destruct (pol c1); try discriminate; exact I.
    + destruct (pol c1); try discriminate; exact I.
Qed.

Lemma check_tag_lookup pc c addr c1 r evs a :
  check_tag pc c addr = (c1, r, evs) -> lookup c1 a = lookup c a.
Proof.
  intros H.
  pose proof (check_tag_spec _ _ _ _ _ _ H) as (_ & Hf & Ht & _ & Hk & Hfa & _).
  destruct (pol c) as [|m|ec|h] eqn:Hp.
  2: { apply lookup_ext; [apply Hf|assumption|]. rewrite Hp. auto. }
  all: unfold lookup; rewrite Hp; destruct (pol c1); try discriminate;
    apply base_check_tag_ext; [apply Hf|assumption].
Qed.

End steps.

(* ===================================================================== *)
(** ** Replacement, policy by policy *)
(* ===================================================================== *)

Section replacement.
Context {deps : hawkeye_deps}.
Implicit Types c : cache_sim_t.

Lemma base_victimize_spec c addr c1 v :
  wf c -> base_victimize c addr = Ok (c1, v) ->
  installs c c1 addr v /\ same_frame c c1 /\ pol c1 = pol c /\
  lfsr c1 = (lfsr_next (lfsr c)).1.
Proof.
  intros Hwf. unfold base_victimize. cbn [lfsr_next].
  destruct (Z.eqb_spec (ways c) 0) as [|Hne]; [discriminate|].
  intros [= <- <-]. pose proof (wf_ways c Hwf).
  split; [|repeat split].
  eexists. split; [apply Z.mod_pos_bound; lia|]. split; reflexivity.
Qed.

Lemma linear_victimize_spec c ec addr c1 v :
  wf c -> pol c = Linear ec -> linear_victimize c ec addr = Ok (c1, v) ->
  installs c c1 addr v /\ same_frame c c1 /\ lfsr c1 = lfsr c /\
  exists ec', pol c1 = Linear ec' /\ linear_wf c ec'.
Proof.
  intros Hwf Hp. unfold linear_victimize.
  destruct (Z.eqb_spec (ways c) 0) as [|Hne]; [discriminate|].
  intros [= <- <-]. pose proof (wf_ways c Hwf) as Hw.
  pose proof (wf_pol c Hwf) as Hec. rewrite Hp in Hec.
  assert (Hcand : 0 <= candidate ec (set_index c addr) < ways c).
  { unfold candidate. destruct (ec !! set_index c addr) eqn:E; cbn.
    - eapply Hec. eassumption.
    - lia. }
  split; [|split; [repeat split|split; [reflexivity|]]].
  - eexists. split; [eassumption|]. split; reflexivity.
  - eexists. split; [reflexivity|]. intros idx x.
    rewrite lookup_insert. destruct (decide _); [|apply Hec].
    intros [= <-]. apply Z.mod_pos_bound. lia.
Qed.

Lemma oldest_friendly_way (f : Z -> Z) l acc :
  snd (fold_left (fun (a : Z * Z) i => if fst a <=? f i then (f i, i) else a) l acc)
    = snd acc \/
  In (snd (fold_left (fun (a : Z * Z) i => if fst a <=? f i then (f i, i) else a) l acc)) l.
Proof.
  revert acc. induction l as [|x l IH]; intros acc; cbn; [auto|].
  destruct (IH (if acc.1 <=? f x then (f x, x) else acc)) as [E|E]; [|auto].
  rewrite E. destruct (acc.1 <=? f x); cbn; auto.
Qed.

Lemma oldest_friendly_range c h set :
  0 <= snd (oldest_friendly c h set) ->
  0 <= snd (oldest_friendly c h set) < ways c.
Proof.
  intros H. unfold oldest_friendly in *.
  destruct (oldest_friendly_way (grid_at (rrpv h) set) (seqZ 0 (ways c)) (0, -1))
    as [E|E].
  - rewrite E in H. cbn in H. lia.
  - apply in_seqZ in E. assumption.
Qed.

Lemma age_friendly_shape c sat r set (n : nat) :
  length (age_friendly c sat r set) = length r /\
  (Forall (fun row => length row = n) r ->
   Forall (fun row => length row = n) (age_friendly c sat r set)).
Proof.
  unfold age_friendly. revert r.
  induction (seqZ 0 (ways c)) as [|x l IH]; intros r; cbn; [auto|].
  destruct (negb sat && _).
  - destruct (IH (grid_store r set x (wrap32 (grid_at r set x + 1)))) as [E1 E2].
    rewrite E1, length_grid_store. split; [reflexivity|].
    intros H. apply E2, rows_grid_store, H.
  - apply IH.
Qed.

Lemma hawkeye_victimize_spec pc c h addr c1 v evs :
  wf c -> pol c = Hawkeye h -> hawkeye_victimize pc c h addr = Ok (c1, v, evs) ->
  installs c c1 addr v /\ same_frame c c1 /\ lfsr c1 = lfsr c /\
  (exists h', pol c1 = Hawkeye h' /\ hawkeye_wf c h') /\
  Forall (fun e => is_downstream e = false) evs.
Proof.
  intros Hwf Hp. pose proof (wf_pol c Hwf) as Hh. rewrite Hp in Hh.
  unfold hawkeye_victimize. destruct (find_max_rrpv c h (set_index c addr)) as [i|] eqn:Ef.
  - intros [= <- <- <-]. apply find_some in Ef as [Hin _]. apply in_seqZ in Hin.
    split; [exists i; split; [assumption|split; reflexivity]|].
    split; [repeat split|]. split; [reflexivity|].
    split; [exists h; split; assumption|constructor].
  - destruct (Z.ltb_spec (snd (oldest_friendly c h (set_index c addr))) 0) as [|Hge];
      [discriminate|].
    intros [= <- <- <-].
    pose proof (oldest_friendly_range c h _ Hge) as Hr.
    split; [eexists; split; [eassumption|split; reflexivity]|].
    split; [repeat split|]. split; [reflexivity|].
    split; [|repeat constructor].
    eexists. split; [reflexivity|].
    pose proof Hh as (R1 & R2 & S1 & S2 & O & T1 & T2 & A).
    match goal with
    | |- hawkeye_wf c (set_predictor ?p (set_rrpv ?r (set_signatures ?s h))) =>
        assert (Hg : hawkeye_wf c (set_rrpv r (set_signatures s h)))
    end.
    { apply hawkeye_wf_grids; try assumption.
      - destruct (negb _).
        + apply length_grid_store.
        + rewrite length_grid_store.
          rewrite (proj1 (age_friendly_shape c _ _ _ 0%nat)).
          apply length_grid_store.
      - destruct (negb _).
        + apply rows_grid_store. assumption.
        + apply rows_grid_store. apply age_friendly_shape.
          apply rows_grid_store. assumption.
      - apply length_grid_store.
      - apply rows_grid_store. assumption. }
    exact Hg.
Qed.

Lemma fa_wf_distinct c m : fa_wf c m -> map_distinct m.
Proof.
  intros (Hs & Hf & _). split.
  - eapply om_sorted_from_NoDup. eassumption.
  - intros i j e1 e2 H1 H2 Hne _ _. unfold omap in *.
    rewrite Forall_lookup in Hf.
    destruct (Hf _ _ H1) as [_ ->]. destruct (Hf _ _ H2) as [_ ->].
    apply om_sorted_from_NoDup in Hs. unfold om_keys in Hs.
    intros E. apply Hne. eapply NoDup_lookup; [exact Hs| |].
    + rewrite list_lookup_fmap, H1. reflexivity.
    + rewrite list_lookup_fmap, H2. cbn. congruence.
Qed.

Lemma fa_victimize_spec c m addr c1 v :
  wf c -> uint64 addr -> pol c = FullyAssoc m ->
  fa_victimize c m addr = Ok (c1, v) ->
  same_frame c c1 /\ tags c1 = tags c /\
  exists m1, pol c1 = FullyAssoc m1 /\ fa_wf c m1 /\
             is_Some (om_find (line_of c addr) m1).
Proof.
  intros Hwf Ha Hp. pose proof (wf_pol c Hwf) as Hm. rewrite Hp in Hm.
  destruct Hm as (Hs & Hf & Hsz).
  pose proof (line_of_range c addr Hwf Ha) as Hl.
  assert (Hnew : valid (tag_of c addr) = true /\
                 payload (tag_of c addr) = line_of c addr).
  { rewrite tag_of_line. split; [apply valid_install|].
    apply payload_install. lia. }
  unfold fa_victimize. fold (line_of c addr).
  destruct (Z.eqb_spec (om_size m) (ways c)) as [Hfull|Hroom].
  - cbn [lfsr_next]. destruct (ways c =? 0); [discriminate|].
    destruct (m !! Z.to_nat _) as [[k old]|] eqn:En; [|discriminate].
    intros [= <- <-]. split; [repeat split|]. split; [reflexivity|].
    eexists. split; [reflexivity|]. split; [|rewrite om_find_set_same; eauto].
    split; [|split].
    + apply om_sorted_from_set; [lia|]. apply om_sorted_from_delete. assumption.
    + apply Forall_om_set; [assumption|]. apply Forall_delete. assumption.
    + unfold om_size in *.
      pose proof (length_om_set_le (line_of c addr) (tag_of c addr)
                    (delete (Z.to_nat (reg (lfsr_next (lfsr c)).1 mod ways c)) m)) as Hle.
      cbn [lfsr_next fst reg] in Hle. unfold omap in *.
      rewrite length_delete in Hle by eauto.
      apply lookup_lt_Some in En. cbn [set_pol set_lfsr ways]. lia.
  - intros [= <- <-]. split; [repeat split|]. split; [reflexivity|].
    eexists. split; [reflexivity|]. split; [|rewrite om_find_set_same; eauto].
    split; [|split].
    + apply om_sorted_from_set; [lia|assumption].
    + apply Forall_om_set; assumption.
    + unfold om_size in *.
      pose proof (length_om_set_le (line_of c addr) (tag_of c addr) m).
      cbn [set_pol ways]. lia.
Qed.

End replacement.

(* ===================================================================== *)
(** ** One access, step by step *)
(* ===================================================================== *)

Ltac conj_split := repeat match goal with |- _ /\ _ => split end.

Section one_access.
Context {deps : hawkeye_deps}.
Implicit Types c : cache_sim_t.

(** The two ways [access] returns: a hit, or a miss that replaces a way,
    writes the victim back when it is valid and dirty, fills the line and,
    on a store, looks the line up again to set its DIRTY bit. *)
Lemma access_Ok_inv pc c addr bytes store c' evs :
  access pc c addr bytes store = Ok (c', evs) ->
  exists c1 r ev1,
    check_tag pc (count_access store bytes c) addr = (c1, r, ev1) /\
    ((exists p, r = Some p /\
        c' = (if store then mark_dirty p c1 else c1) /\ evs = ev1) \/
     (r = None /\
      exists c2 victim ev2,
        victimize pc (count_miss store c1) addr = Ok (c2, victim, ev2) /\
        let wb := valid victim && dirty victim in
        let c3 := if wb then count_writeback c2 else c2 in
        let ev_wb :=
          if wb
          then downstream c2
                 (EvDownstream (shl64 (payload victim) (idx_shift c2))
                               (linesz c2) true)
          else [] in
        let ev_fill :=
          downstream c3
            (EvDownstream (Z.land addr (not64 (wrap64 (linesz c3 - 1))))
                          (linesz c3) false) in
        let ev_log := if log c1 then [EvLogMiss store addr] else [] in
        ((store = false /\ c' = c3 /\
          evs = ev1 ++ ev_log ++ ev2 ++ ev_wb ++ ev_fill) \/
         (store = true /\
          exists c4 p ev3,
            check_tag pc c3 addr = (c4, Some p, ev3) /\
            c' = mark_dirty p c4 /\
            evs = ev1 ++ ev_log ++ ev2 ++ ev_wb ++ ev_fill ++ ev3)))).
Proof.
  unfold access.
  destruct (check_tag pc (count_access store bytes c) addr) as [[c1 r] ev1] eqn:Hct.
  intros H. exists c1, r, ev1. split; [reflexivity|].
  destruct r as [p|].
  - left. exists p. injection H as <- <-. auto.
  - right. split; [reflexivity|].
    destruct (victimize pc (count_miss store c1) addr) as [[[c2 victim] ev2]|e] eqn:Hv;
      cbn [res_bind] in H; [|discriminate].
    exists c2, victim, ev2. split; [reflexivity|].
    rewrite valid_dirty_test in H. fold (payload victim) in H.
    cbn [count_miss log] in H. cbn zeta.
    destruct (valid victim && dirty victim).
    + destruct store.
      * destruct (check_tag pc (count_writeback c2) addr) as [[c4 [p|]] ev3] eqn:Hct2;
          [|discriminate].
        injection H as <- <-. right. split; [reflexivity|].
        exists c4, p, ev3. split; [reflexivity|]. split; reflexivity.
      * injection H as <- <-. left. auto.
    + destruct store.
      * destruct (check_tag pc c2 addr) as [[c4 [p|]] ev3] eqn:Hct2;
          [|discriminate].
        injection H as <- <-. right. split; [reflexivity|].
        exists c4, p, ev3. split; [reflexivity|]. split; reflexivity.
      * injection H as <- <-. left. auto.
Qed.

Lemma array_install c c1 addr v :
  wf c -> no_duplicate_tags c -> uint64 addr ->
  base_check_tag c addr = None ->
  installs c c1 addr v -> same_geometry c c1 ->
  match pol c1 with
  | Random => True
  | FullyAssoc m => False
  | Linear ec => linear_wf c ec
  | Hawkeye h => hawkeye_wf c h
  end ->
  wf c1 /\ no_duplicate_tags c1 /\ is_Some (lookup c1 addr).
Proof.
  intros Hwf [Hd _] Ha Hmiss (w & Hw & Ht & _) Hg Hp.
  pose proof Hg as (Hs & Hww & Hl & Hsh).
  split; [|split].
  - destruct Hwf as [W1 W2 W3 W4 W5 W6 W7].
    constructor; rewrite ?Hs, ?Hww, ?Hl, ?Hsh; try assumption.
    + rewrite Ht, length_tag_store. assumption.
    + destruct (pol c1); unfold linear_wf, hawkeye_wf in *;
        rewrite ?Hs, ?Hww; tauto.
  - split; [eapply install_distinct; eassumption|].
    destruct (pol c1); tauto.
  - assert (Hm : way_matches c1 addr w = true)
      by (eapply install_present; eassumption).
    unfold lookup. destruct (pol c1); try tauto;
      (eapply base_check_tag_hit; [rewrite Hww|]; eassumption).
Qed.

Lemma victimize_spec pc c addr c1 v evs :
  wf c -> no_duplicate_tags c -> uint64 addr -> lookup c addr = None ->
  victimize pc c addr = Ok (c1, v, evs) ->
  wf c1 /\ no_duplicate_tags c1 /\ is_Some (lookup c1 addr) /\
  same_frame c c1 /\ kind_of (pol c1) = kind_of (pol c) /\
  Forall (fun e => is_downstream e = false) evs.
Proof.
  intros Hwf Hnd Ha Hmiss. unfold victimize. unfold lookup in Hmiss.
  destruct (pol c) as [|m|ec|h] eqn:Hp.
  - destruct (base_victimize c addr) as [[c2 v2]|] eqn:E; [|discriminate].
    cbn [res_bind]. intros [= <- <- <-].
    apply base_victimize_spec in E as (Hi & Hf & Hp1 & _); [|assumption].
    rewrite Hp in Hp1.
    destruct (array_install c c2 addr v2) as (Hwf2 & Hnd2 & Hl2); auto;
      [apply Hf|rewrite Hp1; exact I|].
    refine (conj Hwf2 (conj Hnd2 (conj Hl2 (conj Hf
              (conj (f_equal kind_of Hp1) _))))).
    constructor.
  - destruct (fa_victimize c m addr) as [[c2 v2]|] eqn:E; [|discriminate].
    cbn [res_bind]. intros [= <- <- <-].
    apply fa_victimize_spec in E as (Hf & Ht & m1 & Hp1 & Hm1 & Hfind); auto.
    pose proof Hf as [Hg _]. pose proof Hg as (Hs & Hw & Hl & Hsh).
    split; [|split; [|split]].
    + destruct Hwf as [W1 W2 W3 W4 W5 W6 W7].
      constructor; rewrite ?Hs, ?Hw, ?Hl, ?Hsh, ?Ht; try assumption.
      rewrite Hp1. unfold fa_wf in *. rewrite Hw. assumption.
    + split; [eapply array_distinct_ext; [eassumption..|apply Hnd]|].
      rewrite Hp1. eapply fa_wf_distinct. eassumption.
    + unfold lookup. rewrite Hp1. unfold fa_check_tag. rewrite Hsh.
      fold (line_of c addr). destruct Hfind as [x ->]. eauto.
    + refine (conj Hf (conj (f_equal kind_of Hp1) _)). constructor.
  - destruct (linear_victimize c ec addr) as [[c2 v2]|] eqn:E; [|discriminate].
    cbn [res_bind]. intros [= <- <- <-].
    apply linear_victimize_spec in E as (Hi & Hf & _ & ec' & Hp1 & Hec'); auto.
    destruct (array_install c c2 addr v2) as (Hwf2 & Hnd2 & Hl2); auto;
      [apply Hf|rewrite Hp1; assumption|].
    refine (conj Hwf2 (conj Hnd2 (conj Hl2 (conj Hf
              (conj (f_equal kind_of Hp1) _))))).
    constructor.
  - intros E.
    apply hawkeye_victimize_spec in E as (Hi & Hf & _ & (h' & Hp1 & Hh') & Hev); auto.
    destruct (array_install c c1 addr v) as (Hwf2 & Hnd2 & Hl2); auto;
      [apply Hf|rewrite Hp1; assumption|].
    exact (conj Hwf2 (conj Hnd2 (conj Hl2 (conj Hf
             (conj (f_equal kind_of Hp1) Hev))))).
Qed.

Lemma mark_dirty_spec c addr p :
  wf c -> no_duplicate_tags c -> lookup c addr = Some p ->
  wf (mark_dirty p c) /\ no_duplicate_tags (mark_dirty p c) /\
  is_Some (lookup (mark_dirty p c) addr) /\
  same_frame c (mark_dirty p c) /\
  kind_of (pol (mark_dirty p c)) = kind_of (pol c) /\
  lfsr (mark_dirty p c) = lfsr c.
Proof.
  intros Hwf Hnd. unfold lookup. destruct (pol c) as [|m|ec|h] eqn:Hp.
  2: { unfold fa_check_tag. fold (line_of c addr).
       destruct (om_find (line_of c addr) m) as [v|] eqn:Ef; [|discriminate].
       intros [= <-]. unfold mark_dirty. rewrite Hp, Ef.
       pose proof (wf_pol c Hwf) as Hm. rewrite Hp in Hm.
       destruct Hm as (Hs & Hf & Hsz).
       assert (Hin : In (line_of c addr, v) m) by (apply om_find_In; assumption).
       assert (Hv : valid v = true /\ payload v = line_of c addr).
       { rewrite Forall_forall in Hf. apply list_elem_of_In in Hin.
         apply (Hf _ Hin). }
       assert (Hk : -1 < line_of c addr).
       { pose proof (om_sorted_from_keys _ _ Hs) as Hks.
         rewrite Forall_forall in Hks. apply Hks. unfold om_keys.
         apply list_elem_of_fmap. eexists. split; [|apply list_elem_of_In; eassumption].
         reflexivity. }
       assert (Hm' : fa_wf c (om_set (line_of c addr) (Z.lor v DIRTY) m)).
       { split; [|split].
         - apply om_sorted_from_set; assumption.
         - apply Forall_om_set; [|assumption]. cbn [fst snd].
           rewrite valid_mark_dirty, payload_mark_dirty. assumption.
         - unfold om_size. erewrite om_sorted_find_set_length; eauto. }
       split; [|split; [|split]].
       - destruct Hwf as [W1 W2 W3 W4 W5 W6 W7]. constructor; assumption.
       - split; [apply Hnd|]. cbn [set_pol pol]. eapply fa_wf_distinct; eassumption.
       - unfold lookup. cbn [set_pol pol]. unfold fa_check_tag.
         cbn [set_pol idx_shift]. fold (line_of c addr).
         rewrite om_find_set_same. eauto.
       - repeat split. }
  all: intros Hl; apply base_check_tag_Some in Hl as (i & Hi & Hm & ->);
    pose proof (set_index_range c addr Hwf) as Hidx;
    pose proof (wf_ways c Hwf) as Hw0;
    assert (Hk : 0 <= set_index c addr * ways c + i) by nia;
    unfold mark_dirty;
    match goal with |- context [set_tags ?t ?c0] => set (c' := set_tags t c0) end;
    assert (Hg : same_geometry c c') by (repeat split);
    assert (Ht : tags c' = tag_store (tags c) (set_index c addr * ways c + i)
                   (Z.lor (tag_at (tags c) (set_index c addr * ways c + i)) DIRTY))
      by reflexivity;
    (split; [|split; [|split]]);
    [ destruct Hwf as [W1 W2 W3 W4 W5 W6 W7]; constructor; try assumption;
      rewrite Ht, length_tag_store; assumption
    | split; [eapply dirty_distinct; [eassumption..|apply Hnd]|];
      change (pol c') with (pol c); rewrite Hp; exact I
    | unfold lookup; change (pol c') with (pol c); rewrite Hp;
      apply (base_check_tag_hit c' addr i); [assumption|];
      rewrite (dirty_way_matches c c' addr _ i Hwf Hk (proj1 Hi) Hg Ht);
      assumption
    | repeat split; change (pol c') with (pol c); rewrite Hp; reflexivity ].
Qed.

End one_access.

(* ===================================================================== *)
(** ** The invariants along a run *)
(* ===================================================================== *)

Section runs.
Context {deps : hawkeye_deps}.
Implicit Types c : cache_sim_t.

Lemma counters_keep c c' :
  same_geometry c c' -> tags c' = tags c -> pol c' = pol c ->
  wf c -> no_duplicate_tags c ->
  wf c' /\ no_duplicate_tags c' /\ forall a, lookup c' a = lookup c a.
Proof.
  intros Hg Ht Hp Hwf Hnd. split; [eapply wf_ext; eassumption|].
  split; [eapply no_duplicate_tags_ext; eassumption|].
  intros a. apply lookup_ext; assumption.
Qed.

Lemma same_shape_refl c : same_shape c c.
Proof. repeat split. Qed.

Lemma same_shape_trans c1 c2 c3 :
  same_shape c1 c2 -> same_shape c2 c3 -> same_shape c1 c3.
Proof.
  intros (G1 & K1 & M1 & L1) (G2 & K2 & M2 & L2).
  split; [eapply same_geometry_trans; eassumption|].
  repeat split; congruence.
Qed.

Lemma same_frame_shape c c' :
  same_frame c c' -> kind_of (pol c') = kind_of (pol c) -> same_shape c c'.
Proof. intros (G & _ & M & L & _) K. repeat split; try assumption; apply G. Qed.

Lemma access_inv pc c addr bytes store c' evs :
  wf c -> no_duplicate_tags c -> uint64 addr ->
  access pc c addr bytes store = Ok (c', evs) ->
  wf c' /\ no_duplicate_tags c' /\ is_Some (lookup c' addr) /\
  same_shape c c'.
Proof.
  intros Hwf Hnd Ha H.
  apply access_Ok_inv in H as (c1 & r & ev1 & Hct & H).
  destruct (counters_keep c (count_access store bytes c)) as (Hwf0 & Hnd0 & Hl0);
    try assumption; try reflexivity; [repeat split|].
  assert (S0 : same_shape c (count_access store bytes c)) by (repeat split).
  pose proof (check_tag_spec _ _ _ _ _ _ Hct)
    as (Hr & Hf1 & Ht1 & _ & Hk1 & _ & Hwf1 & _).
  specialize (Hwf1 Hwf0).
  pose proof (check_tag_no_duplicate _ _ _ _ _ _ Hct Hnd0) as Hnd1.
  pose proof (check_tag_lookup _ _ _ _ _ _ addr Hct) as Hl1.
  assert (S1 : same_shape c c1).
  { eapply same_shape_trans; [exact S0|]. apply same_frame_shape; assumption. }
  destruct H as [(p & -> & -> & ->)|(-> & c2 & victim & ev2 & Hv & H)].
  - destruct store.
    + destruct (mark_dirty_spec c1 addr p) as (Hwf' & Hnd' & Hl' & Hf & Hk & _);
        auto; [congruence|].
      refine (conj Hwf' (conj Hnd' (conj Hl' _))).
      eapply same_shape_trans; [exact S1|]. apply same_frame_shape; assumption.
    + refine (conj Hwf1 (conj Hnd1 (conj _ S1))).
      rewrite Hl1, <- Hr. eauto.
  - destruct (counters_keep c1 (count_miss store c1)) as (Hwfm & Hndm & Hlm);
      try assumption; try reflexivity; [repeat split|].
    assert (Sm : same_shape c1 (count_miss store c1)) by (repeat split).
    apply victimize_spec in Hv as (Hwf2 & Hnd2 & Hl2 & Hf2 & Hk2 & _);
      try assumption; [|rewrite Hlm, Hl1; congruence].
    assert (S2 : same_shape c c2).
    { eapply same_shape_trans; [exact S1|].
      eapply same_shape_trans; [exact Sm|]. apply same_frame_shape; assumption. }
    cbn zeta in H.
    set (c3 := if valid victim && dirty victim then count_writeback c2 else c2) in *.
    assert (E3 : same_geometry c2 c3 /\ tags c3 = tags c2 /\ pol c3 = pol c2 /\
                 same_shape c2 c3)
      by (subst c3; destruct (valid victim && dirty victim); repeat split).
    destruct E3 as (G3 & T3 & P3 & S3').
    destruct (counters_keep c2 c3) as (Hwf3 & Hnd3 & Hl3); try assumption.
    assert (S3 : same_shape c c3) by (eapply same_shape_trans; eassumption).
    destruct H as [(-> & -> & _)|(-> & c4 & p & ev3 & Hct2 & -> & _)].
    + refine (conj Hwf3 (conj Hnd3 (conj _ S3))). rewrite Hl3. assumption.
    + pose proof (check_tag_spec _ _ _ _ _ _ Hct2)
        as (Hr4 & Hf4 & Ht4 & _ & Hk4 & _ & Hwf4 & _).
      specialize (Hwf4 Hwf3).
      pose proof (check_tag_no_duplicate _ _ _ _ _ _ Hct2 Hnd3) as Hnd4.
      pose proof (check_tag_lookup _ _ _ _ _ _ addr Hct2) as Hl4.
      destruct (mark_dirty_spec c4 addr p) as (Hwf' & Hnd' & Hl' & Hf & Hk & _);
        auto; [congruence|].
      refine (conj Hwf' (conj Hnd' (conj Hl' _))).
      eapply same_shape_trans; [exact S3|].
      eapply same_shape_trans; apply same_frame_shape; eassumption.
Qed.

Lemma run_inv c reqs c' evs :
  wf c -> no_duplicate_tags c -> well_typed reqs ->
  run c reqs = Ok (c', evs) ->
  wf c' /\ no_duplicate_tags c' /\ same_shape c c'.
Proof.
  revert c evs. induction reqs as [|[[[pc addr] bytes] store] reqs IH];
    intros c evs Hwf Hnd Hty; cbn [run].
  - intros [= <- <-]. exact (conj Hwf (conj Hnd (same_shape_refl c))).
  - destruct (access pc c addr bytes store) as [[c1 ev1]|] eqn:Ha; [|discriminate].
    cbn [res_bind].
    destruct (run c1 reqs) as [[c2 ev2]|] eqn:Hr; [|discriminate].
    cbn [res_bind]. intros [= <- <-].
    inversion Hty as [|? ? Hty1 Hty2]; subst. cbn in Hty1.
    apply access_inv in Ha as (Hwf1 & Hnd1 & _ & S1); try assumption.
    apply IH in Hr as (Hwf2 & Hnd2 & S2); try assumption.
    refine (conj Hwf2 (conj Hnd2 _)). eapply same_shape_trans; eassumption.
Qed.

Lemma tag_at_zero (t : list Z) i : Forall (fun x => x = 0) t -> tag_at t i = 0.
Proof.
  intros H. unfold tag_at. destruct (t !! Z.to_nat i) eqn:E; [|reflexivity].
  rewrite Forall_lookup in H. apply (H _ _ E).
Qed.

Lemma constructed_inv c : constructed c -> wf c /\ no_duplicate_tags c.
Proof.
  intros (s & w & l & n & Hs & Hw & Hl & Hsw & H).
  assert (Hinit : exists p, init s w l n p = Ok c /\
            (p = Random \/ (s = 1 /\ p = FullyAssoc []) \/ p = Linear ∅ \/
             p = Hawkeye (hawkeye_new_state s w))).
  { destruct H as [H|[[-> H]|[H|H]]]; eexists; (split; [exact H|]); auto. }
  destruct Hinit as (p & Hi & Hp).
  pose proof (init_geometry _ _ _ _ _ _ Hi Hs Hw Hl Hsw)
    as (G1 & G2 & G3 & G4 & G5 & G6 & Es & Ew & Ep & Hz).
  split.
  - constructor; try assumption. rewrite Ep.
    destruct Hp as [-> | [[-> ->] | [-> | ->]]].
    + exact I.
    + unfold fa_wf, om_size. cbn. repeat split; [constructor|lia].
    + intros idx v. rewrite lookup_empty. discriminate.
    + unfold hawkeye_wf, hawkeye_new_state. cbn.
      rewrite !length_replicate, Es, Ew. repeat split.
      * apply Forall_replicate. apply length_replicate.
      * apply Forall_replicate. apply length_replicate.
      * apply Forall_replicate. pose proof TIMER_SIZE_range. lia.
  - split.
    + intros s0 i j _ _ _ _ Hv. unfold way_tag in Hv.
      rewrite tag_at_zero in Hv by assumption. discriminate.
    + rewrite Ep. destruct Hp as [-> | [[-> ->] | [-> | ->]]]; try exact I.
      split; [constructor|]. intros i j e1 e2 H1. discriminate.
Qed.

(* Wiring a downstream cache and switching the miss log leave the
   invariants alone. *)
Lemma configured_inv c : configured c -> wf c /\ no_duplicate_tags c.
Proof.
  intros (c0 & mh & l & Hc & ->). apply constructed_inv in Hc as [Hwf Hnd].
  split.
  - eapply wf_ext; [| | |exact Hwf]; repeat split.
  - eapply no_duplicate_tags_ext; [| | |exact Hnd]; repeat split.
Qed.

Lemma constructed_configured c : constructed c -> configured c.
Proof.
  intros Hc. exists c, None, false. split; [exact Hc|].
  destruct Hc as (s & w & l & n & _ & _ & _ & _ & H).
  destruct H as [H|[[_ H]|[H|H]]]; apply init_inv in H as [_ ->]; reflexivity.
Qed.

Lemma configured_stats c : configured c -> stats c = zero_counters.
Proof.
  intros (c0 & mh & l & Hc & ->).
  destruct Hc as (s & w & l0 & n & _ & _ & _ & _ & H).
  destruct H as [H|[[_ H]|[H|H]]]; apply init_inv in H as [_ ->]; reflexivity.
Qed.

End runs.

(* ===================================================================== *)
(** ** Construction *)
(* ===================================================================== *)

Section claims_construction.
Context {deps : hawkeye_deps}.
Implicit Types c : cache_sim_t.

Lemma init_fields s w l n p c :
  init s w l n p = Ok c -> sets c = s /\ ways c = w /\ pol c = p.
Proof. intros H. apply init_inv in H as [_ ->]. repeat split. Qed.

(* What [construct] builds from the three pointers it takes into the
   configuration. *)
Lemma construct_inv config name c :
  construct config name = Ok c ->
  exists wp bp fourth ns nw,
    split_config config = Ok (wp, bp, fourth) /\
    atoi (between config wp) = Ok ns /\ atoi (between wp bp) = Ok nw /\
    sets c = wrap64 ns /\ ways c = wrap64 nw /\
    kind_of (pol c) = spec_policy fourth (sets c) (ways c).
Proof.
  unfold construct.
  destruct (split_config config) as [[[wp bp] fourth]|] eqn:Hs; [|discriminate].
  cbn [res_bind].
  destruct (atoi (between config wp)) as [s|] eqn:As; [|discriminate].
  cbn [res_bind].
  destruct (atoi (between wp bp)) as [w|] eqn:Aw; [|discriminate].
  cbn [res_bind].
  destruct (match fourth with Some t => atoi (between bp t) | None => atoi bp end)
    as [l|]; [|discriminate].
  cbn [res_bind]. intros H. exists wp, bp, fourth, s, w.
  split; [reflexivity|]. split; [exact As|]. split; [exact Aw|].
  unfold spec_policy, type_is in *.
  assert (Hauto :
    (if (4 <? wrap64 w) && (wrap64 s =? 1)
     then fa_cache_sim_new (wrap64 w) (wrap64 l) name
     else cache_sim_new (wrap64 s) (wrap64 w) (wrap64 l) name) = Ok c ->
    sets c = wrap64 s /\ ways c = wrap64 w /\
    kind_of (pol c) =
    (if (4 <? ways c) && (sets c =? 1) then KFullyAssoc else KRandom)).
  { destruct ((4 <? wrap64 w) && (wrap64 s =? 1)) eqn:E; intros Hi;
      apply init_fields in Hi as (Es & Ew & ->); rewrite Es, Ew.
    - apply andb_prop in E as [E1 E2]. apply Z.eqb_eq in E2.
      rewrite E1. split; [congruence|]. split; reflexivity.
    - rewrite E. split; [reflexivity|]. split; reflexivity. }
  destruct fourth as [t|]; [|auto].
  destruct (String.eqb t "linear").
  - apply init_fields in H as (-> & -> & ->). repeat split.
  - destruct (String.eqb t "hawkeye"); [|auto].
    apply init_fields in H as (-> & -> & ->). repeat split.
Qed.

Lemma append_colon_assoc (s x : string) :
  (s ++ String ":" x)%string = ((s ++ ":") ++ x)%string.
Proof.
  induction s as [|a s IH]; rewrite ?append_cons, ?append_nil; [reflexivity|].
  rewrite IH. reflexivity.
Qed.

(** C6.  For the configuration text [s:w:l] or [s:w:l:t], [construct]
    takes [atoi s] for the sets and [atoi w] for the ways and yields the
    policy the specification selects: a fourth field [t] equal to "linear"
    gives the linear-evict cache and "hawkeye" the Hawkeye cache;
    otherwise more than four ways in a single set give the
    fully-associative cache, and anything else the random-evict cache. *)
Theorem construct_policy_precedence s w l fourth name c :
  no_colon s = true -> no_colon w = true -> no_colon l = true ->
  construct (config_text s w l fourth) name = Ok c ->
  exists ns nw,
    atoi s = Ok ns /\ atoi w = Ok nw /\
    sets c = wrap64 ns /\ ways c = wrap64 nw /\
    kind_of (pol c) = spec_policy fourth (sets c) (ways c).
Proof.
  intros Hs Hw Hl H.
  apply construct_inv in H
    as (wp & bp & f & ns & nw & Hsplit & As & Aw & Es & Ew & Hk).
  rewrite (split_config_text s w l fourth Hs Hw Hl) in Hsplit.
  injection Hsplit as <- <- <-.
  exists ns, nw. rewrite <- As, <- Aw.
  unfold config_text. rewrite !append_cons, !append_nil.
  rewrite (append_colon_assoc s), (append_colon_assoc w).
  rewrite !between_app.
  change (s ++ ":")%string with (s ++ String ":" "")%string.
  change (w ++ ":")%string with (w ++ String ":" "")%string.
  rewrite !atoi_colon.
  split; [reflexivity|]. split; [reflexivity|]. split; [exact Es|].
  split; [exact Ew|exact Hk].
Qed.

(** C8.  [init] looks at [sets] and [linesz] only, so a cache with no ways
    is constructed; on such a random-evict cache every access is a miss
    that reaches [lfsr.next() % ways] with [ways = 0]. *)
Theorem zero_ways_reach_modulo_by_zero s l name c :
  cache_sim_new s 0 l name = Ok c ->
  (forall w n p, is_ok (init s w l n p) = true) /\
  ways c = 0 /\
  forall pc addr bytes store,
    base_victimize (count_miss store (count_access store bytes c)) addr
      = Err Undefined /\
    access pc c addr bytes store = Err Undefined.
Proof.
  intros H. split.
  - intros w n p. rewrite init_ok_iff, <- (init_ok_iff s 0 l name Random).
    unfold cache_sim_new in H. rewrite H. reflexivity.
  - apply init_inv in H as [_ ->]. split; [reflexivity|].
    intros pc addr bytes store. split; [reflexivity|].
    unfold access, check_tag. cbn [count_access pol]. unfold base_check_tag.
    cbn [ways]. reflexivity.
Qed.

(** C7.  Scenario S5: two sets, two ways, 64-byte lines, random policy,
    LFSR seeded to 1, no downstream; a read, a write and a read of address
    0, eight bytes each. *)
Theorem scenario_read_write_read :
  exists c evs,
    (let* c0 := cache_sim_new 2 2 64 "D$" in
     run c0 [(0, 0, 8, false); (0, 0, 8, true); (0, 0, 8, false)])
      = Ok (c, evs) /\
    read_accesses c = 2 /\ write_accesses c = 1 /\
    read_misses c + write_misses c = 1 /\
    bytes_read c = 16 /\ bytes_written c = 8.
Proof. eexists. eexists. split; [vm_compute; reflexivity|]. repeat split. Qed.

End claims_construction.

(* ===================================================================== *)
(** ** Runs *)
(* ===================================================================== *)

Section claims_runs.
Context {deps : hawkeye_deps}.
Implicit Types c : cache_sim_t.

Lemma run_app c l1 l2 :
  run c (l1 ++ l2) =
  let* (c1, e1) := run c l1 in
  let* (c2, e2) := run c1 l2 in
  Ok (c2, e1 ++ e2).
Proof.
  revert c. induction l1 as [|[[[pc addr] bytes] store] l1 IH]; intros c; cbn [run app].
  - cbn [res_bind]. destruct (run c l2) as [[c2 e2]|]; reflexivity.
  - destruct (access pc c addr bytes store) as [[c1 e1]|]; [|reflexivity].
    cbn [res_bind]. rewrite IH.
    destruct (run c1 l1) as [[c2 e2]|]; [|reflexivity]. cbn [res_bind].
    destruct (run c2 l2) as [[c3 e3]|]; [|reflexivity]. cbn [res_bind].
    rewrite app_assoc. reflexivity.
Qed.

Lemma run_prefix c reqs c' evs (k : nat) :
  run c reqs = Ok (c', evs) ->
  exists ck evk, run c (take k reqs) = Ok (ck, evk).
Proof.
  rewrite <- (take_drop k reqs) at 1. rewrite run_app.
  destruct (run c (take k reqs)) as [[ck evk]|]; [eauto|discriminate].
Qed.

(** C3.  Along every stream of accesses to a cache of any of the four
    policies, with or without a downstream cache and a miss log, after
    each call no two valid ways of a set hold the same tag payload, and no
    two entries of the map of a fully-associative cache share a key. *)
Theorem no_two_valid_ways_share_a_tag c0 reqs c evs (k : nat) :
  configured c0 -> well_typed reqs -> run c0 reqs = Ok (c, evs) ->
  exists ck evk,
    run c0 (take k reqs) = Ok (ck, evk) /\ no_duplicate_tags ck.
Proof.
  intros Hc Hty Hrun.
  destruct (run_prefix _ _ _ _ k Hrun) as (ck & evk & Hk).
  exists ck, evk. split; [assumption|].
  apply configured_inv in Hc as [Hwf Hnd].
  eapply run_inv; [exact Hwf|exact Hnd| |exact Hk].
  unfold well_typed in *. apply Forall_take. assumption.
Qed.

(** C5.  Of two consecutive accesses to the same line the second is a
    hit, whatever the policy: its lookup returns a way and the miss
    counters stay as the first access left them. *)
Theorem second_access_to_a_line_hits pc1 pc2 c a1 b1 s1 a2 b2 s2 c1 ev1 :
  wf c -> no_duplicate_tags c -> uint64 a1 ->
  access pc1 c a1 b1 s1 = Ok (c1, ev1) ->
  Z.shiftr a1 (idx_shift c) = Z.shiftr a2 (idx_shift c) ->
  exists p c2 ev2,
    (check_tag pc2 (count_access s2 b2 c1) a2).1.2 = Some p /\
    access pc2 c1 a2 b2 s2 = Ok (c2, ev2) /\
    read_misses c2 = read_misses c1 /\ write_misses c2 = write_misses c1.
Proof.
  intros Hwf Hnd Ha1 Hacc Hline.
  apply access_inv in Hacc as (Hwf1 & Hnd1 & [p Hp] & (Hg & _)); try assumption.
  destruct Hg as (_ & _ & _ & Hsh).
  assert (Hl : lookup (count_access s2 b2 c1) a2 = Some p).
  { rewrite (lookup_ext c1) by (repeat split). rewrite <- Hp.
    apply lookup_same_line. unfold line_of. rewrite Hsh. congruence. }
  destruct (check_tag pc2 (count_access s2 b2 c1) a2) as [[c2 r] ev2] eqn:Hct.
  pose proof (check_tag_spec _ _ _ _ _ _ Hct) as (Hr & Hf & _).
  destruct Hf as (_ & Hst & _).
  assert (Hm : read_misses c2 = read_misses c1 /\ write_misses c2 = write_misses c1).
  { split; [apply (f_equal c_read_misses) in Hst|apply (f_equal c_write_misses) in Hst];
      exact Hst. }
  rewrite Hl in Hr. subst r. exists p. unfold access. rewrite Hct.
  eexists. eexists. split; [reflexivity|]. split; [reflexivity|].
  destruct s2; [|exact Hm].
  destruct p as [i|key]; unfold mark_dirty; [exact Hm|].
  destruct (pol c2); try exact Hm. destruct (om_find key fa_tags); exact Hm.
Qed.

End claims_runs.

(* ===================================================================== *)
(** ** Downstream calls *)
(* ===================================================================== *)

Lemma shl64_aligned x k : 0 <= k < 64 -> shl64 x k mod 2 ^ k = 0.
Proof.
  intros Hk. unfold shl64, wrap64. rewrite Z.shiftl_mul_pow2 by lia.
  rewrite Z.mod_mod_divide.
  - apply Z.mod_mul. apply Z.pow_nonzero; lia.
  - exists (2 ^ (64 - k)). rewrite <- Z.pow_add_r by lia. f_equal. lia.
Qed.

Lemma fill_aligned addr k :
  0 <= k < 64 -> Z.land addr (not64 (wrap64 (2 ^ k - 1))) mod 2 ^ k = 0.
Proof.
  intros Hk.
  assert (H2 : 2 ^ k < 2 ^ 64) by (apply Z.pow_lt_mono_r; lia).
  assert (H1 : 0 < 2 ^ k) by (apply Z.pow_pos_nonneg; lia).
  rewrite wrap64_small by (unfold uint64; lia).
  rewrite pow2_pred_ones by lia. rewrite <- Z.land_ones by lia.
  apply Z.bits_inj'. intros n Hn.
  rewrite !Z.land_spec, testbit_not64, Z.bits_0 by assumption.
  rewrite Z.testbit_ones_nonneg by lia.
  destruct (Z.ltb_spec n k) as [Hlt|Hge].
  - destruct (Z.ltb_spec n 64); [|lia]. cbn. rewrite andb_false_r. reflexivity.
  - rewrite andb_false_r. reflexivity.
Qed.

Lemma not_downstream_line_call ls evs :
  Forall (fun e => is_downstream e = false) evs -> Forall (line_call ls) evs.
Proof.
  intros H. eapply Forall_impl; [exact H|].
  intros [] He; cbn in *; try exact I. discriminate.
Qed.

Lemma not_downstream_calls evs :
  Forall (fun e => is_downstream e = false) evs -> downstream_calls evs = [].
Proof.
  unfold downstream_calls. induction 1 as [|e evs He _ IH]; cbn; [reflexivity|].
  rewrite He. assumption.
Qed.

Lemma downstream_calls_app e1 e2 :
  downstream_calls (e1 ++ e2) = downstream_calls e1 ++ downstream_calls e2.
Proof. apply List.filter_app. Qed.

Section claims_downstream.
Context {deps : hawkeye_deps}.
Implicit Types c : cache_sim_t.

(** C4.  With a downstream handler wired, the calls one access makes on it
    are for whole lines at line boundaries; a hit makes none; a miss makes
    the fill, a load, preceded by one store exactly when the victim is
    valid and dirty. *)
Theorem downstream_calls_are_line_fills_and_writebacks
    pc c addr bytes store c' evs :
  wf c -> no_duplicate_tags c -> uint64 addr ->
  is_Some (miss_handler c) ->
  access pc c addr bytes store = Ok (c', evs) ->
  Forall (line_call (linesz c)) evs /\
  match lookup c addr with
  | Some _ => downstream_calls evs = []
  | None =>
      exists c2 victim ev2,
        victimize pc
          (count_miss store (check_tag pc (count_access store bytes c) addr).1.1)
          addr = Ok (c2, victim, ev2) /\
        downstream_calls evs =
          (if valid victim && dirty victim
           then [EvDownstream (shl64 (payload victim) (idx_shift c))
                              (linesz c) true]
           else []) ++
          [EvDownstream (Z.land addr (not64 (wrap64 (linesz c - 1))))
                        (linesz c) false]
  end.
Proof.
  intros Hwf Hnd Ha [mh Hmh] H.
  apply access_Ok_inv in H as (c1 & r & ev1 & Hct & H).
  destruct (counters_keep c (count_access store bytes c)) as (Hwf0 & Hnd0 & Hl0);
    try assumption; try reflexivity; [repeat split|].
  pose proof (check_tag_spec _ _ _ _ _ _ Hct)
    as (Hr & Hf1 & Ht1 & _ & Hk1 & _ & Hwf1 & Hev1).
  specialize (Hwf1 Hwf0).
  pose proof (check_tag_no_duplicate _ _ _ _ _ _ Hct Hnd0) as Hnd1.
  pose proof (check_tag_lookup _ _ _ _ _ _ addr Hct) as Hl1.
  rewrite Hl0 in Hr. rewrite Hct. cbn [fst].
  destruct H as [(p & -> & -> & ->)|(-> & c2 & victim & ev2 & Hv & H)].
  - rewrite <- Hr. split.
    + apply not_downstream_line_call. assumption.
    + apply not_downstream_calls. assumption.
  - rewrite <- Hr.
    destruct (counters_keep c1 (count_miss store c1)) as (Hwfm & Hndm & Hlm);
      try assumption; try reflexivity; [repeat split|].
    pose proof Hv as Hv'.
    apply victimize_spec in Hv' as (Hwf2 & Hnd2 & Hl2 & Hf2 & Hk2 & Hev2);
      try assumption; [|rewrite Hlm, Hl1, Hl0; congruence].
    assert (E2 : linesz c2 = linesz c /\ idx_shift c2 = idx_shift c /\
                 miss_handler c2 = Some mh).
    { destruct Hf1 as ((_ & _ & L1 & S1) & _ & M1 & _).
      destruct Hf2 as ((_ & _ & L2 & S2) & _ & M2 & _).
      cbn in *. repeat split; congruence. }
    destruct E2 as (El & Es & Em).
    pose proof (wf_shift c Hwf) as Hsh. pose proof (wf_linesz c Hwf) as Hls.
    cbn zeta in H.
    assert (Ewb : downstream c2
              (EvDownstream (shl64 (payload victim) (idx_shift c2)) (linesz c2) true)
            = [EvDownstream (shl64 (payload victim) (idx_shift c)) (linesz c) true]).
    { unfold downstream. rewrite Em, El, Es. reflexivity. }
    assert (Efill : downstream
              (if valid victim && dirty victim then count_writeback c2 else c2)
              (EvDownstream
                 (Z.land addr
                    (not64 (wrap64 (linesz (if valid victim && dirty victim
                                            then count_writeback c2 else c2) - 1))))
                 (linesz (if valid victim && dirty victim
                          then count_writeback c2 else c2)) false)
            = [EvDownstream (Z.land addr (not64 (wrap64 (linesz c - 1))))
                            (linesz c) false]).
    { unfold downstream.
      destruct (valid victim && dirty victim); cbn [count_writeback miss_handler linesz];
        rewrite Em, El; reflexivity. }
    rewrite Ewb, Efill in H. clear Ewb Efill.
    assert (Hwbc : line_call (linesz c)
              (EvDownstream (shl64 (payload victim) (idx_shift c)) (linesz c) true)).
    { split; [|reflexivity]. rewrite Hls. apply shl64_aligned. lia. }
    assert (Hfc : line_call (linesz c)
              (EvDownstream (Z.land addr (not64 (wrap64 (linesz c - 1))))
                            (linesz c) false)).
    { split; [|reflexivity]. rewrite Hls. apply fill_aligned. lia. }
    assert (Hlog : Forall (fun e => is_downstream e = false)
              (if log c1 then [EvLogMiss store addr] else [])).
    { destruct (log c1); repeat constructor. }
    assert (Hwbs : Forall (line_call (linesz c))
              (if valid victim && dirty victim
               then [EvDownstream (shl64 (payload victim) (idx_shift c)) (linesz c) true]
               else [])).
    { destruct (valid victim && dirty victim);
        [constructor; [exact Hwbc|constructor]|constructor]. }
    destruct H as [(-> & -> & ->)|(-> & c4 & p & ev3 & Hct2 & -> & ->)].
    + split.
      * repeat (apply Forall_app; split);
          try (apply not_downstream_line_call; assumption);
          try assumption. constructor; [exact Hfc|constructor].
      * exists c2, victim, ev2. split; [exact Hv|].
        rewrite !downstream_calls_app.
        rewrite (not_downstream_calls ev1), (not_downstream_calls ev2),
          (not_downstream_calls _ Hlog) by assumption.
        destruct (valid victim && dirty victim); reflexivity.
    + pose proof (check_tag_spec _ _ _ _ _ _ Hct2) as (_ & _ & _ & _ & _ & _ & _ & Hev3).
      split.
      * repeat (apply Forall_app; split);
          try (apply not_downstream_line_call; assumption);
          try assumption. constructor; [exact Hfc|constructor].
      * exists c2, victim, ev2. split; [exact Hv|].
        rewrite !downstream_calls_app.
        rewrite (not_downstream_calls ev1), (not_downstream_calls ev2),
          (not_downstream_calls ev3), (not_downstream_calls _ Hlog) by assumption.
        destruct (valid victim && dirty victim); reflexivity.
Qed.

Lemma check_tag_fa pc c m addr :
  pol c = FullyAssoc m -> check_tag pc c addr = (c, fa_check_tag c m addr, []).
Proof. intros Hp. unfold check_tag. rewrite Hp. reflexivity. Qed.

Lemma victimize_fa pc c m addr :
  pol c = FullyAssoc m ->
  victimize pc c addr =
  let* (c', v) := fa_victimize c m addr in Ok (c', v, []).
Proof. intros Hp. unfold victimize. rewrite Hp. reflexivity. Qed.

(** C10.  While the map of a fully-associative cache holds fewer than
    [ways] entries, [victimize] returns 0, and a miss neither counts a
    writeback nor stores downstream. *)
Theorem fully_associative_miss_before_full pc c m addr bytes store :
  pol c = FullyAssoc m -> om_size m < ways c -> lookup c addr = None ->
  (exists c1,
     fa_victimize (count_miss store (count_access store bytes c)) m addr
       = Ok (c1, 0)) /\
  exists c' evs,
    access pc c addr bytes store = Ok (c', evs) /\
    writebacks c' = writebacks c /\
    Forall (fun e => is_downstream_store e = false) evs.
Proof.
  intros Hp Hsz Hmiss. unfold lookup in Hmiss. rewrite Hp in Hmiss.
  assert (Hne : (om_size m =? ways c) = false) by (apply Z.eqb_neq; lia).
  assert (Hv : fa_victimize (count_miss store (count_access store bytes c)) m addr
          = Ok (set_pol (FullyAssoc
                           (om_set (line_of c addr) (tag_of c addr) m))
                        (count_miss store (count_access store bytes c)), 0)).
  { unfold fa_victimize. cbn [count_miss count_access ways]. rewrite Hne.
    reflexivity. }
  split; [eauto|].
  unfold access.
  rewrite (check_tag_fa pc _ m) by exact Hp.
  change (fa_check_tag (count_access store bytes c) m addr)
    with (fa_check_tag c m addr).
  rewrite Hmiss. cbv beta iota zeta.
  rewrite (victimize_fa pc _ m) by exact Hp.
  rewrite Hv. cbn [res_bind]. cbv beta iota zeta.
  rewrite valid_dirty_test. change (valid 0 && dirty 0) with false.
  cbv beta iota zeta.
  set (c2 := set_pol _ _).
  assert (Hp2 : pol c2 = FullyAssoc (om_set (line_of c addr) (tag_of c addr) m))
    by reflexivity.
  assert (Hwb : writebacks c2 = writebacks c) by reflexivity.
  assert (Hev : Forall (fun e => is_downstream_store e = false)
            ([] ++ (if log (count_miss store (count_access store bytes c))
                    then [EvLogMiss store addr] else []) ++ [] ++ [] ++
             downstream c2
               (EvDownstream (Z.land addr (not64 (wrap64 (linesz c2 - 1))))
                             (linesz c2) false))).
  { unfold downstream. destruct (log _), (miss_handler c2); repeat constructor. }
  destruct store.
  - rewrite (check_tag_fa pc _ _ _ Hp2).
    assert (Ef : fa_check_tag c2 (om_set (line_of c addr) (tag_of c addr) m) addr
                 = Some (MapSlot (line_of c addr))).
    { unfold fa_check_tag. change (idx_shift c2) with (idx_shift c).
      fold (line_of c addr). rewrite om_find_set_same. reflexivity. }
    rewrite Ef. eexists. eexists. split; [reflexivity|]. split.
    + unfold mark_dirty. rewrite Hp2, om_find_set_same. exact Hwb.
    + rewrite !app_assoc, app_nil_r, <- !app_assoc. exact Hev.
  - eexists. eexists. split; [reflexivity|]. split; [exact Hwb|exact Hev].
Qed.

End claims_downstream.

(* ===================================================================== *)
(** ** Hawkeye: what the two lookups of a store miss do *)
(* ===================================================================== *)

Section hawkeye_lookups.
Context {deps : hawkeye_deps}.
Implicit Types c : cache_sim_t.

Lemma hawkeye_sample_ext pc c c' h addr :
  same_geometry c c' ->
  hawkeye_sample pc c' h addr = hawkeye_sample pc c h addr.
Proof.
  intros (Hs & Hw & _ & Hsh). unfold hawkeye_sample, replace_addr_history_element.
  unfold set_index, tag_of. rewrite Hs, Hw, Hsh. reflexivity.
Qed.

Lemma hawkeye_sample_events pc c h addr :
  trainings (hawkeye_sample pc c h addr).1.2 =
    (if sampled c h addr then 1 else 0)%nat /\
  optgen_accesses (hawkeye_sample pc c h addr).1.2 = 1%nat.
Proof.
  unfold sampled, hawkeye_sample. crack_sample; split; reflexivity.
Qed.

Lemma hawkeye_sample_history_shape pc c h addr :
  exists info hist,
    addr_history (hawkeye_sample pc c h addr).1.1 =
    <[Z.to_nat (wrap32 (set_index c addr)) := om_set (tag_of c addr) info hist]>
      (addr_history h).
Proof. unfold hawkeye_sample. crack_sample; cbn [fst snd addr_history]; eauto. Qed.

Lemma hawkeye_sample_history pc c h addr :
  (Z.to_nat (wrap32 (set_index c addr)) < length (addr_history h))%nat ->
  sampled c (hawkeye_sample pc c h addr).1.1 addr = true.
Proof.
  intros Hlt. unfold sampled.
  destruct (hawkeye_sample_history_shape pc c h addr) as (info & hist & ->).
  rewrite list_lookup_insert_eq by assumption. cbn [default id].
  rewrite om_find_set_same. reflexivity.
Qed.

Lemma hawkeye_sample_timer_of pc c h addr :
  (Z.to_nat (set_index c addr) < length (perset_timer h))%nat ->
  timer_of c (hawkeye_sample pc c h addr).1.1 addr =
  wrap64 (timer_of c h addr + 1) mod TIMER_SIZE.
Proof.
  intros Hlt. unfold timer_of. rewrite hawkeye_sample_timer.
  rewrite list_lookup_insert_eq by assumption. reflexivity.
Qed.

Lemma last_matching_way_miss c addr :
  base_check_tag c addr = None -> last_matching_way c addr = -1.
Proof.
  rewrite base_check_tag_None. intros H. unfold last_matching_way.
  assert (G : forall l, (forall i, In i l -> way_matches c addr i = false) ->
            fold_left (fun way i => if way_matches c addr i then i else way) l (-1) = -1).
  { induction l as [|x l IH]; intros Hl; cbn; [reflexivity|].
    rewrite (Hl x) by (left; reflexivity). apply IH.
    intros i Hi. apply Hl. right. assumption. }
  apply G. intros i Hi. apply H. apply in_seqZ. assumption.
Qed.

(** The Hawkeye lookup: the sampler step, then the grids of the way that
    matches, if one does. *)
Lemma check_tag_hawkeye pc c h addr :
  pol c = Hawkeye h ->
  exists h2,
    check_tag pc c addr =
      (set_pol (Hawkeye h2) c, base_check_tag c addr,
       (hawkeye_sample pc c h addr).1.2) /\
    perset_timer h2 = perset_timer (hawkeye_sample pc c h addr).1.1 /\
    addr_history h2 = addr_history (hawkeye_sample pc c h addr).1.1 /\
    perset_optgen h2 = perset_optgen (hawkeye_sample pc c h addr).1.1 /\
    demand_predictor h2 = demand_predictor (hawkeye_sample pc c h addr).1.1 /\
    (base_check_tag c addr = None -> h2 = (hawkeye_sample pc c h addr).1.1).
Proof.
  intros Hp. unfold check_tag. rewrite Hp. unfold hawkeye_check_tag.
  destruct (hawkeye_sample pc c h addr) as [[h1 ev] np]. cbn [fst snd].
  eexists. split; [reflexivity|].
  destruct (last_matching_way c addr =? -1) eqn:E.
  - repeat split.
  - repeat split. intros Hmiss. apply last_matching_way_miss in Hmiss.
    rewrite Hmiss in E. discriminate.
Qed.

(** Hawkeye replacement leaves the samplers, the timers and the engines
    alone, and trains the predictor at most once. *)
Lemma victimize_hawkeye pc c h addr c2 v evs :
  pol c = Hawkeye h -> victimize pc c addr = Ok (c2, v, evs) ->
  exists h',
    pol c2 = Hawkeye h' /\
    perset_timer h' = perset_timer h /\
    addr_history h' = addr_history h /\
    perset_optgen h' = perset_optgen h /\
    trainings evs =
      match find_max_rrpv c h (set_index c addr) with
      | Some _ => 0%nat
      | None => 1%nat
      end /\
    optgen_accesses evs = 0%nat.
Proof.
  intros Hp. unfold victimize. rewrite Hp. unfold hawkeye_victimize.
  destruct (find_max_rrpv c h (set_index c addr)) as [i|].
  - intros [= <- <- <-]. exists h. repeat split. exact Hp.
  - destruct (_ <? 0); [discriminate|]. intros [= <- <- <-].
    eexists. split; [reflexivity|]. repeat split.
Qed.

(** In the branch that evicts a cache-friendly line, the signature of the
    victim way is overwritten with the current PC before the predictor is
    trained: the counter decremented is the one of the current PC. *)
Lemma hawkeye_victimize_trains_current_pc pc c h addr c' v evs :
  wf c -> pol c = Hawkeye h ->
  find_max_rrpv c h (set_index c addr) = None ->
  hawkeye_victimize pc c h addr = Ok (c', v, evs) ->
  evs = [EvDecrement pc] /\
  exists h',
    pol c' = Hawkeye h' /\
    demand_predictor h' = decrement (demand_predictor h) pc.
Proof.
  intros Hwf Hp Hf. pose proof (wf_pol c Hwf) as Hh. rewrite Hp in Hh.
  destruct Hh as (_ & _ & S1 & S2 & _).
  pose proof (set_index_range c addr Hwf) as Hidx.
  unfold hawkeye_victimize. rewrite Hf.
  destruct (Z.ltb_spec (snd (oldest_friendly c h (set_index c addr))) 0) as [|Hge];
    [discriminate|].
  pose proof (oldest_friendly_range c h _ Hge) as Hr.
  rewrite (grid_at_store_same (Z.to_nat (ways c))) by (try assumption; lia).
  intros [= <- <- <-]. split; [reflexivity|].
  eexists. split; reflexivity.
Qed.

End hawkeye_lookups.

Lemma trainings_app e1 e2 : trainings (e1 ++ e2) = (trainings e1 + trainings e2)%nat.
Proof. unfold trainings. rewrite List.filter_app, length_app. reflexivity. Qed.

Lemma optgen_accesses_app e1 e2 :
  optgen_accesses (e1 ++ e2) = (optgen_accesses e1 + optgen_accesses e2)%nat.
Proof. unfold optgen_accesses. rewrite List.filter_app, length_app. reflexivity. Qed.

Section claims_hawkeye.
Context {deps : hawkeye_deps}.
Implicit Types c : cache_sim_t.

Lemma set_index_ext c c' addr :
  same_geometry c c' -> set_index c' addr = set_index c addr.
Proof. intros (Hs & _ & _ & Hsh). unfold set_index. rewrite Hs, Hsh. reflexivity. Qed.

Lemma tag_of_ext c c' addr :
  same_geometry c c' -> tag_of c' addr = tag_of c addr.
Proof. intros (_ & _ & _ & Hsh). unfold tag_of. rewrite Hsh. reflexivity. Qed.

Lemma sampled_ext c c' h h' addr :
  same_geometry c c' -> addr_history h' = addr_history h ->
  sampled c' h' addr = sampled c h addr.
Proof.
  intros Hg Hh. unfold sampled.
  rewrite (set_index_ext c c'), (tag_of_ext c c'), Hh by assumption. reflexivity.
Qed.

Lemma timer_of_ext c c' h h' addr :
  same_geometry c c' -> perset_timer h' = perset_timer h ->
  timer_of c' h' addr = timer_of c h addr.
Proof.
  intros Hg Hh. unfold timer_of.
  rewrite (set_index_ext c c'), Hh by assumption. reflexivity.
Qed.

Lemma find_max_rrpv_ext c c' h h' addr :
  same_geometry c c' -> rrpv h' = rrpv h ->
  find_max_rrpv c' h' (set_index c' addr) = find_max_rrpv c h (set_index c addr).
Proof.
  intros Hg Hh. unfold find_max_rrpv.
  rewrite (set_index_ext c c'), Hh by assumption.
  destruct Hg as (_ & -> & _). reflexivity.
Qed.

Lemma no_external_calls_counts (evs : list event) :
  Forall (fun e => is_training e = false /\ is_add_access e = false) evs ->
  trainings evs = 0%nat /\ optgen_accesses evs = 0%nat.
Proof.
  unfold trainings, optgen_accesses.
  induction 1 as [|e evs [H1 H2] _ [IH1 IH2]]; cbn; [auto|].
  rewrite H1, H2. auto.
Qed.

Lemma timer_two_steps t :
  0 <= t < TIMER_SIZE ->
  wrap64 (wrap64 (t + 1) mod TIMER_SIZE + 1) mod TIMER_SIZE =
  (t + 2) mod TIMER_SIZE.
Proof.
  intros Ht. pose proof TIMER_SIZE_range as HT.
  assert (H32 : 2 ^ 32 < 2 ^ 64) by (apply Z.pow_lt_mono_r; lia).
  rewrite (wrap64_small (t + 1)) by (unfold uint64; lia).
  assert (Hpos : 0 < TIMER_SIZE) by lia.
  pose proof (Z.mod_pos_bound (t + 1) TIMER_SIZE Hpos) as Hm.
  rewrite wrap64_small by (unfold uint64; lia).
  rewrite Z.add_mod_idemp_l by lia. f_equal. lia.
Qed.

(** C9, as the code has it.  A store that misses in a Hawkeye cache runs
    the lookup twice: the timer of the set advances by two, two OPTgen
    accesses are recorded, and the predictor is trained once by the second
    lookup, once more by the first lookup when the sampler of the set held
    the line already, and once more by the replacement when no way of the
    set has the maximal RRPV. *)
Theorem hawkeye_store_miss_looks_up_twice pc c h addr bytes c' evs :
  wf c -> no_duplicate_tags c -> uint64 addr ->
  pol c = Hawkeye h -> lookup c addr = None ->
  access pc c addr bytes true = Ok (c', evs) ->
  exists h',
    pol c' = Hawkeye h' /\
    timer_of c h' addr = (timer_of c h addr + 2) mod TIMER_SIZE /\
    optgen_accesses evs = 2%nat /\
    trainings evs =
      ((if sampled c h addr then 1 else 0) +
       match find_max_rrpv c h (set_index c addr) with
       | Some _ => 0
       | None => 1
       end + 1)%nat.
Proof.
  intros Hwf Hnd Ha Hp Hmiss H.
  pose proof (wf_pol c Hwf) as Hh. rewrite Hp in Hh.
  destruct Hh as (_ & _ & _ & _ & _ & T1 & T2 & A1).
  pose proof (set_index_range c addr Hwf) as Hidx.
  apply access_Ok_inv in H as (c1 & r & ev1 & Hct & H).
  set (c0 := count_access true bytes c) in *.
  assert (G0 : same_geometry c c0) by (repeat split).
  assert (Hp0 : pol c0 = Hawkeye h) by exact Hp.
  assert (Hm0 : base_check_tag c0 addr = None).
  { unfold lookup in Hmiss. rewrite Hp in Hmiss.
    rewrite (base_check_tag_ext c c0); [assumption|assumption|reflexivity]. }
  destruct (check_tag_hawkeye pc c0 h addr Hp0)
    as (h1 & Hct' & Ht1 & Hh1 & _ & _ & Hh1').
  rewrite Hct' in Hct. injection Hct as <- <- <-.
  specialize (Hh1' Hm0). rewrite (hawkeye_sample_ext pc c c0) in * by assumption.
  rewrite Hm0 in H.
  destruct H as [(p & Hp' & _)|(_ & c2 & victim & ev2 & Hv & H)]; [discriminate|].
  set (cm := count_miss true (set_pol (Hawkeye h1) c0)) in *.
  assert (Gm : same_geometry c cm) by (repeat split).
  assert (Hpm : pol cm = Hawkeye h1) by reflexivity.
  destruct (victimize_hawkeye pc cm h1 addr c2 victim ev2 Hpm Hv)
    as (hv & Hp2 & Tv & Av & _ & Trv & Ogv).
  assert (G2 : same_geometry c c2).
  { unfold victimize in Hv. rewrite Hpm in Hv.
    apply hawkeye_victimize_spec in Hv as (_ & Hf & _); [| |exact Hpm].
    - eapply same_geometry_trans; [exact Gm|apply Hf].
    - eapply wf_ext with (c := set_pol (Hawkeye h1) c0); try reflexivity; [repeat split|].
      pose proof (check_tag_spec pc c0 addr _ _ _ Hct') as (_ & _ & _ & _ & _ & _ & W & _).
      apply W. eapply wf_ext; [exact G0|reflexivity|reflexivity|exact Hwf]. }
  rewrite (find_max_rrpv_ext c cm h h1) in Trv;
    [|assumption|rewrite Hh1'; apply hawkeye_sample_grids].
  cbn zeta in H.
  set (c3 := if valid victim && dirty victim then count_writeback c2 else c2) in *.
  assert (E3 : same_geometry c2 c3 /\ pol c3 = pol c2 /\ miss_handler c3 = miss_handler c2)
    by (subst c3; destruct (valid victim && dirty victim); repeat split).
  destruct E3 as (G23 & P3 & M3).
  assert (G3 : same_geometry c c3) by (eapply same_geometry_trans; eassumption).
  rewrite Hp2 in P3.
  destruct H as [(Hst & _)|(_ & c4 & p & ev3 & Hct2 & -> & ->)]; [discriminate|].
  destruct (check_tag_hawkeye pc c3 hv addr P3)
    as (h4 & Hct4 & Ht4 & _ & _ & _ & _).
  rewrite Hct4 in Hct2. injection Hct2 as <- Hp4 <-.
  apply base_check_tag_Some in Hp4 as (i & _ & _ & ->).
  exists h4. split; [reflexivity|].
  assert (Hlt : (Z.to_nat (set_index c addr) < length (perset_timer h))%nat)
    by (rewrite T1; lia).
  assert (Hlt32 : (Z.to_nat (wrap32 (set_index c addr)) < length (addr_history h))%nat).
  { rewrite A1. unfold wrap32.
    assert (H32 : 0 < 2 ^ 32) by lia.
    pose proof (Z.mod_pos_bound (set_index c addr) (2 ^ 32) H32).
    pose proof (Z.mod_le (set_index c addr) (2 ^ 32) (proj1 Hidx) H32). lia. }
  assert (Ht : 0 <= timer_of c h addr < TIMER_SIZE).
  { unfold timer_of. destruct (perset_timer h !! _) as [t|] eqn:E.
    - rewrite Forall_lookup in T2. apply (T2 _ _ E).
    - apply lookup_ge_None in E. lia. }
  assert (Q : forall l : list event,
            Forall (fun e => is_training e = false /\ is_add_access e = false) l ->
            trainings l = 0%nat /\ optgen_accesses l = 0%nat)
    by apply no_external_calls_counts.
  destruct (Q (if log (set_pol (Hawkeye h1) c0) then [EvLogMiss true addr] else []))
    as [Q1 Q1']; [destruct (log _); repeat constructor|].
  destruct (Q (if valid victim && dirty victim
               then downstream c2
                      (EvDownstream (shl64 (payload victim) (idx_shift c2))
                                    (linesz c2) true)
               else [])) as [Q2 Q2'].
  { destruct (valid victim && dirty victim); [|constructor].
    unfold downstream. destruct (miss_handler c2); repeat constructor. }
  destruct (Q (downstream c3
                 (EvDownstream (Z.land addr (not64 (wrap64 (linesz c3 - 1))))
                               (linesz c3) false))) as [Q3 Q3'].
  { unfold downstream. destruct (miss_handler c3); repeat constructor. }
  split; [|split].
  - unfold timer_of at 1. rewrite Ht4, <- (set_index_ext c c3) by assumption.
    fold (timer_of c3 (hawkeye_sample pc c3 hv addr).1.1 addr).
    rewrite hawkeye_sample_timer_of;
      [|rewrite Tv, Hh1', (set_index_ext c c3), hawkeye_sample_timer, length_insert
          by assumption; assumption].
    rewrite (timer_of_ext c c3 h1 hv) by assumption.
    rewrite Hh1', hawkeye_sample_timer_of by assumption.
    apply timer_two_steps. assumption.
  - rewrite !optgen_accesses_app.
    rewrite (proj2 (hawkeye_sample_events pc c h addr)).
    rewrite (proj2 (hawkeye_sample_events pc c3 hv addr)), Ogv.
    rewrite Q1', Q2', Q3'. reflexivity.
  - rewrite !trainings_app, Q1, Q2, Q3.
    rewrite (proj1 (hawkeye_sample_events pc c h addr)).
    rewrite (proj1 (hawkeye_sample_events pc c3 hv addr)), Trv.
    rewrite (sampled_ext c c3 h1 hv) by assumption.
    rewrite Hh1', hawkeye_sample_history by assumption.
    lia.
Qed.

End claims_hawkeye.

(* ===================================================================== *)
(** ** The copy constructor *)
(* ===================================================================== *)

Lemma new_block_fresh (h : heap) : h !! new_block h = None.
Proof. apply not_elem_of_dom. unfold new_block. apply is_fresh. Qed.

(** The copy of the tag array is a block of its own, with the words of
    the source; a store through either pointer is not seen through the
    other. *)
Lemma copy_tags_deep h p n h' q :
  copy_tags h p n = Ok (h', q) ->
  q <> p /\
  (forall i, (i < n)%nat -> heap_load h' q i = heap_load h p i) /\
  (forall i v j, heap_load (heap_store h' q i v) p j = heap_load h p j) /\
  (forall i v j, heap_load (heap_store h' p i v) q j = heap_load h' q j).
Proof.
  unfold copy_tags. destruct (h !! p) as [src|] eqn:Hp; [|discriminate].
  destruct (decide (n <= length src)%nat) as [Hn|]; [|discriminate].
  intros [= <- <-]. pose proof (new_block_fresh h) as Hf.
  assert (Hne : new_block h <> p) by congruence.
  split; [assumption|]. unfold heap_load, heap_store, heap in *.
  split; [|split].
  - intros i Hi. rewrite lookup_insert_eq, Hp. apply lookup_take_lt. assumption.
  - intros i v j. rewrite lookup_alter_ne by assumption.
    rewrite lookup_insert_ne by assumption. reflexivity.
  - intros i v j. rewrite lookup_alter_ne by congruence. reflexivity.
Qed.

Section claims_copy.
Context {deps : hawkeye_deps}.

(** C2, as the code has it.  The copy constructor copies the geometry and
    the tag array, gives the copy a default-constructed LFSR, and does not
    initialise the seven counters or [miss_handler]: they hold what the
    storage of the new object held. *)
Theorem copy_constructor_leaves_counters_uninitialised junk junk_handler rhs :
  stats (copy_construct junk junk_handler rhs) = junk /\
  miss_handler (copy_construct junk junk_handler rhs) = junk_handler /\
  lfsr (copy_construct junk junk_handler rhs) = lfsr_new /\
  (length (tags rhs) = Z.to_nat (wrap64 (sets rhs * ways rhs)) ->
   tags (copy_construct junk junk_handler rhs) = tags rhs).
Proof.
  destruct junk. repeat split. intros H. cbn [copy_construct tags].
  rewrite <- H. apply firstn_all.
Qed.

End claims_copy.

(* ===================================================================== *)
(** ** Concrete runs *)
(* ===================================================================== *)

Lemma random_2_2_64_new : cache_sim_new 2 2 64 "D$" = Ok random_2_2_64.
Proof. reflexivity. Qed.

Lemma fa_1_8_64_new : fa_cache_sim_new 8 64 "D$" = Ok fa_1_8_64.
Proof. reflexivity. Qed.

Lemma hawkeye_1_4_64_new : hawkeye_cache_sim_new 1 4 64 "D$" = Ok hawkeye_1_4_64.
Proof. reflexivity. Qed.

Lemma ok_state_events (r : res (cache_sim_t * list event)) d :
  is_ok r = true -> r = Ok (state_of r d, events_of r).
Proof. destruct r as [[c evs]|]; [reflexivity|discriminate]. Qed.

Lemma uint64_small x : 0 <= x < 2 ^ 32 -> uint64 x.
Proof. unfold uint64. lia. Qed.

Lemma random_2_2_64_constructed : constructed random_2_2_64.
Proof.
  exists 2, 2, 64, "D$"%string. repeat split; try lia.
  left. exact random_2_2_64_new.
Qed.

Lemma fa_1_8_64_constructed : constructed fa_1_8_64.
Proof.
  exists 1, 8, 64, "D$"%string. repeat split; try lia.
  right. left. split; [reflexivity|]. exact fa_1_8_64_new.
Qed.

Lemma hawkeye_1_4_64_constructed : constructed hawkeye_1_4_64.
Proof.
  exists 1, 4, 64, "D$"%string. repeat split; try lia.
  right. right. right. exact hawkeye_1_4_64_new.
Qed.

(** C1, as the code has it.  After [warm_up] no way of the set has the
    maximal RRPV and way 3, the one evicted next, carries the signature
    100.  The miss of the instruction at 200 decrements the counter of 200
    and leaves the counter of 100 as it was. *)
Theorem hawkeye_eviction_trains_the_evicting_pc :
  find_max_rrpv warmed_up (hawkeye_of warmed_up) 0 = None /\
  snd (oldest_friendly warmed_up (hawkeye_of warmed_up) 0) = 3 /\
  grid_at (signatures (hawkeye_of warmed_up)) 0 3 = 100 /\
  model_counter (demand_predictor (hawkeye_of warmed_up)) 100 = 7 /\
  events_of (access 200 warmed_up 256 8 false)
    = [EvAddAccess 0 11; EvDecrement 200] /\
  model_counter
    (demand_predictor
       (hawkeye_of (state_of (access 200 warmed_up 256 8 false) warmed_up)))
    100 = 7.
Proof. vm_compute. repeat split. Qed.

(** C9, as stated, fails: the first store to a new Hawkeye cache misses
    and trains the predictor once, not twice. *)
Lemma hawkeye_first_store_trains_once :
  lookup hawkeye_1_4_64 0 = None /\
  write_misses (state_of (access 0 hawkeye_1_4_64 0 8 true) hawkeye_1_4_64) = 1 /\
  trainings (events_of (access 0 hawkeye_1_4_64 0 8 true)) = 1%nat /\
  trainings (events_of (access 0 hawkeye_1_4_64 0 8 true)) <> 2%nat.
Proof. vm_compute. repeat split. discriminate. Qed.

(* ===================================================================== *)
(** ** The theorems at concrete inputs *)
(* ===================================================================== *)

Lemma read_write_read_typed : well_typed read_write_read.
Proof. repeat constructor; cbn; lia. Qed.

Lemma set_miss_handler_inv (c : cache_sim_t) mh :
  wf c -> no_duplicate_tags c ->
  wf (set_miss_handler mh c) /\ no_duplicate_tags (set_miss_handler mh c).
Proof.
  intros Hwf Hnd. split.
  - eapply wf_ext; [| | |exact Hwf]; repeat split.
  - eapply no_duplicate_tags_ext; [| | |exact Hnd]; repeat split.
Qed.

Lemma linear_2_2_64_constructed : constructed linear_2_2_64.
Proof.
  exists 2, 2, 64, "D$"%string. repeat split; try lia.
  right. right. left. reflexivity.
Qed.

Lemma wired_linear_2_2_64_configured : configured wired_linear_2_2_64.
Proof.
  exists linear_2_2_64, (Some 1%nat), true.
  split; [exact linear_2_2_64_constructed|reflexivity].
Qed.

Lemma fill_a_set_typed : well_typed fill_a_set.
Proof. repeat constructor; cbn; lia. Qed.

(* After [fill_a_set] both ways of set 0 are valid, way 1 dirty. *)
Lemma no_two_valid_ways_share_a_tag_witness :
  configured wired_linear_2_2_64 /\ well_typed fill_a_set /\
  (exists ck evk,
     run wired_linear_2_2_64 (take 3 fill_a_set) = Ok (ck, evk) /\
     no_duplicate_tags ck) /\
  valid (way_tag (state_of (run wired_linear_2_2_64 (take 3 fill_a_set))
                    wired_linear_2_2_64) 0 0) = true /\
  valid (way_tag (state_of (run wired_linear_2_2_64 (take 3 fill_a_set))
                    wired_linear_2_2_64) 0 1) = true /\
  dirty (way_tag (state_of (run wired_linear_2_2_64 (take 3 fill_a_set))
                    wired_linear_2_2_64) 0 1) = true.
Proof.
  split; [exact wired_linear_2_2_64_configured|].
  split; [exact fill_a_set_typed|].
  split; [|vm_compute; repeat split].
  apply (no_two_valid_ways_share_a_tag wired_linear_2_2_64 fill_a_set
           (state_of (run wired_linear_2_2_64 fill_a_set) wired_linear_2_2_64)
           (events_of (run wired_linear_2_2_64 fill_a_set)) 3).
  - exact wired_linear_2_2_64_configured.
  - exact fill_a_set_typed.
  - apply ok_state_events. vm_compute. reflexivity.
Defined.

Lemma second_access_to_a_line_hits_witness :
  exists p c2 ev2,
    (check_tag 0 (count_access true 4
        (state_of (access 0 random_2_2_64 0 8 false) random_2_2_64)) 4).1.2
      = Some p /\
    access 0 (state_of (access 0 random_2_2_64 0 8 false) random_2_2_64) 4 4 true
      = Ok (c2, ev2) /\
    read_misses c2 =
      read_misses (state_of (access 0 random_2_2_64 0 8 false) random_2_2_64) /\
    write_misses c2 =
      write_misses (state_of (access 0 random_2_2_64 0 8 false) random_2_2_64).
Proof.
  apply (second_access_to_a_line_hits 0 0 random_2_2_64 0 8 false 4 4 true
           (state_of (access 0 random_2_2_64 0 8 false) random_2_2_64)
           (events_of (access 0 random_2_2_64 0 8 false))).
  - exact (proj1 (constructed_inv _ random_2_2_64_constructed)).
  - exact (proj2 (constructed_inv _ random_2_2_64_constructed)).
  - unfold uint64. lia.
  - apply ok_state_events. vm_compute. reflexivity.
  - vm_compute. reflexivity.
Defined.

Lemma downstream_calls_are_line_fills_and_writebacks_witness :
  Forall (line_call (linesz (set_miss_handler (Some 1%nat) random_2_2_64)))
    (events_of (access 0 (set_miss_handler (Some 1%nat) random_2_2_64) 0 8 false)) /\
  match lookup (set_miss_handler (Some 1%nat) random_2_2_64) 0 with
  | Some _ =>
      downstream_calls
        (events_of (access 0 (set_miss_handler (Some 1%nat) random_2_2_64) 0 8 false))
        = []
  | None =>
      exists c2 victim ev2,
        victimize 0
          (count_miss false
             (check_tag 0
                (count_access false 8 (set_miss_handler (Some 1%nat) random_2_2_64))
                0).1.1)
          0 = Ok (c2, victim, ev2) /\
        downstream_calls
          (events_of (access 0 (set_miss_handler (Some 1%nat) random_2_2_64) 0 8 false))
          = (if valid victim && dirty victim
             then [EvDownstream
                     (shl64 (payload victim)
                        (idx_shift (set_miss_handler (Some 1%nat) random_2_2_64)))
                     (linesz (set_miss_handler (Some 1%nat) random_2_2_64)) true]
             else []) ++
            [EvDownstream
               (Z.land 0
                  (not64 (wrap64
                     (linesz (set_miss_handler (Some 1%nat) random_2_2_64) - 1))))
               (linesz (set_miss_handler (Some 1%nat) random_2_2_64)) false]
  end.
Proof.
  apply (downstream_calls_are_line_fills_and_writebacks 0
           (set_miss_handler (Some 1%nat) random_2_2_64) 0 8 false
           (state_of (access 0 (set_miss_handler (Some 1%nat) random_2_2_64) 0 8 false)
                     random_2_2_64)).
  - apply set_miss_handler_inv; apply constructed_inv; exact random_2_2_64_constructed.
  - apply set_miss_handler_inv; apply constructed_inv; exact random_2_2_64_constructed.
  - unfold uint64. lia.
  - exists 1%nat. reflexivity.
  - apply ok_state_events. vm_compute. reflexivity.
Defined.

Lemma construct_policy_precedence_witness :
  config_text "2" "2" "64" (Some "linear"%string) = "2:2:64:linear"%string /\
  construct "2:2:64:linear" "D$" = Ok linear_2_2_64 /\
  exists ns nw,
    atoi "2" = Ok ns /\ atoi "2" = Ok nw /\
    sets linear_2_2_64 = wrap64 ns /\ ways linear_2_2_64 = wrap64 nw /\
    kind_of (pol linear_2_2_64)
      = spec_policy (Some "linear"%string) (sets linear_2_2_64)
          (ways linear_2_2_64).
Proof.
  split; [reflexivity|]. split; [reflexivity|].
  apply (construct_policy_precedence "2" "2" "64" (Some "linear"%string) "D$"
           linear_2_2_64); reflexivity.
Defined.

Lemma zero_ways_reach_modulo_by_zero_witness :
  cache_sim_new 2 0 64 "D$" = Ok (fresh_cache 2 0 64 6 "D$" Random) /\
  (forall w n p, is_ok (init 2 w 64 n p) = true) /\
  ways (fresh_cache 2 0 64 6 "D$" Random) = 0 /\
  forall pc addr bytes store,
    base_victimize
      (count_miss store (count_access store bytes (fresh_cache 2 0 64 6 "D$" Random)))
      addr = Err Undefined /\
    access pc (fresh_cache 2 0 64 6 "D$" Random) addr bytes store = Err Undefined.
Proof.
  split; [reflexivity|].
  apply (zero_ways_reach_modulo_by_zero 2 64 "D$" (fresh_cache 2 0 64 6 "D$" Random)).
  reflexivity.
Defined.

Lemma fully_associative_miss_before_full_witness :
  (exists c1,
     fa_victimize (count_miss true (count_access true 8 fa_1_8_64)) [] 0
       = Ok (c1, 0)) /\
  exists c' evs,
    access 0 fa_1_8_64 0 8 true = Ok (c', evs) /\
    writebacks c' = writebacks fa_1_8_64 /\
    Forall (fun e => is_downstream_store e = false) evs.
Proof.
  apply (fully_associative_miss_before_full 0 fa_1_8_64 [] 0 8 true).
  - reflexivity.
  - vm_compute. reflexivity.
  - reflexivity.
Defined.

Lemma hawkeye_store_miss_looks_up_twice_witness :
  exists h',
    pol (state_of (access 0 hawkeye_1_4_64 0 8 true) hawkeye_1_4_64) = Hawkeye h' /\
    timer_of hawkeye_1_4_64 h' 0 =
      (timer_of hawkeye_1_4_64 (hawkeye_new_state 1 4) 0 + 2) mod TIMER_SIZE /\
    optgen_accesses (events_of (access 0 hawkeye_1_4_64 0 8 true)) = 2%nat /\
    trainings (events_of (access 0 hawkeye_1_4_64 0 8 true)) =
      ((if sampled hawkeye_1_4_64 (hawkeye_new_state 1 4) 0 then 1 else 0) +
       match find_max_rrpv hawkeye_1_4_64 (hawkeye_new_state 1 4)
               (set_index hawkeye_1_4_64 0) with
       | Some _ => 0
       | None => 1
       end + 1)%nat.
Proof.
  apply (hawkeye_store_miss_looks_up_twice 0 hawkeye_1_4_64
           (hawkeye_new_state 1 4) 0 8
           (state_of (access 0 hawkeye_1_4_64 0 8 true) hawkeye_1_4_64)
           (events_of (access 0 hawkeye_1_4_64 0 8 true))).
  - exact (proj1 (constructed_inv _ hawkeye_1_4_64_constructed)).
  - exact (proj2 (constructed_inv _ hawkeye_1_4_64_constructed)).
  - unfold uint64. lia.
  - reflexivity.
  - reflexivity.
  - apply ok_state_events. vm_compute. reflexivity.
Defined.

(* ===================================================================== *)
(** ** Lookup and replacement on the tag array *)
(* ===================================================================== *)

Section lookup_and_replacement.
Context {deps : hawkeye_deps}.
Implicit Types c : cache_sim_t.

(** X1.  [cache_sim_t::check_tag] returns a pointer exactly when a way of
    the indexed set is valid and holds the line number of the address,
    whatever the DIRTY bit of that way; the pointer is to such a way. *)
Theorem check_tag_finds_the_valid_way_of_the_line c addr :
  wf c -> uint64 addr ->
  (is_Some (base_check_tag c addr) <->
   exists i, 0 <= i < ways c /\
     valid (way_tag c (set_index c addr) i) = true /\
     payload (way_tag c (set_index c addr) i) = line_of c addr) /\
  (forall p, base_check_tag c addr = Some p ->
     valid (slot_word c p) = true /\ payload (slot_word c p) = line_of c addr).
Proof.
  intros Hwf Ha. split; [split|].
  - intros [p Hp]. apply base_check_tag_Some in Hp as (i & Hi & Hm & _).
    exists i. split; [assumption|]. apply way_matches_spec; assumption.
  - intros (i & Hi & Hv & Hp). apply (base_check_tag_hit c addr i Hi).
    apply way_matches_spec; auto.
  - intros p Hp. apply base_check_tag_Some in Hp as (i & Hi & Hm & ->).
    apply way_matches_spec in Hm; assumption.
Qed.

Lemma last_matching_way_cases c addr l acc :
  (fold_left (fun way i => if way_matches c addr i then i else way) l acc = acc /\
   forall i, In i l -> way_matches c addr i = false) \/
  (In (fold_left (fun way i => if way_matches c addr i then i else way) l acc) l /\
   way_matches c addr
     (fold_left (fun way i => if way_matches c addr i then i else way) l acc) = true).
Proof.
  revert acc. induction l as [|x l IH]; intros acc; cbn [fold_left].
  - left. split; [reflexivity|]. intros i [].
  - destruct (way_matches c addr x) eqn:Ex.
    + destruct (IH x) as [[E Hn]|[Hin Hm]].
      * right. rewrite E. split; [left; reflexivity|assumption].
      * right. split; [right; assumption|assumption].
    + destruct (IH acc) as [[E Hn]|[Hin Hm]].
      * left. split; [assumption|]. intros i [<-|Hi]; auto.
      * right. split; [right; assumption|assumption].
Qed.

(** X2.  [hawkeye_cache_sim_t::check_tag] updates the signature and the
    RRPV of the last way that matches and returns the pointer of the base
    class, which is to the first way that matches.  Two valid ways of a set
    never hold the same payload, so the two are the same way. *)
Theorem hawkeye_updates_the_way_it_returns c addr p :
  wf c -> no_duplicate_tags c -> uint64 addr ->
  base_check_tag c addr = Some p ->
  0 <= last_matching_way c addr < ways c /\
  p = ArraySlot (set_index c addr * ways c + last_matching_way c addr).
Proof.
  intros Hwf [Hd _] Ha Hp.
  apply base_check_tag_Some in Hp as (i & Hi & Hm & ->).
  unfold last_matching_way.
  destruct (last_matching_way_cases c addr (seqZ 0 (ways c)) (-1))
    as [[_ Hn]|[Hin Hl]].
  - rewrite Hn in Hm by (apply in_seqZ; assumption). discriminate.
  - apply in_seqZ in Hin. split; [assumption|].
    set (j := fold_left _ _ _) in *.
    destruct (Z.eq_dec i j) as [->|Hne]; [reflexivity|exfalso].
    apply way_matches_spec in Hm as [Hv1 Hp1]; try assumption.
    apply way_matches_spec in Hl as [Hv2 Hp2]; try assumption.
    refine (Hd (set_index c addr) i j _ Hi Hin Hne Hv1 Hv2 _).
    + apply set_index_range. assumption.
    + congruence.
Qed.

Lemma installs_one_word c c' addr v :
  wf c -> same_geometry c c' -> installs c c' addr v ->
  exists w, 0 <= w < ways c /\
    v = way_tag c (set_index c addr) w /\
    way_tag c' (set_index c addr) w = tag_of c addr /\
    same_ways_except c c' (set_index c addr) w.
Proof.
  intros Hwf (Hs & Hw & _) (w & Hr & Ht & Hv).
  pose proof (set_index_range c addr Hwf) as Hidx.
  pose proof (slot_index_range c _ _ Hwf Hidx Hr) as Hrange.
  exists w. split; [assumption|]. split; [assumption|]. split.
  - unfold way_tag. rewrite Hw, Ht. apply tag_at_store_same. assumption.
  - intros s i Hs' Hi Hne. unfold way_tag. rewrite Hw, Ht.
    apply tag_at_store_other; [nia|nia|].
    intros E. apply slot_index_inj in E as [? ?]; [|lia|lia].
    apply Hne. congruence.
Qed.

(** X3.  On a random, linear or Hawkeye cache [victimize] writes the tag
    of the address, valid and clean, into one way of the indexed set,
    returns the word that way held, and changes no other word of the tag
    array. *)
Theorem victimize_replaces_one_way pc c addr c' v evs :
  wf c -> kind_of (pol c) <> KFullyAssoc ->
  victimize pc c addr = Ok (c', v, evs) ->
  exists w, 0 <= w < ways c /\
    v = way_tag c (set_index c addr) w /\
    way_tag c' (set_index c addr) w = tag_of c addr /\
    same_ways_except c c' (set_index c addr) w.
Proof.
  intros Hwf Hk. unfold victimize. destruct (pol c) as [|m|ec|h] eqn:Hp.
  - destruct (base_victimize c addr) as [[c2 v2]|] eqn:E; [|discriminate].
    cbn [res_bind]. intros [= <- <- <-].
    apply base_victimize_spec in E as (Hi & Hf & _); [|assumption].
    apply installs_one_word; [assumption|apply Hf|assumption].
  - cbn in Hk. congruence.
  - destruct (linear_victimize c ec addr) as [[c2 v2]|] eqn:E; [|discriminate].
    cbn [res_bind]. intros [= <- <- <-].
    apply linear_victimize_spec in E as (Hi & Hf & _); auto.
    apply installs_one_word; [assumption|apply Hf|assumption].
  - intros E. apply hawkeye_victimize_spec in E as (Hi & Hf & _); auto.
    apply installs_one_word; [assumption|apply Hf|assumption].
Qed.

(** X4.  The map of a fully-associative cache never holds more than
    [ways] entries; its keys ascend, and every entry is a valid word filed
    under its own payload. *)
Theorem fully_associative_map_stays_within_ways c0 reqs c evs m :
  constructed c0 -> well_typed reqs -> run c0 reqs = Ok (c, evs) ->
  pol c = FullyAssoc m ->
  om_size m <= ways c /\ om_sorted_from (-1) m /\
  Forall (fun e : Z * Z => valid (snd e) = true /\ payload (snd e) = fst e) m.
Proof.
  intros Hc Hty Hrun Hp. apply constructed_inv in Hc as [Hwf Hnd].
  destruct (run_inv _ _ _ _ Hwf Hnd Hty Hrun) as (Hwf' & _).
  pose proof (wf_pol c Hwf') as H. rewrite Hp in H.
  destruct H as (H1 & H2 & H3). auto.
Qed.

End lookup_and_replacement.

(* ===================================================================== *)
(** ** The LFSR *)
(* ===================================================================== *)

Lemma lxor_below a b n :
  0 <= n -> 0 <= a < 2 ^ n -> 0 <= b < 2 ^ n -> 0 <= Z.lxor a b < 2 ^ n.
Proof.
  intros Hn Ha Hb.
  assert (H0 : 0 <= Z.lxor a b) by (apply Z.lxor_nonneg; lia).
  split; [assumption|].
  apply Z.bounded_iff_bits_nonneg; [assumption|assumption|].
  intros l Hl. rewrite Z.lxor_spec.
  rewrite (testbit_small a n l), (testbit_small b n l) by assumption.
  reflexivity.
Qed.

(** X5.  [lfsr_t::next] keeps the register a non-zero 32-bit value: the
    generator never locks up at 0, and the value it returns is the new
    register. *)
Theorem lfsr_next_stays_nonzero l :
  0 < reg l < 2 ^ 32 ->
  0 < reg (lfsr_next l).1 < 2 ^ 32 /\ (lfsr_next l).2 = reg (lfsr_next l).1.
Proof.
  intros Hr. split; [|reflexivity]. cbn [lfsr_next fst reg].
  assert (Hh : 0 <= Z.shiftr (reg l) 1 < 2 ^ 31).
  { rewrite Z.shiftr_div_pow2 by lia. change (2 ^ 1) with 2.
    split; [apply Z.div_pos; lia|]. apply Z.div_lt_upper_bound; lia. }
  assert (Hb : Z.land (reg l) 1 = reg l mod 2).
  { change 1 with (Z.ones 1). rewrite Z.land_ones by lia. reflexivity. }
  rewrite Hb.
  assert (Hm : reg l mod 2 = 0 \/ reg l mod 2 = 1).
  { pose proof (Z.mod_pos_bound (reg l) 2). lia. }
  destruct Hm as [E|E]; rewrite E.
  - change (Z.land (wrap32 (- 0)) 3489660929) with 0. rewrite Z.lxor_0_r.
    split; [|lia].
    rewrite Z.shiftr_div_pow2 by lia. change (2 ^ 1) with 2.
    pose proof (Z.div_mod (reg l) 2). lia.
  - change (Z.land (wrap32 (- (1))) 3489660929) with 3489660929.
    assert (Hx : 0 <= Z.lxor (Z.shiftr (reg l) 1) 3489660929 < 2 ^ 32).
    { apply lxor_below; lia. }
    split; [|lia].
    assert (Hbit : Z.testbit (Z.lxor (Z.shiftr (reg l) 1) 3489660929) 31 = true).
    { rewrite Z.lxor_spec, (testbit_small _ 31 31) by lia. reflexivity. }
    destruct (Z.eq_dec (Z.lxor (Z.shiftr (reg l) 1) 3489660929) 0) as [E0|]; [|lia].
    rewrite E0, Z.bits_0 in Hbit. discriminate.
Qed.

(* ===================================================================== *)
(** ** Tags and addresses *)
(* ===================================================================== *)

Lemma find_ext_in {A} (f g : A -> bool) (l : list A) :
  (forall x, In x l -> f x = g x) -> List.find f l = List.find g l.
Proof.
  induction l as [|a l IH]; intros H; cbn; [reflexivity|].
  rewrite (H a) by (left; reflexivity). destruct (g a); [reflexivity|].
  apply IH. intros x Hx. apply H. right. assumption.
Qed.

Section tags_and_addresses.
Context {deps : hawkeye_deps}.
Implicit Types c : cache_sim_t.

Lemma shift_round_trip addr k :
  uint64 addr -> 0 <= k < 64 ->
  shl64 (Z.shiftr addr k) k = Z.land addr (not64 (wrap64 (2 ^ k - 1))).
Proof.
  intros Ha Hk.
  assert (H2 : 2 ^ k < 2 ^ 64) by (apply Z.pow_lt_mono_r; lia).
  assert (H1 : 0 < 2 ^ k) by (apply Z.pow_pos_nonneg; lia).
  rewrite (wrap64_small (2 ^ k - 1)) by (unfold uint64; lia).
  rewrite pow2_pred_ones by lia. unfold shl64, wrap64.
  apply Z.bits_inj'. intros n Hn.
  rewrite Z.testbit_mod_pow2, Z.land_spec, testbit_not64 by lia.
  rewrite Z.testbit_ones_nonneg by lia.
  rewrite Z.shiftl_spec by assumption.
  destruct (Z.ltb_spec n 64) as [H64|H64].
  - destruct (Z.ltb_spec n k) as [Hlt|Hge].
    + rewrite Z.testbit_neg_r by lia. cbn. rewrite andb_false_r. reflexivity.
    + rewrite Z.shiftr_spec by lia. replace (n - k + k) with n by lia.
      cbn. rewrite andb_true_r. reflexivity.
  - cbn. rewrite (testbit_small addr 64 n) by (unfold uint64 in Ha; lia).
    reflexivity.
Qed.

(** X6.  The address of a writeback is the line of the address the victim
    was installed for: the tag word [victimize] stores for [addr], with or
    without the DIRTY bit, turns back into [addr & ~(linesz-1)]. *)
Theorem writeback_address_is_the_line_filled c addr :
  wf c -> uint64 addr ->
  shl64 (payload (tag_of c addr)) (idx_shift c)
    = Z.land addr (not64 (wrap64 (linesz c - 1))) /\
  shl64 (payload (Z.lor (tag_of c addr) DIRTY)) (idx_shift c)
    = Z.land addr (not64 (wrap64 (linesz c - 1))).
Proof.
  intros Hwf Ha. pose proof (line_of_range c addr Hwf Ha) as Hp.
  pose proof (wf_shift c Hwf) as Hsh.
  rewrite payload_mark_dirty, tag_of_line, payload_install by lia.
  rewrite (wf_linesz c Hwf). unfold line_of.
  rewrite shift_round_trip by (try assumption; lia). auto.
Qed.

Lemma mark_dirty_word c addr p :
  wf c -> uint64 addr -> lookup c addr = Some p ->
  lookup (mark_dirty p c) addr = Some p /\
  slot_word (mark_dirty p c) p = Z.lor (slot_word c p) DIRTY /\
  valid (slot_word c p) = true /\ payload (slot_word c p) = line_of c addr.
Proof.
  intros Hwf Ha. unfold lookup. destruct (pol c) as [|m|ec|h] eqn:Hp.
  2: { unfold fa_check_tag. fold (line_of c addr).
       destruct (om_find (line_of c addr) m) as [v|] eqn:Ef; [|discriminate].
       intros [= <-]. unfold mark_dirty, slot_word. rewrite Hp, Ef.
       cbn [set_pol pol idx_shift]. unfold fa_check_tag. cbn [set_pol idx_shift].
       fold (line_of c addr). rewrite om_find_set_same. cbn [default].
       split; [reflexivity|]. split; [reflexivity|].
       pose proof (wf_pol c Hwf) as Hm. rewrite Hp in Hm.
       destruct Hm as (_ & Hf & _). rewrite Forall_forall in Hf.
       apply om_find_In, list_elem_of_In in Ef. apply (Hf _ Ef). }
  all: intros Hl; pose proof Hl as Hl';
    apply base_check_tag_Some in Hl as (i & Hi & Hm & ->);
    pose proof (set_index_range c addr Hwf) as Hidx;
    pose proof (slot_index_range c _ _ Hwf Hidx Hi) as Hr;
    unfold mark_dirty, slot_word;
    match goal with |- context [set_tags ?t ?c0] => set (c' := set_tags t c0) end;
    change (pol c') with (pol c); rewrite Hp;
    (split; [|split; [|apply way_matches_spec in Hm; assumption]]);
    [ rewrite <- Hl'; unfold base_check_tag;
      change (ways c') with (ways c); change (set_index c' addr) with (set_index c addr);
      assert (E : List.find (way_matches c' addr) (seqZ 0 (ways c)) =
                  List.find (way_matches c addr) (seqZ 0 (ways c)));
      [ apply find_ext_in
      | rewrite E; reflexivity ]
    | change (tags c') with
        (tag_store (tags c) (set_index c addr * ways c + i)
           (Z.lor (tag_at (tags c) (set_index c addr * ways c + i)) DIRTY));
      apply tag_at_store_same; assumption ].
  all: intros x Hx; apply in_seqZ in Hx;
    apply (dirty_way_matches c c' addr (set_index c addr * ways c + i) x);
    [assumption|lia|lia|repeat split|reflexivity].
Qed.

End tags_and_addresses.

(* ===================================================================== *)
(** ** Stores and statistics *)
(* ===================================================================== *)

Section stores_and_statistics.
Context {deps : hawkeye_deps}.
Implicit Types c : cache_sim_t.

Lemma access_store_last_step pc c addr bytes c' evs :
  wf c -> no_duplicate_tags c -> uint64 addr ->
  access pc c addr bytes true = Ok (c', evs) ->
  exists cx p,
    wf cx /\ lookup cx addr = Some p /\ c' = mark_dirty p cx /\
    same_geometry c cx.
Proof.
  intros Hwf Hnd Ha H.
  apply access_Ok_inv in H as (c1 & r & ev1 & Hct & H).
  destruct (counters_keep c (count_access true bytes c)) as (Hwf0 & Hnd0 & Hl0);
    try assumption; try reflexivity; [repeat split|].
  pose proof (check_tag_spec _ _ _ _ _ _ Hct)
    as (Hr & Hf1 & Ht1 & _ & Hk1 & _ & Hwf1 & _).
  specialize (Hwf1 Hwf0).
  pose proof (check_tag_no_duplicate _ _ _ _ _ _ Hct Hnd0) as Hnd1.
  pose proof (check_tag_lookup _ _ _ _ _ _ addr Hct) as Hl1.
  assert (G1 : same_geometry c c1).
  { eapply same_geometry_trans; [|apply Hf1]. repeat split. }
  destruct H as [(p & -> & -> & ->)|(-> & c2 & victim & ev2 & Hv & H)].
  - exists c1, p. split; [assumption|]. split; [congruence|]. auto.
  - destruct (counters_keep c1 (count_miss true c1)) as (Hwfm & Hndm & Hlm);
      try assumption; try reflexivity; [repeat split|].
    apply victimize_spec in Hv as (Hwf2 & Hnd2 & Hl2 & Hf2 & Hk2 & _);
      try assumption; [|rewrite Hlm, Hl1; congruence].
    cbn zeta in H.
    set (c3 := if valid victim && dirty victim then count_writeback c2 else c2) in *.
    assert (E3 : same_geometry c2 c3 /\ tags c3 = tags c2 /\ pol c3 = pol c2)
      by (subst c3; destruct (valid victim && dirty victim); repeat split).
    destruct E3 as (G3 & T3 & P3).
    destruct (counters_keep c2 c3) as (Hwf3 & Hnd3 & Hl3); try assumption.
    destruct H as [(Hst & _)|(_ & c4 & p & ev3 & Hct2 & -> & _)]; [discriminate|].
    pose proof (check_tag_spec _ _ _ _ _ _ Hct2)
      as (Hr4 & Hf4 & Ht4 & _ & Hk4 & _ & Hwf4 & _).
    pose proof (check_tag_lookup _ _ _ _ _ _ addr Hct2) as Hl4.
    exists c4, p. split; [auto|]. split; [congruence|]. split; [reflexivity|].
    eapply same_geometry_trans; [exact G1|].
    eapply same_geometry_trans; [|apply Hf4].
    eapply same_geometry_trans; [|exact G3].
    eapply same_geometry_trans; [|apply Hf2]. repeat split.
Qed.

(** X7.  After a store the line of the address is in the cache with its
    DIRTY bit set: [check_tag] finds a valid word with the DIRTY bit and
    the line number of the address. *)
Theorem store_leaves_the_line_dirty pc c addr bytes c' evs :
  wf c -> no_duplicate_tags c -> uint64 addr ->
  access pc c addr bytes true = Ok (c', evs) ->
  exists p,
    lookup c' addr = Some p /\
    valid (slot_word c' p) = true /\ dirty (slot_word c' p) = true /\
    payload (slot_word c' p) = line_of c addr.
Proof.
  intros Hwf Hnd Ha H.
  apply access_store_last_step in H as (cx & p & Hwfx & Hl & -> & Hg); try assumption.
  destruct (mark_dirty_word cx addr p Hwfx Ha Hl) as (Hl' & Hw & Hv & Hp).
  exists p. split; [assumption|]. rewrite Hw.
  rewrite valid_mark_dirty, payload_mark_dirty. split; [assumption|]. split.
  - unfold dirty. rewrite Z.lor_spec, testbit_DIRTY by lia. apply orb_true_r.
  - rewrite Hp. unfold line_of. destruct Hg as (_ & _ & _ & ->). reflexivity.
Qed.

Lemma victimize_stats pc c addr c' v evs :
  victimize pc c addr = Ok (c', v, evs) -> stats c' = stats c.
Proof.
  unfold victimize. destruct (pol c) as [|m|ec|h].
  - unfold base_victimize. cbn [lfsr_next]. destruct (ways c =? 0); [discriminate|].
    cbn [res_bind]. intros [= <- <- <-]. reflexivity.
  - unfold fa_victimize. destruct (om_size m =? ways c).
    + cbn [lfsr_next]. destruct (ways c =? 0); [discriminate|].
      destruct (m !! _) as [[k old]|]; [|discriminate].
      cbn [res_bind]. intros [= <- <- <-]. reflexivity.
    + cbn [res_bind]. intros [= <- <- <-]. reflexivity.
  - unfold linear_victimize. destruct (ways c =? 0); [discriminate|].
    cbn [res_bind]. intros [= <- <- <-]. reflexivity.
  - unfold hawkeye_victimize. destruct (find_max_rrpv _ _ _).
    + intros [= <- <- <-]. reflexivity.
    + destruct (_ <? 0); [discriminate|]. intros [= <- <- <-]. reflexivity.
Qed.

Lemma mark_dirty_stats p c : stats (mark_dirty p c) = stats c.
Proof.
  destruct p as [i|k]; unfold mark_dirty; [reflexivity|].
  destruct (pol c); try reflexivity. destruct (om_find k fa_tags); reflexivity.
Qed.

Lemma count_miss_stats store c c' :
  stats c = stats c' -> stats (count_miss store c) = stats (count_miss store c').
Proof.
  unfold stats. intros [= E1 E2 E3 E4 E5 E6 E7].
  cbn [count_miss read_accesses read_misses bytes_read write_accesses
       write_misses bytes_written writebacks].
  rewrite E1, E2, E3, E4, E5, E6, E7. reflexivity.
Qed.

Lemma count_writeback_stats c c' :
  stats c = stats c' -> stats (count_writeback c) = stats (count_writeback c').
Proof.
  unfold stats. intros [= E1 E2 E3 E4 E5 E6 E7].
  cbn [count_writeback read_accesses read_misses bytes_read write_accesses
       write_misses bytes_written writebacks].
  rewrite E1, E2, E3, E4, E5, E6, E7. reflexivity.
Qed.

(* The counters after an access: those of [count_access] on a hit; on a
   miss those of [count_miss] too, and of [count_writeback] when the
   victim was valid and dirty.  Neither lookup nor replacement nor the
   DIRTY bit touches them. *)
Lemma access_stats pc c addr bytes store c' evs :
  access pc c addr bytes store = Ok (c', evs) ->
  exists wb : bool,
    stats c' =
      match lookup c addr with
      | Some _ => stats (count_access store bytes c)
      | None =>
          if wb
          then stats (count_writeback
                        (count_miss store (count_access store bytes c)))
          else stats (count_miss store (count_access store bytes c))
      end.
Proof.
  intros H. apply access_Ok_inv in H as (c1 & r & ev1 & Hct & H).
  pose proof (check_tag_spec _ _ _ _ _ _ Hct) as (Hr & Hf1 & _).
  destruct Hf1 as (_ & S1 & _).
  rewrite (lookup_ext c (count_access store bytes c)) in Hr by (repeat split).
  rewrite <- Hr.
  destruct H as [(p & -> & -> & ->)|(-> & c2 & victim & ev2 & Hv & H)].
  - exists false. rewrite <- S1.
    destruct store; [apply mark_dirty_stats|reflexivity].
  - apply victimize_stats in Hv. cbn zeta in H.
    exists (valid victim && dirty victim).
    set (c3 := if valid victim && dirty victim then count_writeback c2 else c2) in *.
    assert (E2 : stats c2 = stats (count_miss store (count_access store bytes c))).
    { rewrite Hv. apply count_miss_stats. exact S1. }
    assert (E3 : stats c3 =
                 if valid victim && dirty victim
                 then stats (count_writeback
                               (count_miss store (count_access store bytes c)))
                 else stats (count_miss store (count_access store bytes c))).
    { subst c3. destruct (valid victim && dirty victim); [|exact E2].
      apply count_writeback_stats. exact E2. }
    destruct H as [(-> & -> & _)|(-> & c4 & p & ev3 & Hct2 & -> & _)].
    + exact E3.
    + rewrite mark_dirty_stats, <- E3.
      pose proof (check_tag_spec _ _ _ _ _ _ Hct2) as (_ & Hf4 & _).
      apply Hf4.
Qed.

(* The seven counters, read off such a state. *)
Lemma stats_fields c c' addr bytes store (wb : bool) :
  stats c' =
    match lookup c addr with
    | Some _ => stats (count_access store bytes c)
    | None =>
        if wb
        then stats (count_writeback
                      (count_miss store (count_access store bytes c)))
        else stats (count_miss store (count_access store bytes c))
    end ->
  read_accesses c' = (if store then read_accesses c
                      else wrap64 (read_accesses c + 1)) /\
  write_accesses c' = (if store then wrap64 (write_accesses c + 1)
                       else write_accesses c) /\
  bytes_read c' = (if store then bytes_read c
                   else wrap64 (bytes_read c + bytes)) /\
  bytes_written c' = (if store then wrap64 (bytes_written c + bytes)
                      else bytes_written c) /\
  match lookup c addr with
  | Some _ =>
      read_misses c' = read_misses c /\ write_misses c' = write_misses c /\
      writebacks c' = writebacks c
  | None =>
      read_misses c' = (if store then read_misses c
                        else wrap64 (read_misses c + 1)) /\
      write_misses c' = (if store then wrap64 (write_misses c + 1)
                         else write_misses c) /\
      (writebacks c' = writebacks c \/
       writebacks c' = wrap64 (writebacks c + 1))
  end.
Proof.
  intros E. destruct (lookup c addr); [|destruct wb];
    unfold stats in E;
    cbn [count_access count_miss count_writeback read_accesses read_misses
         bytes_read write_accesses write_misses bytes_written writebacks] in E;
    injection E as -> -> -> -> -> -> ->; auto 10.
Qed.

(** X8.  One access counts one access of its kind and its bytes; a miss
    counts one miss of its kind; a hit counts no miss; [writebacks] grows
    by at most one, and only on a miss. *)
Theorem access_counts pc c addr bytes store c' evs :
  access pc c addr bytes store = Ok (c', evs) ->
  read_accesses c' = (if store then read_accesses c
                      else wrap64 (read_accesses c + 1)) /\
  write_accesses c' = (if store then wrap64 (write_accesses c + 1)
                       else write_accesses c) /\
  bytes_read c' = (if store then bytes_read c
                   else wrap64 (bytes_read c + bytes)) /\
  bytes_written c' = (if store then wrap64 (bytes_written c + bytes)
                      else bytes_written c) /\
  match lookup c addr with
  | Some _ =>
      read_misses c' = read_misses c /\ write_misses c' = write_misses c /\
      writebacks c' = writebacks c
  | None =>
      read_misses c' = (if store then read_misses c
                        else wrap64 (read_misses c + 1)) /\
      write_misses c' = (if store then wrap64 (write_misses c + 1)
                         else write_misses c) /\
      (writebacks c' = writebacks c \/
       writebacks c' = wrap64 (writebacks c + 1))
  end.
Proof.
  intros H.
  destruct (access_stats pc c addr bytes store c' evs H) as (wb & E).
  eapply stats_fields. exact E.
Qed.

End stores_and_statistics.

(* ===================================================================== *)
(** ** Statistics of a run; streams of loads *)
(* ===================================================================== *)

Lemma loads_stores_length (reqs : list request) :
  loads reqs + stores reqs = Z.of_nat (length reqs).
Proof.
  unfold loads, stores. induction reqs as [|r reqs IH]; [reflexivity|].
  cbn [List.filter length]. destruct (snd r); cbn [negb length]; lia.
Qed.

Lemma not_downstream_not_store evs :
  Forall (fun e => is_downstream e = false) evs ->
  Forall (fun e => is_downstream_store e = false) evs.
Proof.
  intros H. eapply Forall_impl; [exact H|].
  intros [a b []| | | | |] He; cbn in *; congruence.
Qed.

Lemma tag_at_clean (t : list Z) i :
  Forall (fun x => dirty x = false) t -> dirty (tag_at t i) = false.
Proof.
  intros H. unfold tag_at. destruct (t !! Z.to_nat i) eqn:E; [|reflexivity].
  rewrite Forall_lookup in H. apply (H _ _ E).
Qed.

Section runs_of_loads.
Context {deps : hawkeye_deps}.
Implicit Types c : cache_sim_t.

Lemma run_statistics c reqs c' evs :
  run c reqs = Ok (c', evs) ->
  0 <= read_misses c <= read_accesses c ->
  0 <= write_misses c <= write_accesses c ->
  0 <= writebacks c <= read_misses c + write_misses c ->
  read_accesses c + write_accesses c + Z.of_nat (length reqs) < 2 ^ 64 ->
  read_accesses c' = read_accesses c + loads reqs /\
  write_accesses c' = write_accesses c + stores reqs /\
  0 <= read_misses c' <= read_accesses c' /\
  0 <= write_misses c' <= write_accesses c' /\
  0 <= writebacks c' <= read_misses c' + write_misses c'.
Proof.
  revert c evs. induction reqs as [|[[[pc addr] bytes] store] reqs IH];
    intros c evs; cbn [run].
  - intros [= <- <-] H1 H2 H3 _. unfold loads, stores. cbn. repeat split; lia.
  - destruct (access pc c addr bytes store) as [[c1 ev1]|] eqn:Ha; [|discriminate].
    cbn [res_bind].
    destruct (run c1 reqs) as [[c2 ev2]|] eqn:Hr; [|discriminate].
    cbn [res_bind]. intros [= <- <-] H1 H2 H3 H4.
    destruct (access_stats _ _ _ _ _ _ _ Ha) as (wb & Est).
    apply stats_fields in Est as (A1 & A2 & _ & _ & A5).
    cbn [length] in H4.
    assert (W : forall x, 0 <= x -> x + 1 < 2 ^ 64 -> wrap64 (x + 1) = x + 1).
    { intros x ? ?. apply wrap64_small. unfold uint64. lia. }
    assert (B : read_accesses c1 = read_accesses c + (if store then 0 else 1) /\
                write_accesses c1 = write_accesses c + (if store then 1 else 0) /\
                0 <= read_misses c1 <= read_accesses c1 /\
                0 <= write_misses c1 <= write_accesses c1 /\
                0 <= writebacks c1 <= read_misses c1 + write_misses c1).
    { destruct (lookup c addr).
      - destruct A5 as (-> & -> & ->). rewrite A1, A2.
        destruct store; rewrite ?W by lia; repeat split; lia.
      - destruct A5 as (-> & -> & A7). rewrite A1, A2.
        destruct store; rewrite ?W by lia;
          (destruct A7 as [->| ->]; rewrite ?W by lia; repeat split; lia). }
    destruct B as (B1 & B2 & B3 & B4 & B5).
    destruct (IH c1 ev2 Hr B3 B4 B5) as (I1 & I2 & I3 & I4 & I5).
    { rewrite B1, B2. destruct store; lia. }
    rewrite I1, I2, B1, B2 in *. unfold loads, stores in *.
    cbn [List.filter snd]. destruct store; cbn [negb length];
      repeat split; lia.
Qed.

(** X9.  After a stream of fewer than 2^64 accesses to a new cache,
    [read_accesses] is the number of loads and [write_accesses] the number
    of stores, no miss counter exceeds its access counter, and
    [writebacks] does not exceed the misses. *)
Theorem statistics_of_a_run c0 reqs c evs :
  constructed c0 -> run c0 reqs = Ok (c, evs) ->
  Z.of_nat (length reqs) < 2 ^ 64 ->
  read_accesses c = loads reqs /\ write_accesses c = stores reqs /\
  read_accesses c + write_accesses c = Z.of_nat (length reqs) /\
  0 <= read_misses c <= read_accesses c /\
  0 <= write_misses c <= write_accesses c /\
  0 <= writebacks c <= read_misses c + write_misses c.
Proof.
  intros (s & w & l & n & _ & _ & _ & _ & H) Hrun Hlen.
  assert (Hz : stats c0 = zero_counters).
  { destruct H as [H|[[_ H]|[H|H]]]; apply init_inv in H as [_ ->]; reflexivity. }
  injection Hz as Z1 Z2 Z3 Z4 Z5 Z6 Z7.
  destruct (run_statistics c0 reqs c evs Hrun) as (R1 & R2 & R3 & R4 & R5);
    try lia.
  rewrite Z1 in R1. rewrite Z4 in R2.
  pose proof (loads_stores_length reqs). repeat split; lia.
Qed.

Lemma tag_of_clean c addr : wf c -> uint64 addr -> dirty (tag_of c addr) = false.
Proof.
  intros Hwf Ha. pose proof (line_of_range c addr Hwf Ha) as Hp.
  unfold dirty. rewrite tag_of_line, Z.lor_spec, testbit_VALID by lia.
  rewrite (testbit_small _ 61 62) by lia. reflexivity.
Qed.

Lemma check_tag_clean pc c addr c1 r evs :
  check_tag pc c addr = (c1, r, evs) -> clean c -> clean c1.
Proof.
  intros H [Ht Hm].
  pose proof (check_tag_spec _ _ _ _ _ _ H) as (_ & _ & T & _ & K & F & _).
  split; [rewrite T; assumption|].
  destruct (pol c) as [|m|ec|h] eqn:Hp.
  - destruct (pol c1); try discriminate; exact I.
  - rewrite (F m eq_refl). assumption.
  - destruct (pol c1); try discriminate; exact I.
  - destruct (pol c1); try discriminate; exact I.
Qed.

Lemma installs_clean c c' addr v :
  wf c -> uint64 addr -> Forall (fun x => dirty x = false) (tags c) ->
  installs c c' addr v ->
  Forall (fun x => dirty x = false) (tags c') /\ dirty v = false.
Proof.
  intros Hwf Ha Ht (w & _ & -> & ->). split.
  - unfold tag_store. apply Forall_insert; [assumption|].
    apply tag_of_clean; assumption.
  - apply tag_at_clean. assumption.
Qed.

Lemma victimize_clean pc c addr c' v evs :
  wf c -> uint64 addr -> clean c ->
  victimize pc c addr = Ok (c', v, evs) -> clean c' /\ dirty v = false.
Proof.
  intros Hwf Ha [Ht Hm]. unfold victimize, clean.
  destruct (pol c) as [|m|ec|h] eqn:Hp.
  - destruct (base_victimize c addr) as [[c2 v2]|] eqn:E; [|discriminate].
    cbn [res_bind]. intros [= <- <- <-].
    apply base_victimize_spec in E as (Hi & _ & Hp1 & _); [|assumption].
    rewrite Hp1, Hp.
    destruct (installs_clean c c2 addr v2) as [? ?]; auto.
  - destruct (fa_victimize c m addr) as [[c2 v2]|] eqn:E; [|discriminate].
    cbn [res_bind]. intros [= <- <- <-]. revert E. unfold fa_victimize.
    assert (Hnew : dirty (snd (Z.shiftr addr (idx_shift c), tag_of c addr)) = false)
      by (apply tag_of_clean; assumption).
    destruct (om_size m =? ways c).
    + cbn [lfsr_next]. destruct (ways c =? 0); [discriminate|].
      destruct (m !! _) as [[k old]|] eqn:En; [|discriminate].
      intros [= <- <-]. cbn [set_pol set_lfsr tags pol]. split; [split; [assumption|]|].
      * apply Forall_om_set; [assumption|]. apply Forall_delete. assumption.
      * unfold omap in *. rewrite Forall_lookup in Hm. apply (Hm _ _ En).
    + intros [= <- <-]. cbn [set_pol tags pol]. split; [split; [assumption|]|reflexivity].
      apply Forall_om_set; assumption.
  - destruct (linear_victimize c ec addr) as [[c2 v2]|] eqn:E; [|discriminate].
    cbn [res_bind]. intros [= <- <- <-].
    apply linear_victimize_spec in E as (Hi & _ & _ & ec' & Hp1 & _); auto.
    rewrite Hp1. destruct (installs_clean c c2 addr v2) as [? ?]; auto.
  - intros E. apply hawkeye_victimize_spec in E as (Hi & _ & _ & (h' & Hp1 & _) & _); auto.
    rewrite Hp1. destruct (installs_clean c c' addr v) as [? ?]; auto.
Qed.

Lemma clean_ext c c' :
  tags c' = tags c -> pol c' = pol c -> clean c -> clean c'.
Proof. intros Ht Hp [H1 H2]. unfold clean. rewrite Ht, Hp. auto. Qed.

Lemma load_access_clean pc c addr bytes c' evs :
  wf c -> no_duplicate_tags c -> uint64 addr -> clean c ->
  access pc c addr bytes false = Ok (c', evs) ->
  clean c' /\ writebacks c' = writebacks c /\
  write_accesses c' = write_accesses c /\
  Forall (fun e => is_downstream_store e = false) evs.
Proof.
  intros Hwf Hnd Ha Hc H.
  destruct (access_stats _ _ _ _ _ _ _ H) as (wb & Est).
  apply stats_fields in Est as (_ & A2 & _).
  apply access_Ok_inv in H as (c1 & r & ev1 & Hct & H).
  destruct (counters_keep c (count_access false bytes c)) as (Hwf0 & Hnd0 & Hl0);
    try assumption; try reflexivity; [repeat split|].
  pose proof (check_tag_spec _ _ _ _ _ _ Hct)
    as (Hr & Hf1 & Ht1 & _ & Hk1 & _ & Hwf1 & Hev1).
  specialize (Hwf1 Hwf0).
  pose proof (check_tag_no_duplicate _ _ _ _ _ _ Hct Hnd0) as Hnd1.
  pose proof (check_tag_lookup _ _ _ _ _ _ addr Hct) as Hl1.
  assert (Hc1 : clean c1).
  { eapply check_tag_clean; [exact Hct|]. eapply clean_ext; [| |exact Hc]; reflexivity. }
  assert (W1 : writebacks c1 = writebacks c).
  { destruct Hf1 as (_ & S & _). apply (f_equal c_writebacks) in S. exact S. }
  destruct H as [(p & -> & -> & ->)|(-> & c2 & victim & ev2 & Hv & H)].
  - split; [assumption|]. split; [assumption|]. split; [assumption|].
    apply not_downstream_not_store. assumption.
  - destruct (counters_keep c1 (count_miss false c1)) as (Hwfm & Hndm & Hlm);
      try assumption; try reflexivity; [repeat split|].
    pose proof (victimize_stats _ _ _ _ _ _ Hv) as S2.
    pose proof Hv as Hv'.
    apply victimize_spec in Hv' as (_ & _ & _ & _ & _ & Hev2);
      try assumption; [|rewrite Hlm, Hl1; congruence].
    apply victimize_clean in Hv as [Hc2 Hd]; try assumption.
    cbn zeta in H. rewrite Hd, andb_false_r in H.
    destruct H as [(_ & -> & ->)|(Hst & _)]; [|discriminate].
    split; [assumption|]. split.
    { apply (f_equal c_writebacks) in S2. cbn in S2. congruence. }
    split; [assumption|].
    repeat (apply Forall_app; split);
      try (apply not_downstream_not_store; assumption).
    + destruct (log c1); repeat constructor.
    + constructor.
    + unfold downstream. destruct (miss_handler c2); repeat constructor.
Qed.

Lemma constructed_clean c : constructed c -> clean c.
Proof.
  intros (s & w & l & n & Hs & Hw & Hl & Hsw & H).
  assert (Hinit : exists p, init s w l n p = Ok c /\
            (forall m, p = FullyAssoc m -> m = [])).
  { destruct H as [H|[[-> H]|[H|H]]]; eexists; (split; [exact H|]);
      intros m Hm; congruence. }
  destruct Hinit as (p & Hi & Hp).
  pose proof (init_geometry _ _ _ _ _ _ Hi Hs Hw Hl Hsw)
    as (_ & _ & _ & _ & _ & _ & _ & _ & Ep & Hz).
  split.
  - eapply Forall_impl; [exact Hz|]. intros x ->. reflexivity.
  - rewrite Ep. destruct p; try exact I. rewrite (Hp _ eq_refl). constructor.
Qed.

Lemma configured_clean c : configured c -> clean c.
Proof.
  intros (c0 & mh & l & Hc & ->). apply constructed_clean in Hc.
  eapply clean_ext; [| |exact Hc]; reflexivity.
Qed.

(* A stream of loads on any clean state. *)
Lemma loads_run_clean reqs c1 c2 evs :
  wf c1 -> no_duplicate_tags c1 -> clean c1 -> well_typed reqs ->
  Forall (fun r : request => snd r = false) reqs ->
  run c1 reqs = Ok (c2, evs) ->
  writebacks c2 = writebacks c1 /\ clean c2 /\
  Forall (fun e => is_downstream_store e = false) evs.
Proof.
  revert c1 c2 evs. induction reqs as [|[[[pc addr] bytes] store] reqs IH];
    intros c1 c2 evs Hwf Hnd Hcl Hty Hld; cbn [run].
  - intros [= <- <-]. split; [reflexivity|]. split; [assumption|constructor].
  - destruct (access pc c1 addr bytes store) as [[c3 ev1]|] eqn:Ha; [|discriminate].
    cbn [res_bind].
    destruct (run c3 reqs) as [[c4 ev2]|] eqn:Hr; [|discriminate].
    cbn [res_bind]. intros [= <- <-].
    inversion Hty as [|? ? Hty1 Hty2]; subst. cbn in Hty1.
    inversion Hld as [|? ? Hld1 Hld2]; subst. cbn in Hld1. subst store.
    pose proof (access_inv _ _ _ _ _ _ _ Hwf Hnd Hty1 Ha) as (Hwf3 & Hnd3 & _).
    apply load_access_clean in Ha as (Hcl3 & W3 & _ & E3); try assumption.
    destruct (IH c3 c4 ev2 Hwf3 Hnd3 Hcl3 Hty2 Hld2 Hr) as (W4 & Hcl4 & E4).
    split; [congruence|]. split; [assumption|].
    apply Forall_app. split; assumption.
Qed.

(** X10.  A stream of loads never writes back: whatever the policy and
    whether or not a downstream cache is wired, [writebacks] stays 0, no
    word of the cache gets its DIRTY bit, and no store is sent
    downstream. *)
Theorem loads_never_write_back c0 reqs c evs :
  configured c0 -> well_typed reqs ->
  Forall (fun r : request => snd r = false) reqs ->
  run c0 reqs = Ok (c, evs) ->
  writebacks c = 0 /\ clean c /\
  Forall (fun e => is_downstream_store e = false) evs.
Proof.
  intros Hc Hty Hld Hrun.
  pose proof (configured_clean _ Hc) as Hcl.
  pose proof (f_equal c_writebacks (configured_stats _ Hc)) as Hz.
  apply configured_inv in Hc as [Hwf Hnd].
  destruct (loads_run_clean reqs c0 c evs Hwf Hnd Hcl Hty Hld Hrun) as (W & ? & ?).
  split; [|auto]. rewrite W. exact Hz.
Qed.

End runs_of_loads.

(* ===================================================================== *)
(** ** The instruction cache; caches built from a configuration *)
(* ===================================================================== *)

Lemma atoi_range s v : atoi s = Ok v -> - 2 ^ 31 <= v < 2 ^ 31.
Proof.
  unfold atoi.
  destruct (match skip_spaces s with
            | String "-"%char s' => (true, s')
            | String "+"%char s' => (false, s')
            | _ => (false, skip_spaces s)
            end) as [neg rest].
  destruct ((- 2 ^ 31 <=? (if neg then - read_digits rest 0 else read_digits rest 0)) &&
            ((if neg then - read_digits rest 0 else read_digits rest 0) <? 2 ^ 31)) eqn:E;
    [|discriminate].
  intros [= <-]. apply andb_prop in E as [E1 E2].
  apply Z.leb_le in E1. apply Z.ltb_lt in E2. lia.
Qed.

Lemma wrap64_int v :
  - 2 ^ 31 <= v < 2 ^ 31 ->
  uint64 (wrap64 v) /\
  ((0 <= v /\ wrap64 v = v) \/ (v < 0 /\ 2 ^ 64 - 2 ^ 31 <= wrap64 v)).
Proof.
  intros Hv. unfold wrap64, uint64. split.
  - apply Z.mod_pos_bound. lia.
  - destruct (Z.lt_ge_cases v 0) as [Hn|Hp].
    + right. split; [assumption|].
      rewrite <- (Z.mod_add v 1 (2 ^ 64)) by lia.
      rewrite Z.mod_small by lia. lia.
    + left. split; [assumption|]. apply Z.mod_small. lia.
Qed.

Lemma power_of_two_below x :
  0 < x < 2 ^ 64 -> x = 2 ^ Z.log2 x -> x <= 2 ^ 63.
Proof.
  intros Hx E. rewrite E. apply Z.pow_le_mono_r; [lia|].
  assert (Z.log2 x < 64) by (apply Z.log2_lt_pow2; lia). lia.
Qed.

Section built_from_a_configuration.
Context {deps : hawkeye_deps}.
Implicit Types c : cache_sim_t.

Lemma icache_run_fetches c tevs : icache_run c tevs = run c (fetches tevs).
Proof.
  revert c. induction tevs as [|[[[pc addr] bytes] t] tevs IH]; intros c;
    [reflexivity|].
  cbn [icache_run fetches flat_map]. unfold icache_trace. cbn [fst snd].
  destruct (is_fetch t); cbn [app run res_bind].
  - destruct (access pc c addr bytes false) as [[c1 e1]|]; [|reflexivity].
    cbn [res_bind]. fold (fetches tevs). rewrite IH. reflexivity.
  - fold (fetches tevs). rewrite IH.
    destruct (run c (fetches tevs)) as [[c2 e2]|]; reflexivity.
Qed.

Lemma fetches_are_loads tevs :
  Forall (fun r : request => snd r = false) (fetches tevs).
Proof.
  induction tevs as [|e tevs IH]; [constructor|].
  cbn [fetches flat_map]. destruct (is_fetch (snd e)); cbn [app]; [|exact IH].
  constructor; [reflexivity|exact IH].
Qed.

Lemma fetches_typed tevs :
  Forall (fun e : trace_event => uint64 (snd (fst (fst e)))) tevs ->
  well_typed (fetches tevs).
Proof.
  unfold well_typed. induction 1 as [|e tevs He _ IH]; [constructor|].
  cbn [fetches flat_map]. destruct (is_fetch (snd e)); cbn [app]; [|exact IH].
  constructor; [exact He|exact IH].
Qed.

Lemma loads_keep_write_counters c reqs c' evs :
  Forall (fun r : request => snd r = false) reqs ->
  run c reqs = Ok (c', evs) ->
  write_accesses c' = write_accesses c /\ write_misses c' = write_misses c /\
  bytes_written c' = bytes_written c.
Proof.
  revert c evs. induction reqs as [|[[[pc addr] bytes] store] reqs IH];
    intros c evs Hld; cbn [run].
  - intros [= <- <-]. auto.
  - destruct (access pc c addr bytes store) as [[c1 ev1]|] eqn:Ha; [|discriminate].
    cbn [res_bind].
    destruct (run c1 reqs) as [[c2 ev2]|] eqn:Hr; [|discriminate].
    cbn [res_bind]. intros [= <- <-].
    inversion Hld as [|? ? Hld1 Hld2]; subst. cbn in Hld1. subst store.
    destruct (access_stats _ _ _ _ _ _ _ Ha) as (wb & Est).
    apply stats_fields in Est as (_ & A2 & _ & A4 & A5).
    destruct (IH c1 ev2 Hld2 Hr) as (I1 & I2 & I3).
    rewrite I1, I2, I3, A2, A4.
    destruct (lookup c addr); destruct A5 as (_ & -> & _); auto.
Qed.

(** X11.  An instruction cache acts on FETCH events only and treats each
    as a load: whatever it is asked to trace, and whether or not a
    downstream cache is wired, it counts no write, keeps every word clean,
    never writes back and sends no store downstream. *)
Theorem instruction_cache_never_writes c0 tevs c evs :
  configured c0 ->
  Forall (fun e : trace_event => uint64 (snd (fst (fst e)))) tevs ->
  icache_run c0 tevs = Ok (c, evs) ->
  write_accesses c = 0 /\ write_misses c = 0 /\ bytes_written c = 0 /\
  writebacks c = 0 /\ clean c /\
  Forall (fun e => is_downstream_store e = false) evs.
Proof.
  intros Hc Hty Hrun. rewrite icache_run_fetches in Hrun.
  pose proof (configured_clean _ Hc) as Hcl.
  pose proof (configured_stats _ Hc) as Hz.
  apply configured_inv in Hc as [Hwf Hnd].
  destruct (loads_run_clean (fetches tevs) c0 c evs Hwf Hnd Hcl
              (fetches_typed _ Hty) (fetches_are_loads _) Hrun) as (W & Cl & E).
  destruct (loads_keep_write_counters c0 _ c evs (fetches_are_loads _) Hrun)
    as (A & M & B).
  injection Hz as Z1 Z2 Z3 Z4 Z5 Z6 Z7.
  repeat split; try congruence; try assumption; apply Cl.
Qed.

(** X12.  A cache [construct] returns has [sets] a power of two and
    [linesz] a power of two that is at least 8; unless the ways field was
    negative, it is one of the states the four constructors build, with a
    tag array of [sets*ways] invalid words. *)
Theorem construct_builds_a_checked_geometry config name c :
  construct config name = Ok c ->
  sets c = 2 ^ Z.log2 (sets c) /\ linesz c = 2 ^ idx_shift c /\
  8 <= linesz c /\
  (ways c < 2 ^ 31 -> constructed c /\ wf c /\ no_duplicate_tags c).
Proof.
  unfold construct.
  destruct (split_config config) as [[[wp bp] fourth]|] eqn:Hs; [|discriminate].
  cbn [res_bind].
  destruct (atoi (between config wp)) as [s|] eqn:Es; [|discriminate]. cbn [res_bind].
  destruct (atoi (between wp bp)) as [w|] eqn:Ew; [|discriminate]. cbn [res_bind].
  destruct (match fourth with Some t => atoi (between bp t) | None => atoi bp end)
    as [l|] eqn:El; [|discriminate].
  cbn [res_bind]. intros H.
  apply atoi_range in Es, Ew.
  assert (Hl : - 2 ^ 31 <= l < 2 ^ 31).
  { destruct fourth; apply atoi_range in El; assumption. }
  destruct (wrap64_int s Es) as [Us Cs].
  destruct (wrap64_int w Ew) as [Uw Cw].
  destruct (wrap64_int l Hl) as [Ul Cl].
  assert (Hinit : exists s' p, init s' (wrap64 w) (wrap64 l) name p = Ok c /\
            uint64 s' /\ (s' = wrap64 s \/ s' = 1) /\
            (p = Random \/ (s' = 1 /\ p = FullyAssoc []) \/ p = Linear ∅ \/
             p = Hawkeye (hawkeye_new_state s' (wrap64 w)))).
  { destruct (type_is fourth "linear");
      [exists (wrap64 s); eexists; split; [exact H|]; auto 10|].
    destruct (type_is fourth "hawkeye");
      [exists (wrap64 s); eexists; split; [exact H|]; auto 10|].
    destruct ((4 <? wrap64 w) && (wrap64 s =? 1)).
    - exists 1. eexists. split; [exact H|]. unfold uint64. split; [lia|]. auto 10.
    - exists (wrap64 s). eexists. split; [exact H|]. auto 10. }
  destruct Hinit as (s' & p & Hi & Us' & Hs' & Hp).
  pose proof (init_inv _ _ _ _ _ _ Hi) as [Hg Hc].
  pose proof (geometry_ok_sets _ _ Hg Us') as Hpow.
  pose proof (geometry_ok_linesz _ _ Hg Ul) as [Hlp Hlr].
  assert (Hsh : shift_loop 64 (wrap64 l) 0 = Z.log2 (wrap64 l)).
  { rewrite Hlp at 1. rewrite shift_loop_pow2 by lia. lia. }
  assert (Hs31 : s' < 2 ^ 31).
  { destruct Hs' as [->| ->]; [|lia].
    destruct Cs as [[? ->]|[? Hbig]]; [lia|].
    assert (E : wrap64 s <> 0).
    { unfold geometry_ok in Hg. apply andb_prop in Hg as [Hg _].
      apply negb_true_iff, orb_false_elim in Hg as [Hg _].
      apply Z.eqb_neq in Hg. assumption. }
    pose proof (power_of_two_below (wrap64 s)) as Hb.
    unfold uint64 in Us. specialize (Hb ltac:(lia) Hpow). lia. }
  assert (E : sets c = s' /\ ways c = wrap64 w /\ linesz c = wrap64 l /\
              idx_shift c = Z.log2 (wrap64 l)).
  { rewrite Hc. cbn [sets ways linesz idx_shift]. rewrite Hsh. auto. }
  destruct E as (E1 & E2 & E3 & E4).
  rewrite E1, E3, E4. split; [assumption|]. split; [assumption|].
  split.
  { rewrite Hlp. change 8 with (2 ^ 3). apply Z.pow_le_mono_r; lia. }
  rewrite E2. intros Hw31.
  assert (Hcons : constructed c).
  { exists s', (wrap64 w), (wrap64 l), name.
    split; [assumption|]. split; [assumption|]. split; [assumption|].
    unfold uint64 in *. split; [nia|].
    unfold cache_sim_new, fa_cache_sim_new, linear_evict_cache_sim_new,
      hawkeye_cache_sim_new.
    destruct Hp as [-> | [[-> ->] | [-> | ->]]]; auto. }
  split; [assumption|]. apply constructed_inv. assumption.
Qed.

End built_from_a_configuration.

(* ===================================================================== *)
(** ** RRPVs stay 3-bit values; accesses stay defined *)
(* ===================================================================== *)

Lemma grid_store_bounded (P : Z -> Prop) a i j v :
  Forall (Forall P) a -> P v -> Forall (Forall P) (grid_store a i j v).
Proof.
  intros Ha Hv. unfold grid_store. apply Forall_alter; [assumption|].
  intros row _ Hrow. apply Forall_insert; assumption.
Qed.

Lemma grid_at_bounded a i j :
  Forall (Forall (fun v => 0 <= v <= MAX_RRPV)) a ->
  0 <= grid_at a i j <= MAX_RRPV.
Proof.
  intros Ha. unfold grid_at.
  destruct (a !! Z.to_nat i) as [row|] eqn:E.
  - rewrite Forall_lookup in Ha. specialize (Ha _ _ E).
    change (default [] (Some row)) with row.
    destruct (row !! Z.to_nat j) as [v|] eqn:E'.
    + rewrite Forall_lookup in Ha. apply (Ha _ _ E').
    + change (default 0 None) with 0. unfold MAX_RRPV. lia.
  - change (default 0 (default [] None !! Z.to_nat j)) with 0.
    unfold MAX_RRPV. lia.
Qed.

Section defined_accesses.
Context {deps : hawkeye_deps}.
Implicit Types c : cache_sim_t.

Lemma age_friendly_bounded c sat r set :
  Forall (Forall (fun v => 0 <= v <= MAX_RRPV)) r ->
  Forall (Forall (fun v => 0 <= v <= MAX_RRPV)) (age_friendly c sat r set).
Proof.
  unfold age_friendly. revert r.
  induction (seqZ 0 (ways c)) as [|x l IH]; intros r Hr; cbn [fold_left];
    [assumption|].
  apply IH. destruct (negb sat && (grid_at r set x <? MAX_RRPV - 1)) eqn:E;
    [|assumption].
  apply andb_prop in E as [_ E]. apply Z.ltb_lt in E.
  pose proof (grid_at_bounded r set x Hr) as Hb. unfold MAX_RRPV in *.
  apply grid_store_bounded; [assumption|].
  unfold wrap32. rewrite Z.mod_small by lia. lia.
Qed.

Lemma check_tag_rrpv pc c addr c1 r evs :
  check_tag pc c addr = (c1, r, evs) -> rrpv_bounded c -> rrpv_bounded c1.
Proof.
  unfold check_tag, rrpv_bounded. destruct (pol c) as [|m|ec|h] eqn:Hp.
  1-3: intros [= <- <- <-]; rewrite Hp; auto.
  unfold hawkeye_check_tag.
  destruct (hawkeye_sample pc c h addr) as [[h1 ev] np] eqn:E.
  intros [= <- <- <-] Hb. cbn [set_pol pol].
  assert (E1 : rrpv h1 = rrpv h).
  { pose proof (hawkeye_sample_grids pc c h addr) as [G _]. rewrite E in G. exact G. }
  destruct (last_matching_way c addr =? -1); [rewrite E1; assumption|].
  cbn [set_rrpv rrpv]. rewrite E1. apply grid_store_bounded; [assumption|].
  unfold MAX_RRPV. destruct np; lia.
Qed.

Lemma victimize_rrpv pc c addr c1 v evs :
  victimize pc c addr = Ok (c1, v, evs) -> rrpv_bounded c -> rrpv_bounded c1.
Proof.
  unfold victimize, rrpv_bounded. destruct (pol c) as [|m|ec|h] eqn:Hp.
  - unfold base_victimize. cbn [lfsr_next]. destruct (ways c =? 0); [discriminate|].
    cbn [res_bind]. intros [= <- <- <-]. cbn [set_tags set_lfsr pol]. rewrite Hp. auto.
  - unfold fa_victimize. destruct (om_size m =? ways c).
    + cbn [lfsr_next]. destruct (ways c =? 0); [discriminate|].
      destruct (m !! _) as [[k old]|]; [|discriminate].
      cbn [res_bind]. intros [= <- <- <-]. auto.
    + cbn [res_bind]. intros [= <- <- <-]. auto.
  - unfold linear_victimize. destruct (ways c =? 0); [discriminate|].
    cbn [res_bind]. intros [= <- <- <-]. auto.
  - unfold hawkeye_victimize. destruct (find_max_rrpv _ _ _).
    + intros [= <- <- <-]. cbn [set_tags pol]. rewrite Hp. auto.
    + destruct (_ <? 0); [discriminate|]. intros [= <- <- <-] Hb.
      cbn [set_tags set_pol pol set_predictor set_rrpv rrpv].
      destruct (negb _).
      * apply grid_store_bounded; [assumption|]. unfold MAX_RRPV. lia.
      * apply grid_store_bounded; [|unfold MAX_RRPV; lia].
        apply age_friendly_bounded.
        apply grid_store_bounded; [assumption|]. unfold MAX_RRPV. lia.
Qed.

Lemma mark_dirty_rrpv p c : rrpv_bounded c -> rrpv_bounded (mark_dirty p c).
Proof.
  unfold rrpv_bounded. destruct p as [i|k]; unfold mark_dirty; [auto|].
  destruct (pol c) eqn:Hp; rewrite ?Hp; auto.
  destruct (om_find k fa_tags); cbn [set_pol pol]; rewrite ?Hp; auto.
Qed.

Lemma access_rrpv pc c addr bytes store c' evs :
  access pc c addr bytes store = Ok (c', evs) ->
  rrpv_bounded c -> rrpv_bounded c'.
Proof.
  intros H Hb. apply access_Ok_inv in H as (c1 & r & ev1 & Hct & H).
  apply check_tag_rrpv in Hct; [|exact Hb].
  destruct H as [(p & -> & -> & ->)|(-> & c2 & victim & ev2 & Hv & H)].
  - destruct store; [apply mark_dirty_rrpv|]; assumption.
  - apply victimize_rrpv in Hv; [|exact Hct]. cbn zeta in H.
    assert (H3 : rrpv_bounded
              (if valid victim && dirty victim then count_writeback c2 else c2))
      by (destruct (valid victim && dirty victim); exact Hv).
    destruct H as [(_ & -> & _)|(_ & c4 & p & ev3 & Hct2 & -> & _)];
      [assumption|].
    apply mark_dirty_rrpv. eapply check_tag_rrpv; eassumption.
Qed.

Lemma constructed_rrpv c : constructed c -> rrpv_bounded c.
Proof.
  intros (s & w & l & n & _ & _ & _ & _ & H). unfold rrpv_bounded.
  destruct H as [H|[[_ H]|[H|H]]]; apply init_inv in H as [_ ->];
    cbn [pol]; try exact I.
  unfold hawkeye_new_state. cbn [rrpv].
  apply Forall_replicate, Forall_replicate. unfold MAX_RRPV. lia.
Qed.

(** X13.  In a Hawkeye cache every RRPV stays between 0 and [MAX_RRPV]
    along every stream of accesses. *)
Theorem rrpv_stays_a_three_bit_value c0 reqs c evs h s i :
  constructed c0 -> run c0 reqs = Ok (c, evs) -> pol c = Hawkeye h ->
  0 <= grid_at (rrpv h) s i <= MAX_RRPV.
Proof.
  intros Hc Hrun Hp. apply constructed_rrpv in Hc.
  assert (G : forall reqs c1 c2 evs,
            rrpv_bounded c1 -> run c1 reqs = Ok (c2, evs) -> rrpv_bounded c2).
  { clear. induction reqs as [|[[[pc addr] bytes] store] reqs IH];
      intros c1 c2 evs Hb; cbn [run].
    - intros [= <- <-]. assumption.
    - destruct (access pc c1 addr bytes store) as [[c3 ev1]|] eqn:Ha; [|discriminate].
      cbn [res_bind].
      destruct (run c3 reqs) as [[c4 ev2]|] eqn:Hr; [|discriminate].
      cbn [res_bind]. intros [= <- <-].
      eapply IH; [|exact Hr]. eapply access_rrpv; eassumption. }
  specialize (G reqs c0 c evs Hc Hrun). unfold rrpv_bounded in G.
  rewrite Hp in G. apply grid_at_bounded. assumption.
Qed.

Lemma oldest_friendly_nonneg c h set :
  0 < ways c -> 0 <= grid_at (rrpv h) set 0 ->
  0 <= snd (oldest_friendly c h set).
Proof.
  intros Hw H0. unfold oldest_friendly.
  rewrite seqZ_cons by assumption. cbn [fold_left fst].
  destruct (Z.leb_spec 0 (grid_at (rrpv h) set 0)) as [_|]; [|lia].
  destruct (oldest_friendly_way (grid_at (rrpv h) set)
              (seqZ (Z.succ 0) (Z.pred (ways c))) (grid_at (rrpv h) set 0, 0))
    as [E|E].
  - rewrite E. cbn. lia.
  - apply list_elem_of_In, elem_of_seqZ in E. lia.
Qed.

Lemma victimize_defined pc c addr :
  wf c -> rrpv_bounded c -> 0 < ways c ->
  exists c' v evs, victimize pc c addr = Ok (c', v, evs).
Proof.
  intros Hwf Hb Hw. unfold victimize.
  assert (Hne : (ways c =? 0) = false) by (apply Z.eqb_neq; lia).
  destruct (pol c) as [|m|ec|h] eqn:Hp.
  - unfold base_victimize. cbn [lfsr_next]. rewrite Hne. cbn [res_bind]. eauto.
  - unfold fa_victimize. destruct (Z.eqb_spec (om_size m) (ways c)) as [Hfull|].
    + cbn [lfsr_next]. rewrite Hne.
      match goal with |- context [m !! ?n] => destruct (m !! n) as [[k old]|] eqn:En end.
      * cbn [res_bind]. eauto.
      * exfalso. apply lookup_ge_None in En. unfold om_size in Hfull.
        match type of En with (_ <= Z.to_nat (?r mod _))%nat =>
          pose proof (Z.mod_pos_bound r (ways c) Hw) end.
        lia.
    + cbn [res_bind]. eauto.
  - unfold linear_victimize. rewrite Hne. cbn [res_bind]. eauto.
  - unfold hawkeye_victimize. destruct (find_max_rrpv _ _ _); [eauto|].
    unfold rrpv_bounded in Hb. rewrite Hp in Hb.
    pose proof (grid_at_bounded (rrpv h) (set_index c addr) 0 Hb) as [H0 _].
    pose proof (oldest_friendly_nonneg c h (set_index c addr) Hw H0) as Hge.
    destruct (Z.ltb_spec (snd (oldest_friendly c h (set_index c addr))) 0); [lia|].
    eauto.
Qed.

Lemma access_defined pc c addr bytes store :
  wf c -> no_duplicate_tags c -> rrpv_bounded c -> 0 < ways c -> uint64 addr ->
  exists c' evs, access pc c addr bytes store = Ok (c', evs).
Proof.
  intros Hwf Hnd Hb Hw Ha. unfold access.
  destruct (check_tag pc (count_access store bytes c) addr) as [[c1 r] ev1] eqn:Hct.
  destruct (counters_keep c (count_access store bytes c)) as (Hwf0 & Hnd0 & Hl0);
    try assumption; try reflexivity; [repeat split|].
  pose proof (check_tag_spec _ _ _ _ _ _ Hct)
    as (Hr & Hf1 & Ht1 & _ & Hk1 & _ & Hwf1 & _).
  specialize (Hwf1 Hwf0).
  pose proof (check_tag_no_duplicate _ _ _ _ _ _ Hct Hnd0) as Hnd1.
  pose proof (check_tag_lookup _ _ _ _ _ _ addr Hct) as Hl1.
  pose proof (check_tag_rrpv _ _ _ _ _ _ Hct Hb) as Hb1.
  destruct r as [p|]; [eauto|].
  destruct (counters_keep c1 (count_miss store c1)) as (Hwfm & Hndm & Hlm);
    try assumption; try reflexivity; [repeat split|].
  assert (Hw1 : 0 < ways (count_miss store c1)).
  { destruct Hf1 as ((_ & E & _) & _). cbn in *. lia. }
  destruct (victimize_defined pc (count_miss store c1) addr Hwfm Hb1 Hw1)
    as (c2 & victim & ev2 & Hv).
  rewrite Hv. cbn [res_bind].
  apply victimize_spec in Hv as (Hwf2 & Hnd2 & [p Hl2] & _);
    try assumption; [|rewrite Hlm, Hl1; congruence].
  rewrite valid_dirty_test.
  destruct store; [|destruct (valid victim && dirty victim); eauto].
  destruct (valid victim && dirty victim).
  - destruct (check_tag pc (count_writeback c2) addr) as [[c4 r4] ev4] eqn:Hct4.
    pose proof (check_tag_spec _ _ _ _ _ _ Hct4) as (Hr4 & _).
    rewrite (lookup_ext c2) in Hr4 by (repeat split). rewrite Hl2 in Hr4.
    subst r4. eauto.
  - destruct (check_tag pc c2 addr) as [[c4 r4] ev4] eqn:Hct4.
    pose proof (check_tag_spec _ _ _ _ _ _ Hct4) as (Hr4 & _).
    rewrite Hl2 in Hr4. subst r4. eauto.
Qed.

(** X14.  With at least one way, no stream of accesses reaches undefined
    behaviour: every access returns, whatever the policy. *)
Theorem accesses_stay_defined c0 reqs :
  constructed c0 -> 0 < ways c0 -> well_typed reqs ->
  exists c evs, run c0 reqs = Ok (c, evs).
Proof.
  intros Hc Hw Hty. pose proof (constructed_rrpv _ Hc) as Hb.
  apply constructed_inv in Hc as [Hwf Hnd].
  revert c0 Hw Hb Hwf Hnd.
  induction reqs as [|[[[pc addr] bytes] store] reqs IH];
    intros c0 Hw Hb Hwf Hnd; cbn [run]; [eauto|].
  inversion Hty as [|? ? Hty1 Hty2]; subst. cbn in Hty1.
  destruct (access_defined pc c0 addr bytes store Hwf Hnd Hb Hw Hty1)
    as (c1 & ev1 & Ha).
  rewrite Ha. cbn [res_bind].
  pose proof (access_rrpv _ _ _ _ _ _ _ Ha Hb) as Hb1.
  apply access_inv in Ha as (Hwf1 & Hnd1 & _ & ((_ & E & _) & _)); try assumption.
  destruct (IH Hty2 c1) as (c2 & ev2 & Hr); try assumption; [lia|].
  rewrite Hr. cbn [res_bind]. eauto.
Qed.

End defined_accesses.

(* ===================================================================== *)
(** ** The order of replacement *)
(* ===================================================================== *)

Section order_of_replacement.
Context {deps : hawkeye_deps}.
Implicit Types c : cache_sim_t.

(** X15.  A linear-evict cache takes the ways of a set in turn: a miss
    replaces the way under the cursor of the set (way 0 for a set never
    replaced in), the next miss in that set replaces the following way
    modulo [ways], and with two ways or more the line installed first is
    still there. *)
Theorem linear_evict_takes_the_ways_in_turn c ec a1 c1 v1 ec1 a2 c2 v2 :
  wf c -> ways c < 2 ^ 64 -> pol c = Linear ec ->
  linear_victimize c ec a1 = Ok (c1, v1) -> pol c1 = Linear ec1 ->
  set_index c a2 = set_index c a1 ->
  linear_victimize c1 ec1 a2 = Ok (c2, v2) ->
  way_tag c1 (set_index c a1) (candidate ec (set_index c a1)) = tag_of c a1 /\
  candidate ec1 (set_index c a1) = (candidate ec (set_index c a1) + 1) mod ways c /\
  way_tag c2 (set_index c a1) ((candidate ec (set_index c a1) + 1) mod ways c)
    = tag_of c a2 /\
  (2 <= ways c ->
   way_tag c2 (set_index c a1) (candidate ec (set_index c a1)) = tag_of c a1).
Proof.
  intros Hwf Hw64 Hp H1 Hp1 Hidx H2.
  pose proof (wf_ways c Hwf) as Hw0.
  pose proof (wf_pol c Hwf) as Hec. rewrite Hp in Hec.
  pose proof (set_index_range c a1 Hwf) as Hr.
  set (idx := set_index c a1) in *. set (w := candidate ec idx).
  unfold linear_victimize in H1. fold idx in H1. fold w in H1.
  destruct (Z.eqb_spec (ways c) 0) as [|Hne]; [discriminate|].
  injection H1 as <- <-. cbn [set_tags set_pol pol] in Hp1.
  injection Hp1 as <-.
  assert (Hwr : 0 <= w < ways c).
  { unfold w, candidate. destruct (ec !! idx) eqn:E; cbn.
    - eapply Hec. eassumption.
    - lia. }
  assert (Hwrap : wrap64 (w + 1) = w + 1)
    by (apply wrap64_small; unfold uint64; lia).
  assert (Hw2 : 0 <= (w + 1) mod ways c < ways c)
    by (apply Z.mod_pos_bound; lia).
  pose proof (slot_index_range c idx w Hwf Hr Hwr) as R1.
  pose proof (slot_index_range c idx _ Hwf Hr Hw2) as R2.
  unfold linear_victimize in H2.
  cbn [set_tags set_pol ways tags] in H2.
  change (set_index (set_tags _ _) a2) with (set_index c a2) in H2.
  change (tag_of (set_tags _ _) a2) with (tag_of c a2) in H2.
  rewrite Hidx in H2. fold idx in H2.
  assert (Hc1 : candidate (<[idx := wrap64 (w + 1) mod ways c]> ec) idx
                = (w + 1) mod ways c).
  { unfold candidate. rewrite lookup_insert_eq, Hwrap. reflexivity. }
  rewrite Hc1 in H2.
  destruct (ways c =? 0); [discriminate|]. injection H2 as <- <-.
  unfold way_tag. cbn [set_tags set_pol ways tags].
  split; [apply tag_at_store_same; assumption|].
  split; [exact Hc1|].
  split.
  - apply tag_at_store_same. rewrite length_tag_store. assumption.
  - intros H2w. rewrite tag_at_store_other; [apply tag_at_store_same; assumption|lia|lia|].
    assert ((w + 1) mod ways c <> w).
    { destruct (Z.eq_dec (w + 1) (ways c)) as [E|E].
      - rewrite E, Z.mod_same by lia. lia.
      - rewrite Z.mod_small by lia. lia. }
    nia.
Qed.


(** X17.  With the random policy the LFSR advances once on every miss
    and never on a hit. *)
Theorem random_policy_draws_once_per_miss pc c addr bytes store c' evs :
  wf c -> no_duplicate_tags c -> uint64 addr -> pol c = Random ->
  access pc c addr bytes store = Ok (c', evs) ->
  lfsr c' = match lookup c addr with
            | Some _ => lfsr c
            | None => (lfsr_next (lfsr c)).1
            end.
Proof.
  intros Hwf Hnd Ha Hp H.
  apply access_Ok_inv in H as (c1 & r & ev1 & Hct & H).
  assert (Hp0 : pol (count_access store bytes c) = Random) by exact Hp.
  unfold check_tag in Hct. rewrite Hp0 in Hct. injection Hct as <- <- <-.
  change (base_check_tag (count_access store bytes c) addr)
    with (base_check_tag c addr) in H.
  unfold lookup. rewrite Hp.
  assert (Hmd : forall p cz, lfsr (mark_dirty p cz) = lfsr cz).
  { intros [j|k] cz; unfold mark_dirty; [reflexivity|].
    destruct (pol cz); try reflexivity. destruct (om_find k fa_tags); reflexivity. }
  destruct H as [(p & -> & -> & ->)|(-> & c2 & victim & ev2 & Hv & H)].
  - destruct store; [rewrite Hmd|]; reflexivity.
  - unfold victimize in Hv. cbn [count_miss count_access pol] in Hv.
    rewrite Hp in Hv.
    destruct (base_victimize _ addr) as [[c2' v2]|] eqn:E; [|discriminate].
    cbn [res_bind] in Hv. injection Hv as -> -> <-.
    assert (Hl2 : lfsr c2 = (lfsr_next (lfsr c)).1).
    { unfold base_victimize in E. cbn [lfsr_next] in E.
      destruct (ways _ =? 0); [discriminate|]. injection E as <- <-. reflexivity. }
    assert (Hp2 : pol c2 = Random).
    { unfold base_victimize in E. cbn [lfsr_next] in E.
      destruct (ways _ =? 0); [discriminate|]. injection E as <- <-. exact Hp. }
    cbn zeta in H.
    set (c3 := if valid victim && dirty victim then count_writeback c2 else c2) in *.
    assert (E3 : lfsr c3 = lfsr c2 /\ pol c3 = Random)
      by (subst c3; destruct (valid victim && dirty victim); split; assumption || reflexivity).
    destruct E3 as [L3 P3].
    destruct H as [(_ & -> & _)|(_ & c4 & p & ev3 & Hct2 & -> & _)]; [congruence|].
    unfold check_tag in Hct2. rewrite P3 in Hct2. injection Hct2 as <- _ _.
    rewrite Hmd. congruence.
Qed.

End order_of_replacement.

(* ===================================================================== *)
(** ** The sampler of a Hawkeye set is an LRU stack *)
(* ===================================================================== *)

Section omap_erase.
Context {V : Type}.
Implicit Types m : omap V.

Lemma om_In_find lo k v m :
  om_sorted_from lo m -> In (k, v) m -> om_find k m = Some v.
Proof.
  revert lo. induction m as [|[k' v'] m IH]; intros lo; cbn; [tauto|].
  intros [Hlt Hs] [E|Hin].
  - injection E as -> ->. rewrite Z.eqb_refl. reflexivity.
  - destruct (Z.eqb_spec k' k) as [->|Hne].
    + apply om_sorted_from_keys in Hs. rewrite Forall_forall in Hs.
      assert (Hk : k ∈ om_keys m).
      { unfold om_keys. apply list_elem_of_fmap. exists (k, v).
        split; [reflexivity|]. apply list_elem_of_In. assumption. }
      apply Hs in Hk. lia.
    + eapply IH; eassumption.
Qed.

Lemma om_find_erase_same lo k m :
  om_sorted_from lo m -> om_find k (om_erase k m) = None.
Proof.
  revert lo. induction m as [|[k' v'] m IH]; intros lo; cbn; [reflexivity|].
  intros [Hlt Hs]. destruct (Z.eqb_spec k' k) as [->|Hne].
  - destruct (om_find k m) as [v|] eqn:E; [|reflexivity].
    apply om_find_In in E. apply om_sorted_from_keys in Hs.
    rewrite Forall_forall in Hs.
    assert (Hk : k ∈ om_keys m).
    { unfold om_keys. apply list_elem_of_fmap. exists (k, v).
      split; [reflexivity|]. apply list_elem_of_In. assumption. }
    apply Hs in Hk. lia.
  - cbn. destruct (Z.eqb_spec k' k); [contradiction|]. eapply IH; eassumption.
Qed.

Lemma om_find_erase_other k k' m :
  k <> k' -> om_find k' (om_erase k m) = om_find k' m.
Proof.
  intros Hne. induction m as [|[k0 v0] m IH]; cbn; [reflexivity|].
  destruct (Z.eqb_spec k0 k) as [->|Hk0].
  - destruct (Z.eqb_spec k k'); [contradiction|reflexivity].
  - cbn. rewrite IH. reflexivity.
Qed.

Lemma om_size_erase k v m :
  om_find k m = Some v -> om_size (om_erase k m) = om_size m - 1.
Proof.
  unfold om_size. induction m as [|[k0 v0] m IH]; cbn [om_find om_erase];
    [discriminate|].
  destruct (Z.eqb_spec k0 k) as [->|Hk0]; intros H.
  - cbn [length]. lia.
  - specialize (IH H). cbn [length]. destruct m; cbn [length] in *; lia.
Qed.

Lemma om_size_set_new k v m :
  om_find k m = None -> om_size (om_set k v m) = om_size m + 1.
Proof.
  unfold om_size. induction m as [|[k0 v0] m IH]; cbn [om_find om_set];
    [cbn; lia|].
  destruct (Z.eqb_spec k0 k) as [->|Hk0]; [discriminate|]. intros H.
  destruct (k <? k0); [cbn [length]; lia|].
  destruct (Z.eqb_spec k k0); [congruence|].
  specialize (IH H). cbn [length]. lia.
Qed.

Lemma om_size_set_old lo k v m :
  om_sorted_from lo m -> is_Some (om_find k m) ->
  om_size (om_set k v m) = om_size m.
Proof.
  intros Hs Hf. unfold om_size.
  rewrite (om_sorted_find_set_length lo k v m Hs Hf). reflexivity.
Qed.

End omap_erase.

Section sampler.
Context {deps : hawkeye_deps}.
Implicit Types c : cache_sim_t.
Implicit Types m : omap ADDR_INFO.

Lemma om_find_update k m curr :
  om_find k (update_addr_history_lru m curr) = lru_bump curr <$> om_find k m.
Proof.
  unfold update_addr_history_lru, lru_bump.
  induction m as [|[k' a] m IH]; cbn; [reflexivity|].
  destruct (lru a <? curr) eqn:E; cbn; destruct (k' =? k); cbn; rewrite ?E; auto.
Qed.

Lemma om_sorted_update lo m curr :
  om_sorted_from lo m -> om_sorted_from lo (update_addr_history_lru m curr).
Proof.
  unfold update_addr_history_lru.
  revert lo. induction m as [|[k' a] m IH]; intros lo; cbn; [tauto|].
  intros [Hlt Hs]. destruct (lru a <? curr); cbn; split; auto.
Qed.

Lemma om_size_update m curr :
  om_size (update_addr_history_lru m curr) = om_size m.
Proof.
  unfold om_size, update_addr_history_lru. rewrite length_map. reflexivity.
Qed.

(* A full stack has an entry at its last position. *)
Lemma lru_stack_top c m :
  lru_stack c m -> 0 < om_size m ->
  exists e,
    List.find (fun e : Z * ADDR_INFO => lru (snd e) =? om_size m - 1) m = Some e /\
    om_find (fst e) m = Some (snd e) /\ lru (snd e) = om_size m - 1.
Proof.
  intros (Hs & _ & Hrange & Hinj) Hpos.
  assert (Hnd : NoDup ((fun e : Z * ADDR_INFO => lru (snd e)) <$> m)).
  { apply NoDup_fmap_2_strong.
    - intros [k1 v1] [k2 v2] H1 H2 E. cbn in E.
      apply list_elem_of_In, (om_In_find _ _ _ _ Hs) in H1.
      apply list_elem_of_In, (om_In_find _ _ _ _ Hs) in H2.
      assert (k1 = k2) by (eapply Hinj; eassumption). subst k2.
      congruence.
    - apply om_sorted_from_NoDup in Hs. unfold om_keys in Hs.
      eapply NoDup_fmap_1. exact Hs. }
  assert (Hin : om_size m - 1 ∈ (fun e : Z * ADDR_INFO => lru (snd e)) <$> m).
  { destruct (decide (om_size m - 1 ∈ (fun e : Z * ADDR_INFO => lru (snd e)) <$> m))
      as [|Hno]; [assumption|exfalso].
    assert (Hsub : (fun e : Z * ADDR_INFO => lru (snd e)) <$> m
                   ⊆+ seqZ 0 (om_size m - 1)).
    { apply NoDup_submseteq; [assumption|].
      intros x Hx. pose proof Hx as Hx'.
      apply list_elem_of_fmap in Hx as ([k v] & -> & Hkv). cbn in *.
      apply list_elem_of_In, (om_In_find _ _ _ _ Hs), Hrange in Hkv.
      apply elem_of_seqZ.
      assert (lru v <> om_size m - 1) by (intros E; apply Hno; rewrite <- E; exact Hx').
      lia. }
    apply submseteq_length in Hsub.
    rewrite length_fmap, length_seqZ in Hsub. unfold om_size in *. lia. }
  apply list_elem_of_fmap in Hin as (e0 & He0 & Hin0).
  destruct (List.find (fun e : Z * ADDR_INFO => lru (snd e) =? om_size m - 1) m)
    as [e|] eqn:Ef.
  - apply find_some in Ef as [Hine Hl]. apply Z.eqb_eq in Hl.
    exists e. split; [reflexivity|]. split; [|assumption].
    destruct e as [k v]. eapply om_In_find; eassumption.
  - exfalso. apply list_elem_of_In in Hin0.
    pose proof (find_none _ _ Ef _ Hin0) as Hn. cbn in Hn.
    apply Z.eqb_neq in Hn. congruence.
Qed.

(* The last two statements of the sampler code: the entry of the line is
   rewritten and goes to position 0. *)
Lemma restack_tail c tag x m :
  -1 < tag ->
  om_sorted_from (-1) m -> is_Some (om_find tag m) -> om_size m <= ways c ->
  (forall k v, k <> tag -> om_find k m = Some v -> 0 < lru v < om_size m) ->
  (forall k1 v1 k2 v2, k1 <> tag -> k2 <> tag ->
     om_find k1 m = Some v1 -> om_find k2 m = Some v2 ->
     lru v1 = lru v2 -> k1 = k2) ->
  lru_stack c (om_set tag (set_lru 0 (om_at tag (om_set tag x m))) (om_set tag x m)).
Proof.
  intros Htag Hs Hf Hsz Hrange Hinj.
  set (m2 := om_set tag x m).
  assert (Hs2 : om_sorted_from (-1) m2) by (apply om_sorted_from_set; assumption).
  assert (Hf2 : is_Some (om_find tag m2))
    by (unfold m2; rewrite om_find_set_same; eauto).
  assert (Hsz2 : om_size m2 = om_size m)
    by (eapply om_size_set_old; eassumption).
  set (v3 := set_lru 0 (om_at tag m2)).
  assert (Hsz3 : om_size (om_set tag v3 m2) = om_size m)
    by (rewrite <- Hsz2; eapply om_size_set_old; eassumption).
  assert (Hpos : 0 < om_size m).
  { destruct Hf as [v Hv]. unfold om_size. destruct m; [discriminate|].
    cbn [length]. lia. }
  assert (Hfind : forall k, om_find k (om_set tag v3 m2) =
                            if decide (k = tag) then Some v3 else om_find k m).
  { intros k. destruct (decide (k = tag)) as [->|Hne].
    - apply om_find_set_same.
    - rewrite om_find_set_other by congruence. unfold m2.
      rewrite om_find_set_other by congruence. reflexivity. }
  unfold lru_stack. rewrite Hsz3.
  split; [apply om_sorted_from_set; assumption|].
  split; [assumption|]. split.
  - intros k v. rewrite Hfind. destruct (decide (k = tag)) as [->|Hne].
    + intros [= <-]. cbn. lia.
    + intros H. apply Hrange in H; [lia|assumption].
  - intros k1 v1 k2 v2. rewrite !Hfind.
    destruct (decide (k1 = tag)) as [->|H1], (decide (k2 = tag)) as [->|H2].
    + reflexivity.
    + intros [= <-] H E. apply Hrange in H; [|assumption]. cbn in E. lia.
    + intros H [= <-] E. apply Hrange in H; [|assumption]. cbn in E. lia.
    + apply Hinj; assumption.
Qed.

Lemma restack_hit c tag info x m :
  ways c < 2 ^ 32 -> -1 < tag -> lru_stack c m -> om_find tag m = Some info ->
  let m1 := update_addr_history_lru m (lru info) in
  lru_stack c (om_set tag (set_lru 0 (om_at tag (om_set tag x m1))) (om_set tag x m1)).
Proof.
  intros Hw Htag (Hs & Hsz & Hrange & Hinj) Hf m1.
  pose proof (Hrange _ _ Hf) as Hri.
  assert (Hb : forall k v, om_find k m = Some v ->
                 lru (lru_bump (lru info) v)
                 = if lru v <? lru info then lru v + 1 else lru v).
  { intros k v H. apply Hrange in H. unfold lru_bump.
    destruct (Z.ltb_spec (lru v) (lru info)); [|reflexivity].
    cbn. unfold wrap32. rewrite Z.mod_small; lia. }
  apply restack_tail; try assumption.
  - apply om_sorted_update. assumption.
  - unfold m1. rewrite om_find_update, Hf. cbn. eauto.
  - unfold m1. rewrite om_size_update. assumption.
  - intros k v Hne. unfold m1. rewrite om_find_update, om_size_update.
    destruct (om_find k m) as [v0|] eqn:E; [|discriminate].
    cbn. intros [= <-]. rewrite (Hb _ _ E). pose proof (Hrange _ _ E) as R.
    assert (lru v0 <> lru info) by (intros El; apply Hne; eapply Hinj; eassumption).
    destruct (Z.ltb_spec (lru v0) (lru info)); lia.
  - intros k1 v1 k2 v2 H1 H2. unfold m1. rewrite !om_find_update.
    destruct (om_find k1 m) as [a1|] eqn:E1; [|discriminate].
    destruct (om_find k2 m) as [a2|] eqn:E2; [|discriminate].
    cbn. intros [= <-] [= <-]. rewrite (Hb _ _ E1), (Hb _ _ E2).
    assert (lru a1 <> lru info) by (intros El; apply H1; eapply Hinj; eassumption).
    assert (lru a2 <> lru info) by (intros El; apply H2; eapply Hinj; eassumption).
    intros E. eapply Hinj; [exact E1|exact E2|].
    destruct (Z.ltb_spec (lru a1) (lru info)), (Z.ltb_spec (lru a2) (lru info)); lia.
Qed.

Lemma restack_miss c tag q x m :
  0 < ways c < 2 ^ 32 -> -1 < tag -> lru_stack c m -> om_find tag m = None ->
  let m' := if om_size m =? ways c then replace_addr_history_element c m else m in
  let m'' := om_set tag (ADDR_INFO_init (om_at tag m') q) m' in
  let m1 := update_addr_history_lru m'' (wrap32 (ways c - 1)) in
  lru_stack c (om_set tag (set_lru 0 (om_at tag (om_set tag x m1))) (om_set tag x m1)).
Proof.
  intros Hw Htag Hst Hf m' m'' m1.
  assert (Hw32 : wrap32 (ways c - 1) = ways c - 1)
    by (unfold wrap32; rewrite Z.mod_small; lia).
  assert (Hw64 : wrap64 (ways c - 1) = ways c - 1)
    by (apply wrap64_small; unfold uint64; lia).
  (* the stack after making room *)
  assert (H' : om_sorted_from (-1) m' /\ om_size m' <= ways c - 1 /\
               om_find tag m' = None /\
               (forall k v, om_find k m' = Some v -> 0 <= lru v < om_size m') /\
               (forall k1 v1 k2 v2,
                  om_find k1 m' = Some v1 -> om_find k2 m' = Some v2 ->
                  lru v1 = lru v2 -> k1 = k2)).
  { pose proof Hst as (Hs & Hsz & Hrange & Hinj). unfold m'.
    destruct (Z.eqb_spec (om_size m) (ways c)) as [Hfull|Hnf].
    - destruct (lru_stack_top c m Hst) as (e & Efind & Ee & El); [lia|].
      unfold replace_addr_history_element. rewrite Hw64, <- Hfull, Efind.
      assert (Hother : forall k, k <> fst e ->
                om_find k (om_erase (fst e) m) = om_find k m)
        by (intros k Hk; apply om_find_erase_other; congruence).
      assert (Hgone : om_find (fst e) (om_erase (fst e) m) = None)
        by (eapply om_find_erase_same; eassumption).
      assert (Hkeep : forall k v, om_find k (om_erase (fst e) m) = Some v ->
                k <> fst e /\ om_find k m = Some v).
      { intros k v H. destruct (Z.eq_dec k (fst e)) as [->|Hne]; [congruence|].
        rewrite Hother in H by assumption. auto. }
      rewrite (om_size_erase _ _ _ Ee).
      split; [apply om_sorted_from_erase; assumption|].
      split; [lia|]. split.
      { destruct (Z.eq_dec tag (fst e)) as [->|Hne]; [assumption|].
        rewrite Hother by assumption. assumption. }
      split.
      + intros k v H. apply Hkeep in H as [Hne H].
        pose proof (Hrange _ _ H) as R.
        assert (lru v <> lru (snd e)) by (intros E; apply Hne; eapply Hinj; eassumption).
        lia.
      + intros k1 v1 k2 v2 H1 H2. apply Hkeep in H1 as [_ H1].
        apply Hkeep in H2 as [_ H2]. eapply Hinj; eassumption.
    - split; [assumption|]. split; [lia|]. split; [assumption|]. auto. }
  destruct H' as (Hs' & Hsz' & Hf' & Hrange' & Hinj').
  assert (Hb : forall k v, om_find k m' = Some v ->
                 lru (lru_bump (ways c - 1) v) = lru v + 1).
  { intros k v H. apply Hrange' in H. unfold lru_bump.
    destruct (Z.ltb_spec (lru v) (ways c - 1)); [|lia].
    cbn. unfold wrap32. rewrite Z.mod_small; lia. }
  assert (Hsz1 : om_size m1 = om_size m' + 1).
  { unfold m1. rewrite om_size_update. unfold m''.
    apply om_size_set_new. assumption. }
  assert (Hfind1 : forall k, k <> tag ->
            om_find k m1 = lru_bump (ways c - 1) <$> om_find k m').
  { intros k Hne. unfold m1. rewrite om_find_update, Hw32. unfold m''.
    rewrite om_find_set_other by congruence. reflexivity. }
  apply restack_tail; try assumption.
  - unfold m1. apply om_sorted_update. unfold m''.
    apply om_sorted_from_set; assumption.
  - unfold m1. rewrite om_find_update. unfold m''.
    rewrite om_find_set_same. cbn. eauto.
  - lia.
  - intros k v Hne. rewrite (Hfind1 _ Hne), Hsz1.
    destruct (om_find k m') as [v0|] eqn:E; [|discriminate].
    cbn. intros [= <-]. rewrite (Hb _ _ E). pose proof (Hrange' _ _ E). lia.
  - intros k1 v1 k2 v2 H1 H2. rewrite (Hfind1 _ H1), (Hfind1 _ H2).
    destruct (om_find k1 m') as [a1|] eqn:E1; [|discriminate].
    destruct (om_find k2 m') as [a2|] eqn:E2; [|discriminate].
    cbn. intros [= <-] [= <-]. rewrite (Hb _ _ E1), (Hb _ _ E2).
    intros E. eapply Hinj'; [exact E1|exact E2|lia].
Qed.

Lemma tag_of_positive c addr : wf c -> uint64 addr -> -1 < tag_of c addr.
Proof.
  intros Hwf Ha. pose proof (line_of_range c addr Hwf Ha) as Hp.
  rewrite tag_of_line.
  assert (0 <= Z.lor (line_of c addr) VALID); [|lia].
  apply Z.lor_nonneg. split; [lia|]. unfold VALID. apply Z.shiftl_nonneg. lia.
Qed.

(* The sampling part of [check_tag] keeps every sampler an LRU stack. *)
Lemma hawkeye_sample_stack pc c h addr :
  wf c -> 0 < ways c < 2 ^ 32 -> uint64 addr ->
  Forall (lru_stack c) (addr_history h) ->
  Forall (lru_stack c) (addr_history (hawkeye_sample pc c h addr).1.1).
Proof.
  intros Hwf Hw Ha Hall.
  pose proof (tag_of_positive c addr Hwf Ha) as Htag.
  assert (Hst : lru_stack c
            (default [] (addr_history h !! Z.to_nat (wrap32 (set_index c addr))))).
  { destruct (addr_history h !! _) as [m|] eqn:E; cbn.
    - rewrite Forall_lookup in Hall. eapply Hall. eassumption.
    - unfold lru_stack, om_size. cbn. split; [exact I|]. split; [lia|].
      split; intros; discriminate. }
  unfold hawkeye_sample.
  set (m := default [] (addr_history h !! Z.to_nat (wrap32 (set_index c addr)))) in *.
  destruct (om_find (tag_of c addr) m) as [info|] eqn:Ef.
  - destruct (OPTGEN_VECTOR_SIZE <? _);
      [|destruct (should_cache _ _ _) as [[] ?]];
      cbn [fst snd addr_history];
      (apply Forall_insert; [assumption|];
       apply restack_hit; [lia|assumption..]).
  - cbn [fst snd addr_history].
    apply Forall_insert; [assumption|].
    apply restack_miss; assumption.
Qed.

(* ... and leaves the line at the front of the sampler of its set. *)
Lemma hawkeye_sample_front pc c h addr :
  (Z.to_nat (wrap32 (set_index c addr)) < length (addr_history h))%nat ->
  exists info,
    om_find (tag_of c addr)
      (sampler_of c (hawkeye_sample pc c h addr).1.1 addr) = Some info /\
    lru info = 0.
Proof.
  intros Hlen. unfold sampler_of, hawkeye_sample.
  set (m := default [] (addr_history h !! Z.to_nat (wrap32 (set_index c addr)))) in *.
  destruct (om_find (tag_of c addr) m) as [info|] eqn:Ef.
  - destruct (OPTGEN_VECTOR_SIZE <? _);
      [|destruct (should_cache _ _ _) as [[] ?]];
      cbn [fst snd addr_history];
      rewrite list_lookup_insert_eq by assumption;
      unfold default; cbn [from_option id]; rewrite om_find_set_same;
      eexists; split; reflexivity.
  - cbn [fst snd addr_history].
    rewrite list_lookup_insert_eq by assumption.
    unfold default. cbn [from_option id]. rewrite om_find_set_same.
    eexists; split; reflexivity.
Qed.

End sampler.

Section sampler_runs.
Context {deps : hawkeye_deps}.
Implicit Types c : cache_sim_t.

Lemma lru_stack_ext c c' m : ways c' = ways c -> lru_stack c m -> lru_stack c' m.
Proof. unfold lru_stack. intros ->. tauto. Qed.

Lemma samplers_ok_ext c c' :
  ways c' = ways c -> pol c' = pol c -> samplers_ok c -> samplers_ok c'.
Proof.
  unfold samplers_ok. intros Hw ->. destruct (pol c); auto.
  intros H. eapply Forall_impl; [exact H|]. intros m. apply lru_stack_ext. exact Hw.
Qed.

Lemma check_tag_samplers pc c addr c1 r evs :
  check_tag pc c addr = (c1, r, evs) ->
  wf c -> 0 < ways c < 2 ^ 32 -> uint64 addr ->
  samplers_ok c -> samplers_ok c1.
Proof.
  intros H Hwf Hw Ha Hok. destruct (pol c) as [|m|ec|h] eqn:Hp.
  1-3: unfold check_tag in H; rewrite Hp in H; injection H as <- _ _; exact Hok.
  destruct (check_tag_hawkeye pc c h addr Hp) as (h2 & E & _ & Eh & _).
  rewrite E in H. injection H as <- _ _.
  unfold samplers_ok in *. rewrite Hp in Hok. cbn [set_pol pol]. rewrite Eh.
  exact (hawkeye_sample_stack pc c h addr Hwf Hw Ha Hok).
Qed.

Lemma victimize_samplers pc c addr c1 v evs :
  victimize pc c addr = Ok (c1, v, evs) -> samplers_ok c -> samplers_ok c1.
Proof.
  unfold victimize, samplers_ok. destruct (pol c) as [|m|ec|h] eqn:Hp.
  - unfold base_victimize. cbn [lfsr_next]. destruct (ways c =? 0); [discriminate|].
    cbn [res_bind]. intros [= <- <- <-]. cbn [set_tags set_lfsr pol]. rewrite Hp. auto.
  - unfold fa_victimize. destruct (om_size m =? ways c).
    + cbn [lfsr_next]. destruct (ways c =? 0); [discriminate|].
      destruct (m !! _) as [[k old]|]; [|discriminate].
      cbn [res_bind]. intros [= <- <- <-]. auto.
    + cbn [res_bind]. intros [= <- <- <-]. auto.
  - unfold linear_victimize. destruct (ways c =? 0); [discriminate|].
    cbn [res_bind]. intros [= <- <- <-]. auto.
  - unfold hawkeye_victimize. destruct (find_max_rrpv _ _ _).
    + intros [= <- <- <-]. cbn [set_tags pol]. rewrite Hp. auto.
    + destruct (_ <? 0); [discriminate|]. intros [= <- <- <-] Hb.
      cbn [set_tags set_pol pol set_predictor set_rrpv set_signatures addr_history].
      exact Hb.
Qed.

Lemma mark_dirty_samplers p c : samplers_ok c -> samplers_ok (mark_dirty p c).
Proof.
  unfold samplers_ok. destruct p as [i|k]; unfold mark_dirty; [auto|].
  destruct (pol c) eqn:Hp; rewrite ?Hp; auto.
  destruct (om_find k fa_tags); cbn [set_pol pol]; rewrite ?Hp; auto.
Qed.

Lemma access_samplers pc c addr bytes store c' evs :
  wf c -> no_duplicate_tags c -> 0 < ways c < 2 ^ 32 -> uint64 addr ->
  access pc c addr bytes store = Ok (c', evs) ->
  samplers_ok c -> samplers_ok c'.
Proof.
  intros Hwf Hnd Hw Ha H Hb. apply access_Ok_inv in H as (c1 & r & ev1 & Hct & H).
  destruct (counters_keep c (count_access store bytes c)) as (Hwf0 & Hnd0 & Hl0);
    try assumption; try reflexivity; [repeat split|].
  pose proof (check_tag_spec _ _ _ _ _ _ Hct)
    as (Hr & Hf1 & Ht1 & _ & Hk1 & _ & Hwf1 & _).
  specialize (Hwf1 Hwf0).
  pose proof (check_tag_no_duplicate _ _ _ _ _ _ Hct Hnd0) as Hnd1.
  pose proof (check_tag_lookup _ _ _ _ _ _ addr Hct) as Hl1.
  assert (Hw1 : ways c1 = ways c) by (destruct Hf1 as ((_ & E & _) & _); exact E).
  apply check_tag_samplers in Hct; try assumption.
  destruct H as [(p & -> & -> & ->)|(-> & c2 & victim & ev2 & Hv & H)].
  - destruct store; [apply mark_dirty_samplers|]; assumption.
  - destruct (counters_keep c1 (count_miss store c1)) as (Hwfm & Hndm & Hlm);
      try assumption; try reflexivity; [repeat split|].
    pose proof Hv as Hv'.
    apply victimize_spec in Hv' as (Hwf2 & Hnd2 & _ & ((_ & Hw2 & _) & _) & _);
      try assumption; [|rewrite Hlm, Hl1; congruence].
    cbn [count_miss ways] in Hw2.
    apply victimize_samplers in Hv; [|exact Hct]. cbn zeta in H.
    set (c3 := if valid victim && dirty victim then count_writeback c2 else c2) in *.
    assert (H3 : samplers_ok c3 /\ wf c3 /\ ways c3 = ways c2).
    { subst c3. destruct (valid victim && dirty victim); [|auto].
      split; [exact Hv|]. split; [|reflexivity].
      eapply wf_ext; try eassumption; try reflexivity. repeat split. }
    destruct H3 as (H3 & Hwf3 & Hw3).
    destruct H as [(_ & -> & _)|(_ & c4 & p & ev3 & Hct2 & -> & _)];
      [assumption|].
    apply mark_dirty_samplers. eapply check_tag_samplers; try eassumption.
    rewrite Hw3, Hw2, Hw1. assumption.
Qed.

Lemma constructed_samplers c : constructed c -> 0 < ways c -> samplers_ok c.
Proof.
  intros (s & w & l & n & _ & _ & _ & _ & H) Hw. unfold samplers_ok.
  destruct H as [H|[[_ H]|[H|H]]]; apply init_inv in H as [_ E];
    rewrite E in Hw |- *; cbn [pol ways] in *; try exact I.
  unfold hawkeye_new_state. cbn [addr_history].
  apply Forall_replicate. unfold lru_stack, om_size. cbn [ways length om_sorted_from].
  split; [exact I|]. split; [lia|]. split; intros; discriminate.
Qed.

(** X18.  The sampler of every set of a Hawkeye cache stays an LRU stack
    along every stream of accesses: it never holds more than [ways]
    lines, and the [lru] fields of its [n] lines are distinct positions
    below [n].  So a full sampler always has a line with [lru = ways-1]
    for [replace_addr_history_element] to erase. *)
Theorem sampler_stays_an_lru_stack c0 reqs c evs h :
  constructed c0 -> 0 < ways c0 < 2 ^ 32 -> well_typed reqs ->
  run c0 reqs = Ok (c, evs) -> pol c = Hawkeye h ->
  Forall (lru_stack c) (addr_history h) /\
  Forall (fun m => om_size m = ways c ->
            is_Some (List.find
                       (fun e : Z * ADDR_INFO => lru (snd e) =? wrap64 (ways c - 1))
                       m))
         (addr_history h).
Proof.
  intros Hc Hw Hty Hrun Hp.
  pose proof (constructed_samplers _ Hc (proj1 Hw)) as Hok.
  apply constructed_inv in Hc as [Hwf Hnd].
  assert (Hways : ways c = ways c0).
  { destruct (run_inv _ _ _ _ Hwf Hnd Hty Hrun) as (_ & _ & ((_ & E & _) & _)).
    exact E. }
  assert (G : samplers_ok c).
  { clear Hp h Hways. revert c0 evs Hw Hok Hwf Hnd Hrun.
    induction reqs as [|[[[pc addr] bytes] store] reqs IH];
      intros c0 evs Hw Hok Hwf Hnd; cbn [run].
    - intros [= <- <-]. assumption.
    - inversion Hty as [|? ? Hty1 Hty2]; subst. cbn in Hty1.
      destruct (access pc c0 addr bytes store) as [[c1 ev1]|] eqn:Ha; [|discriminate].
      cbn [res_bind].
      destruct (run c1 reqs) as [[c2 ev2]|] eqn:Hr; [|discriminate].
      cbn [res_bind]. intros [= <- <-].
      pose proof (access_samplers _ _ _ _ _ _ _ Hwf Hnd Hw Hty1 Ha Hok) as Hok1.
      apply access_inv in Ha as (Hwf1 & Hnd1 & _ & ((_ & E & _) & _)); try assumption.
      eapply (IH Hty2 c1); try eassumption. lia. }
  unfold samplers_ok in G. rewrite Hp in G. split; [exact G|].
  eapply Forall_impl; [exact G|]. cbn beta. intros m Hst Hfull.
  destruct (lru_stack_top c m Hst) as (e & Ef & _); [lia|].
  rewrite wrap64_small by (unfold uint64; lia).
  rewrite <- Hfull, Ef. eauto.
Qed.

Lemma mark_dirty_hawkeye p c h :
  pol c = Hawkeye h -> pol (mark_dirty p c) = Hawkeye h /\
  same_geometry c (mark_dirty p c).
Proof.
  intros Hp. destruct p as [i|k]; unfold mark_dirty; [split; [exact Hp|repeat split]|].
  rewrite Hp. split; [exact Hp|repeat split].
Qed.

(** X19.  After an access to a Hawkeye cache the line accessed is in the
    sampler of its set, at LRU position 0. *)
Theorem accessed_line_is_most_recent pc c h addr bytes store c' evs h' :
  wf c -> no_duplicate_tags c -> uint64 addr -> pol c = Hawkeye h ->
  access pc c addr bytes store = Ok (c', evs) -> pol c' = Hawkeye h' ->
  exists info,
    om_find (tag_of c addr) (sampler_of c h' addr) = Some info /\ lru info = 0.
Proof.
  intros Hwf Hnd Ha Hp H Hp'.
  assert (Hidx : forall c1 h1, wf c1 -> pol c1 = Hawkeye h1 ->
            (Z.to_nat (wrap32 (set_index c1 addr)) < length (addr_history h1))%nat).
  { intros c1 h1 Hwf1 Hp1. pose proof (wf_pol c1 Hwf1) as Hh. rewrite Hp1 in Hh.
    destruct Hh as (_ & _ & _ & _ & _ & _ & _ & Hlen). rewrite Hlen.
    pose proof (set_index_range c1 addr Hwf1) as R.
    assert (0 <= wrap32 (set_index c1 addr) <= set_index c1 addr).
    { unfold wrap32. split; [apply Z.mod_pos_bound; lia|].
      apply Z.mod_le; lia. }
    lia. }
  assert (Step : forall c0 h0 c1 r ev,
            wf c0 -> same_geometry c c0 -> pol c0 = Hawkeye h0 ->
            check_tag pc c0 addr = (c1, r, ev) ->
            exists h1, pol c1 = Hawkeye h1 /\ same_geometry c c1 /\
              exists info,
                om_find (tag_of c addr) (sampler_of c h1 addr) = Some info /\
                lru info = 0).
  { intros c0 h0 c1 r ev Hwf0 Hg0 Hp0 Hct.
    destruct (check_tag_hawkeye pc c0 h0 addr Hp0) as (h2 & E & _ & Eh & _).
    rewrite E in Hct. injection Hct as <- _ _. exists h2.
    split; [reflexivity|]. split; [exact Hg0|].
    rewrite <- (tag_of_ext c c0 addr Hg0). unfold sampler_of.
    rewrite <- (set_index_ext c c0 addr Hg0), Eh.
    apply hawkeye_sample_front. eapply Hidx; eassumption. }
  apply access_Ok_inv in H as (c1 & r & ev1 & Hct & H).
  destruct (counters_keep c (count_access store bytes c)) as (Hwf0 & Hnd0 & Hl0);
    try assumption; try reflexivity; [repeat split|].
  pose proof (check_tag_spec _ _ _ _ _ _ Hct)
    as (Hr & Hf1 & Ht1 & _ & Hk1 & _ & Hwf1 & _).
  specialize (Hwf1 Hwf0).
  pose proof (check_tag_no_duplicate _ _ _ _ _ _ Hct Hnd0) as Hnd1.
  pose proof (check_tag_lookup _ _ _ _ _ _ addr Hct) as Hl1.
  destruct (Step _ h _ _ _ Hwf0 (same_geometry_refl c) Hp Hct)
    as (h1 & Hp1 & Hg1 & Hi1).
  destruct H as [(p & -> & -> & ->)|(-> & c2 & victim & ev2 & Hv & H)].
  - destruct store.
    + destruct (mark_dirty_hawkeye p c1 h1 Hp1) as [E _].
      rewrite E in Hp'. injection Hp' as <-. exact Hi1.
    + rewrite Hp1 in Hp'. injection Hp' as <-. exact Hi1.
  - destruct (counters_keep c1 (count_miss store c1)) as (Hwfm & Hndm & Hlm);
      try assumption; try reflexivity; [repeat split|].
    pose proof Hv as Hv'.
    apply victimize_spec in Hv' as (Hwf2 & Hnd2 & _ & (Hg2 & _) & _);
      try assumption; [|rewrite Hlm, Hl1; congruence].
    destruct (victimize_hawkeye pc (count_miss store c1) h1 addr c2 victim ev2 Hp1 Hv)
      as (hv & Hpv & _ & Ehv & _).
    cbn zeta in H.
    set (c3 := if valid victim && dirty victim then count_writeback c2 else c2) in *.
    assert (H3 : pol c3 = Hawkeye hv /\ wf c3 /\ same_geometry c c3).
    { assert (Hg : same_geometry c c2).
      { eapply same_geometry_trans; [exact Hg1|].
        eapply same_geometry_trans; [|exact Hg2]. repeat split. }
      subst c3. destruct (valid victim && dirty victim); [|auto].
      split; [exact Hpv|]. split.
      - apply (wf_ext c2); [repeat split|reflexivity|reflexivity|exact Hwf2].
      - eapply same_geometry_trans; [exact Hg|]. repeat split. }
    destruct H3 as (Hp3 & Hwf3 & Hg3).
    destruct H as [(_ & -> & _)|(_ & c4 & p & ev3 & Hct2 & -> & _)].
    + rewrite Hp3 in Hp'. injection Hp' as <-.
      unfold sampler_of in *. rewrite Ehv. exact Hi1.
    + destruct (Step _ hv _ _ _ Hwf3 Hg3 Hp3 Hct2) as (h4 & Hp4 & _ & Hi4).
      destruct (mark_dirty_hawkeye p c4 h4 Hp4) as [E _].
      rewrite E in Hp'. injection Hp' as <-. exact Hi4.
Qed.

End sampler_runs.

(* ===================================================================== *)
(** ** Fully-associative replacement; the geometry check *)
(* ===================================================================== *)

Lemma om_delete_erase {V : Type} lo (n : nat) (m : omap V) k v :
  om_sorted_from lo m -> m !! n = Some (k, v) -> delete n m = om_erase k m.
Proof.
  revert lo n. induction m as [|[k0 v0] m IH]; intros lo n; [discriminate|].
  cbn [om_sorted_from]. intros [Hlt Hs]. destruct n as [|n]; cbn.
  - intros [= -> ->]. rewrite Z.eqb_refl. reflexivity.
  - intros Hn. destruct (Z.eqb_spec k0 k) as [->|Hne].
    + exfalso. apply om_sorted_from_keys in Hs. rewrite Forall_forall in Hs.
      assert (Hk : k ∈ om_keys m).
      { unfold om_keys. apply list_elem_of_fmap. exists (k, v).
        split; [reflexivity|]. eapply list_elem_of_lookup_2. eassumption. }
      apply Hs in Hk. lia.
    + f_equal. eapply IH; eassumption.
Qed.

Lemma land_pow2_pred a : 0 <= a -> Z.land (2 ^ a) (2 ^ a - 1) = 0.
Proof.
  intros Ha. apply Z.bits_inj'. intros i Hi.
  rewrite Z.land_spec, Z.bits_0, Z.pow2_bits_eqb by assumption.
  replace (2 ^ a - 1) with (Z.ones a) by (rewrite Z.ones_equiv; lia).
  destruct (Z.eqb_spec a i) as [->|Hne]; [|reflexivity].
  rewrite Z.ones_spec_high by lia. reflexivity.
Qed.

Section fully_associative.
Context {deps : hawkeye_deps}.
Implicit Types c : cache_sim_t.

(** X20.  [fa_cache_sim_t::victimize] files the tag of the address under
    its line number.  A map with room only grows by that entry and the
    victim is 0; a full map first loses exactly one entry, whose word is
    the victim, and keeps its size.  Every other entry stays as it was. *)
Theorem fully_associative_evicts_one_line c m addr c1 v m1 :
  wf c -> pol c = FullyAssoc m ->
  om_find (line_of c addr) m = None ->
  fa_victimize c m addr = Ok (c1, v) -> pol c1 = FullyAssoc m1 ->
  om_find (line_of c addr) m1 = Some (tag_of c addr) /\
  if om_size m =? ways c
  then om_size m1 = om_size m /\
       exists k, om_find k m = Some v /\ om_find k m1 = None /\
         forall k', k' <> k -> k' <> line_of c addr ->
                    om_find k' m1 = om_find k' m
  else v = 0 /\ om_size m1 = om_size m + 1 /\
       forall k', k' <> line_of c addr -> om_find k' m1 = om_find k' m.
Proof.
  intros Hwf Hp Hmiss H Hp1.
  pose proof (wf_pol c Hwf) as Hm. rewrite Hp in Hm. destruct Hm as (Hs & _ & _).
  unfold fa_victimize in H. fold (line_of c addr) in H.
  destruct (om_size m =? ways c).
  - cbn [lfsr_next] in H. destruct (ways c =? 0); [discriminate|].
    destruct (m !! Z.to_nat _) as [[k old]|] eqn:En; [|discriminate].
    injection H as <- <-. cbn [set_pol set_lfsr pol] in Hp1. injection Hp1 as <-.
    rewrite (om_delete_erase _ _ _ _ _ Hs En).
    assert (Hk : om_find k m = Some old).
    { eapply om_In_find; [exact Hs|]. apply list_elem_of_In.
      eapply list_elem_of_lookup_2. eassumption. }
    assert (Hne : k <> line_of c addr) by congruence.
    split; [apply om_find_set_same|]. split.
    + rewrite om_size_set_new.
      * rewrite (om_size_erase _ _ _ Hk). lia.
      * rewrite om_find_erase_other by assumption. assumption.
    + exists k. split; [assumption|]. split.
      * rewrite om_find_set_other by congruence.
        eapply om_find_erase_same. eassumption.
      * intros k' H1 H2. rewrite om_find_set_other by congruence.
        apply om_find_erase_other. congruence.
  - injection H as <- <-. cbn [set_pol pol] in Hp1. injection Hp1 as <-.
    split; [apply om_find_set_same|]. split; [reflexivity|]. split.
    + apply om_size_set_new. assumption.
    + intros k' H1. apply om_find_set_other. congruence.
Qed.

(** X21.  [init] accepts exactly the geometries with [sets] a power of
    two and [linesz] a power of two that is at least 8; for those the loop
    computes [idx_shift] as the binary logarithm of [linesz]. *)
Theorem init_accepts_exactly_powers_of_two s w l n p :
  uint64 s -> uint64 l ->
  ((exists c, init s w l n p = Ok c) <->
   (exists a b, 0 <= a < 64 /\ 3 <= b < 64 /\ s = 2 ^ a /\ l = 2 ^ b)) /\
  (forall c, init s w l n p = Ok c ->
     idx_shift c = Z.log2 l /\ linesz c = 2 ^ idx_shift c).
Proof.
  intros Hs Hl. split; [split|].
  - intros [c H]. apply init_inv in H as [Hg _].
    pose proof (geometry_ok_sets _ _ Hg Hs) as E1.
    pose proof (geometry_ok_linesz _ _ Hg Hl) as [E2 R2].
    exists (Z.log2 s), (Z.log2 l).
    split; [|split; [assumption|split; assumption]].
    split; [apply Z.log2_nonneg|].
    unfold uint64 in Hs. destruct (Z.eq_dec s 0) as [->|]; [cbn; lia|].
    apply Z.log2_lt_pow2; lia.
  - intros (a & b & Ra & Rb & -> & ->).
    assert (P1 : 0 < 2 ^ a) by (apply Z.pow_pos_nonneg; lia).
    assert (P2 : 8 <= 2 ^ b).
    { change 8 with (2 ^ 3). apply Z.pow_le_mono_r; lia. }
    unfold uint64 in *.
    destruct (init (2 ^ a) w (2 ^ b) n p) as [c|e] eqn:E; [eauto|exfalso].
    assert (Hok : is_ok (init (2 ^ a) w (2 ^ b) n p) = true).
    { rewrite init_ok_iff. unfold geometry_ok.
      rewrite !wrap64_small by (unfold uint64; lia).
      rewrite !land_pow2_pred by lia.
      destruct (Z.eqb_spec (2 ^ a) 0); [lia|].
      destruct (Z.ltb_spec (2 ^ b) 8); [lia|]. reflexivity. }
    rewrite E in Hok. discriminate.
  - intros c H. pose proof H as H'. apply init_inv in H' as [Hg ->].
    pose proof (geometry_ok_linesz _ _ Hg Hl) as [E2 R2].
    cbn [idx_shift linesz].
    assert (E : shift_loop 64 l 0 = Z.log2 l).
    { rewrite E2 at 1. rewrite shift_loop_pow2 by lia. lia. }
    rewrite E. split; [reflexivity|assumption].
Qed.

End fully_associative.

(* ===================================================================== *)
(** ** The tag array of a copy *)
(* ===================================================================== *)

(** X22.  The copy constructor gives the copy a tag array of its own:
    [new] returns a block that was not in use, [memcpy] fills it with the
    first [sets*ways] words of the source, every other block stays as it
    was, and a later store through either pointer is not seen through the
    other. *)
Theorem copied_tags_are_a_block_of_their_own h p n h' q :
  copy_tags h p n = Ok (h', q) ->
  h !! q = None /\
  (forall p', p' <> q -> h' !! p' = h !! p') /\
  (exists src, h !! p = Some src /\ (n <= length src)%nat /\
               h' !! q = Some (take n src)) /\
  (forall i v j, heap_load (heap_store h' q i v) p j = heap_load h p j) /\
  (forall i v j, heap_load (heap_store h' p i v) q j = heap_load h' q j).
Proof.
  unfold copy_tags. destruct (h !! p) as [src|] eqn:Hp; [|discriminate].
  destruct (decide (n <= length src)%nat) as [Hn|]; [|discriminate].
  intros [= <- <-]. pose proof (new_block_fresh h) as Hf.
  assert (Hne : new_block h <> p) by congruence.
  unfold heap_load, heap_store, heap in *.
  split; [assumption|]. split; [|split; [|split]].
  - intros p' Hp'. apply lookup_insert_ne. congruence.
  - exists src. split; [reflexivity|]. split; [assumption|].
    apply lookup_insert_eq.
  - intros i v j. rewrite lookup_alter_ne by assumption.
    rewrite lookup_insert_ne by assumption. reflexivity.
  - intros i v j. rewrite lookup_alter_ne by congruence. reflexivity.
Qed.

(* ===================================================================== *)
(** ** The properties on concrete caches *)
(* ===================================================================== *)

Lemma hawkeye_of_spec c : kind_of (pol c) = KHawkeye -> pol c = Hawkeye (hawkeye_of c).
Proof. unfold hawkeye_of. destruct (pol c); try discriminate. reflexivity. Qed.

Lemma fa_map_of_spec c :
  kind_of (pol c) = KFullyAssoc -> pol c = FullyAssoc (fa_map_of c).
Proof. unfold fa_map_of. destruct (pol c); try discriminate. reflexivity. Qed.

Lemma ok_replaced (r : res (cache_sim_t * Z)) d :
  is_ok r = true -> r = Ok (replaced r d, victim_of r).
Proof. destruct r as [[c v]|]; [reflexivity|discriminate]. Qed.

Lemma wired_random_2_2_64_configured : configured wired_random_2_2_64.
Proof.
  exists random_2_2_64, (Some 1%nat), false.
  split; [exact random_2_2_64_constructed|reflexivity].
Qed.

Lemma stored_line_0_inv : wf stored_line_0 /\ no_duplicate_tags stored_line_0.
Proof.
  destruct (access_inv 0 random_2_2_64 0 8 true stored_line_0
              (events_of (access 0 random_2_2_64 0 8 true))) as (H1 & H2 & _).
  - exact (proj1 (constructed_inv _ random_2_2_64_constructed)).
  - exact (proj2 (constructed_inv _ random_2_2_64_constructed)).
  - unfold uint64. lia.
  - apply ok_state_events. vm_compute. reflexivity.
  - split; assumption.
Qed.

Lemma warm_up_typed : well_typed warm_up.
Proof. repeat constructor; cbn; lia. Qed.

Lemma load_twice_typed : well_typed load_twice.
Proof. repeat constructor; cbn; lia. Qed.

(* Address 4 is in the line that the store to address 0 left valid and
   dirty in way 1 of set 0. *)
Lemma check_tag_finds_the_valid_way_of_the_line_witness :
  base_check_tag stored_line_0 4 = Some (ArraySlot 1) /\
  dirty (slot_word stored_line_0 (ArraySlot 1)) = true /\
  (is_Some (base_check_tag stored_line_0 4) <->
   exists i, 0 <= i < ways stored_line_0 /\
     valid (way_tag stored_line_0 (set_index stored_line_0 4) i) = true /\
     payload (way_tag stored_line_0 (set_index stored_line_0 4) i)
       = line_of stored_line_0 4) /\
  (forall p, base_check_tag stored_line_0 4 = Some p ->
     valid (slot_word stored_line_0 p) = true /\
     payload (slot_word stored_line_0 p) = line_of stored_line_0 4).
Proof.
  split; [vm_compute; reflexivity|]. split; [vm_compute; reflexivity|].
  apply (check_tag_finds_the_valid_way_of_the_line stored_line_0 4).
  - exact (proj1 stored_line_0_inv).
  - unfold uint64. lia.
Defined.

Lemma hawkeye_updates_the_way_it_returns_witness :
  0 <= last_matching_way
         (state_of (access 0 hawkeye_1_4_64 64 8 false) hawkeye_1_4_64) 64
    < ways (state_of (access 0 hawkeye_1_4_64 64 8 false) hawkeye_1_4_64) /\
  ArraySlot 0 =
    ArraySlot
      (set_index (state_of (access 0 hawkeye_1_4_64 64 8 false) hawkeye_1_4_64) 64
       * ways (state_of (access 0 hawkeye_1_4_64 64 8 false) hawkeye_1_4_64)
       + last_matching_way
           (state_of (access 0 hawkeye_1_4_64 64 8 false) hawkeye_1_4_64) 64).
Proof.
  assert (H : wf (state_of (access 0 hawkeye_1_4_64 64 8 false) hawkeye_1_4_64) /\
              no_duplicate_tags
                (state_of (access 0 hawkeye_1_4_64 64 8 false) hawkeye_1_4_64)).
  { destruct (access_inv 0 hawkeye_1_4_64 64 8 false
                (state_of (access 0 hawkeye_1_4_64 64 8 false) hawkeye_1_4_64)
                (events_of (access 0 hawkeye_1_4_64 64 8 false))) as (H1 & H2 & _).
    - exact (proj1 (constructed_inv _ hawkeye_1_4_64_constructed)).
    - exact (proj2 (constructed_inv _ hawkeye_1_4_64_constructed)).
    - unfold uint64. lia.
    - apply ok_state_events. vm_compute. reflexivity.
    - split; assumption. }
  apply (hawkeye_updates_the_way_it_returns
           (state_of (access 0 hawkeye_1_4_64 64 8 false) hawkeye_1_4_64) 64
           (ArraySlot 0)).
  - exact (proj1 H).
  - exact (proj2 H).
  - unfold uint64. lia.
  - vm_compute. reflexivity.
Defined.

Lemma victimize_replaces_one_way_witness :
  exists c' v evs,
    victimize 0 random_2_2_64 0 = Ok (c', v, evs) /\
    exists w, 0 <= w < ways random_2_2_64 /\
      v = way_tag random_2_2_64 (set_index random_2_2_64 0) w /\
      way_tag c' (set_index random_2_2_64 0) w = tag_of random_2_2_64 0 /\
      same_ways_except random_2_2_64 c' (set_index random_2_2_64 0) w.
Proof.
  assert (E : exists c' v evs, victimize 0 random_2_2_64 0 = Ok (c', v, evs))
    by (do 3 eexists; reflexivity).
  destruct E as (c' & v & evs & E). exists c', v, evs. split; [exact E|].
  apply (victimize_replaces_one_way 0 random_2_2_64 0 c' v evs).
  - exact (proj1 (constructed_inv _ random_2_2_64_constructed)).
  - vm_compute. discriminate.
  - exact E.
Defined.

Lemma fully_associative_map_stays_within_ways_witness :
  om_size (fa_map_of (state_of (run fa_1_8_64 read_write_read) fa_1_8_64))
    <= ways (state_of (run fa_1_8_64 read_write_read) fa_1_8_64) /\
  om_sorted_from (-1)
    (fa_map_of (state_of (run fa_1_8_64 read_write_read) fa_1_8_64)) /\
  Forall (fun e : Z * Z => valid (snd e) = true /\ payload (snd e) = fst e)
    (fa_map_of (state_of (run fa_1_8_64 read_write_read) fa_1_8_64)).
Proof.
  apply (fully_associative_map_stays_within_ways fa_1_8_64 read_write_read
           (state_of (run fa_1_8_64 read_write_read) fa_1_8_64)
           (events_of (run fa_1_8_64 read_write_read))).
  - exact fa_1_8_64_constructed.
  - exact read_write_read_typed.
  - apply ok_state_events. vm_compute. reflexivity.
  - apply fa_map_of_spec. vm_compute. reflexivity.
Defined.

Lemma lfsr_next_stays_nonzero_witness :
  0 < reg (lfsr_next lfsr_new).1 < 2 ^ 32 /\
  (lfsr_next lfsr_new).2 = reg (lfsr_next lfsr_new).1.
Proof.
  apply (lfsr_next_stays_nonzero lfsr_new). vm_compute. split; reflexivity.
Defined.

Lemma writeback_address_is_the_line_filled_witness :
  shl64 (payload (tag_of random_2_2_64 100)) (idx_shift random_2_2_64)
    = Z.land 100 (not64 (wrap64 (linesz random_2_2_64 - 1))) /\
  shl64 (payload (Z.lor (tag_of random_2_2_64 100) DIRTY))
        (idx_shift random_2_2_64)
    = Z.land 100 (not64 (wrap64 (linesz random_2_2_64 - 1))).
Proof.
  apply (writeback_address_is_the_line_filled random_2_2_64 100).
  - exact (proj1 (constructed_inv _ random_2_2_64_constructed)).
  - unfold uint64. lia.
Defined.

Lemma store_leaves_the_line_dirty_witness :
  exists p,
    lookup (state_of (access 0 random_2_2_64 0 8 true) random_2_2_64) 0 = Some p /\
    valid (slot_word (state_of (access 0 random_2_2_64 0 8 true) random_2_2_64) p)
      = true /\
    dirty (slot_word (state_of (access 0 random_2_2_64 0 8 true) random_2_2_64) p)
      = true /\
    payload (slot_word (state_of (access 0 random_2_2_64 0 8 true) random_2_2_64) p)
      = line_of random_2_2_64 0.
Proof.
  apply (store_leaves_the_line_dirty 0 random_2_2_64 0 8
           (state_of (access 0 random_2_2_64 0 8 true) random_2_2_64)
           (events_of (access 0 random_2_2_64 0 8 true))).
  - exact (proj1 (constructed_inv _ random_2_2_64_constructed)).
  - exact (proj2 (constructed_inv _ random_2_2_64_constructed)).
  - unfold uint64. lia.
  - apply ok_state_events. vm_compute. reflexivity.
Defined.

Lemma access_counts_witness :
  read_accesses (state_of (access 0 random_2_2_64 0 8 true) random_2_2_64)
    = (if true then read_accesses random_2_2_64
       else wrap64 (read_accesses random_2_2_64 + 1)) /\
  write_accesses (state_of (access 0 random_2_2_64 0 8 true) random_2_2_64)
    = (if true then wrap64 (write_accesses random_2_2_64 + 1)
       else write_accesses random_2_2_64) /\
  bytes_read (state_of (access 0 random_2_2_64 0 8 true) random_2_2_64)
    = (if true then bytes_read random_2_2_64
       else wrap64 (bytes_read random_2_2_64 + 8)) /\
  bytes_written (state_of (access 0 random_2_2_64 0 8 true) random_2_2_64)
    = (if true then wrap64 (bytes_written random_2_2_64 + 8)
       else bytes_written random_2_2_64) /\
  match lookup random_2_2_64 0 with
  | Some _ =>
      read_misses (state_of (access 0 random_2_2_64 0 8 true) random_2_2_64)
        = read_misses random_2_2_64 /\
      write_misses (state_of (access 0 random_2_2_64 0 8 true) random_2_2_64)
        = write_misses random_2_2_64 /\
      writebacks (state_of (access 0 random_2_2_64 0 8 true) random_2_2_64)
        = writebacks random_2_2_64
  | None =>
      read_misses (state_of (access 0 random_2_2_64 0 8 true) random_2_2_64)
        = (if true then read_misses random_2_2_64
           else wrap64 (read_misses random_2_2_64 + 1)) /\
      write_misses (state_of (access 0 random_2_2_64 0 8 true) random_2_2_64)
        = (if true then wrap64 (write_misses random_2_2_64 + 1)
           else write_misses random_2_2_64) /\
      (writebacks (state_of (access 0 random_2_2_64 0 8 true) random_2_2_64)
         = writebacks random_2_2_64 \/
       writebacks (state_of (access 0 random_2_2_64 0 8 true) random_2_2_64)
         = wrap64 (writebacks random_2_2_64 + 1))
  end.
Proof.
  apply (access_counts 0 random_2_2_64 0 8 true
           (state_of (access 0 random_2_2_64 0 8 true) random_2_2_64)
           (events_of (access 0 random_2_2_64 0 8 true))).
  apply ok_state_events. vm_compute. reflexivity.
Defined.

Lemma statistics_of_a_run_witness :
  read_accesses (state_of (run random_2_2_64 read_write_read) random_2_2_64)
    = loads read_write_read /\
  write_accesses (state_of (run random_2_2_64 read_write_read) random_2_2_64)
    = stores read_write_read /\
  read_accesses (state_of (run random_2_2_64 read_write_read) random_2_2_64)
  + write_accesses (state_of (run random_2_2_64 read_write_read) random_2_2_64)
    = Z.of_nat (length read_write_read) /\
  0 <= read_misses (state_of (run random_2_2_64 read_write_read) random_2_2_64)
    <= read_accesses (state_of (run random_2_2_64 read_write_read) random_2_2_64) /\
  0 <= write_misses (state_of (run random_2_2_64 read_write_read) random_2_2_64)
    <= write_accesses (state_of (run random_2_2_64 read_write_read) random_2_2_64) /\
  0 <= writebacks (state_of (run random_2_2_64 read_write_read) random_2_2_64)
    <= read_misses (state_of (run random_2_2_64 read_write_read) random_2_2_64)
       + write_misses (state_of (run random_2_2_64 read_write_read) random_2_2_64).
Proof.
  apply (statistics_of_a_run random_2_2_64 read_write_read
           (state_of (run random_2_2_64 read_write_read) random_2_2_64)
           (events_of (run random_2_2_64 read_write_read))).
  - exact random_2_2_64_constructed.
  - apply ok_state_events. vm_compute. reflexivity.
  - vm_compute. reflexivity.
Defined.

(* Both loads miss and are filled from the downstream cache. *)
Lemma loads_never_write_back_witness :
  downstream_calls (events_of (run wired_linear_2_2_64 load_twice))
    = [EvDownstream 0 64 false; EvDownstream 128 64 false] /\
  writebacks (state_of (run wired_linear_2_2_64 load_twice) wired_linear_2_2_64)
    = 0 /\
  clean (state_of (run wired_linear_2_2_64 load_twice) wired_linear_2_2_64) /\
  Forall (fun e => is_downstream_store e = false)
    (events_of (run wired_linear_2_2_64 load_twice)).
Proof.
  split; [vm_compute; reflexivity|].
  apply (loads_never_write_back wired_linear_2_2_64 load_twice
           (state_of (run wired_linear_2_2_64 load_twice) wired_linear_2_2_64)
           (events_of (run wired_linear_2_2_64 load_twice))).
  - exact wired_linear_2_2_64_configured.
  - exact load_twice_typed.
  - repeat constructor.
  - apply ok_state_events. vm_compute. reflexivity.
Defined.

(* The two fetches are in one line: the first is filled from the
   downstream cache, the second hits. *)
Lemma instruction_cache_never_writes_witness :
  downstream_calls (events_of (icache_run wired_random_2_2_64 traced))
    = [EvDownstream 0 64 false] /\
  write_accesses
    (state_of (icache_run wired_random_2_2_64 traced) wired_random_2_2_64) = 0 /\
  write_misses
    (state_of (icache_run wired_random_2_2_64 traced) wired_random_2_2_64) = 0 /\
  bytes_written
    (state_of (icache_run wired_random_2_2_64 traced) wired_random_2_2_64) = 0 /\
  writebacks
    (state_of (icache_run wired_random_2_2_64 traced) wired_random_2_2_64) = 0 /\
  clean (state_of (icache_run wired_random_2_2_64 traced) wired_random_2_2_64) /\
  Forall (fun e => is_downstream_store e = false)
    (events_of (icache_run wired_random_2_2_64 traced)).
Proof.
  split; [vm_compute; reflexivity|].
  apply (instruction_cache_never_writes wired_random_2_2_64 traced
           (state_of (icache_run wired_random_2_2_64 traced) wired_random_2_2_64)
           (events_of (icache_run wired_random_2_2_64 traced))).
  - exact wired_random_2_2_64_configured.
  - repeat constructor; cbn; lia.
  - apply ok_state_events. vm_compute. reflexivity.
Defined.

Lemma construct_builds_a_checked_geometry_witness :
  sets fa_1_8_64 = 2 ^ Z.log2 (sets fa_1_8_64) /\
  linesz fa_1_8_64 = 2 ^ idx_shift fa_1_8_64 /\
  8 <= linesz fa_1_8_64 /\
  (ways fa_1_8_64 < 2 ^ 31 ->
   constructed fa_1_8_64 /\ wf fa_1_8_64 /\ no_duplicate_tags fa_1_8_64).
Proof.
  apply (construct_builds_a_checked_geometry "1:8:64" "D$" fa_1_8_64).
  reflexivity.
Defined.

Lemma rrpv_stays_a_three_bit_value_witness :
  0 <= grid_at (rrpv (hawkeye_of warmed_up)) 0 0 <= MAX_RRPV.
Proof.
  apply (rrpv_stays_a_three_bit_value hawkeye_1_4_64 warm_up warmed_up
           (events_of (run hawkeye_1_4_64 warm_up)) (hawkeye_of warmed_up) 0 0).
  - exact hawkeye_1_4_64_constructed.
  - apply ok_state_events. vm_compute. reflexivity.
  - apply hawkeye_of_spec. vm_compute. reflexivity.
Defined.

Lemma accesses_stay_defined_witness :
  exists c evs, run random_2_2_64 read_write_read = Ok (c, evs).
Proof.
  apply (accesses_stay_defined random_2_2_64 read_write_read).
  - exact random_2_2_64_constructed.
  - reflexivity.
  - exact read_write_read_typed.
Defined.

Lemma linear_evict_takes_the_ways_in_turn_witness :
  exists c1 v1 ec1 c2 v2,
    (linear_victimize linear_2_2_64 ∅ 0 = Ok (c1, v1) /\
     pol c1 = Linear ec1 /\
     linear_victimize c1 ec1 128 = Ok (c2, v2)) /\
    way_tag c1 (set_index linear_2_2_64 0)
      (candidate ∅ (set_index linear_2_2_64 0)) = tag_of linear_2_2_64 0 /\
    candidate ec1 (set_index linear_2_2_64 0)
      = (candidate ∅ (set_index linear_2_2_64 0) + 1) mod ways linear_2_2_64 /\
    way_tag c2 (set_index linear_2_2_64 0)
      ((candidate ∅ (set_index linear_2_2_64 0) + 1) mod ways linear_2_2_64)
      = tag_of linear_2_2_64 128 /\
    (2 <= ways linear_2_2_64 ->
     way_tag c2 (set_index linear_2_2_64 0)
       (candidate ∅ (set_index linear_2_2_64 0)) = tag_of linear_2_2_64 0).
Proof.
  assert (E : exists c1 v1 ec1 c2 v2,
            linear_victimize linear_2_2_64 ∅ 0 = Ok (c1, v1) /\
            pol c1 = Linear ec1 /\
            linear_victimize c1 ec1 128 = Ok (c2, v2)).
  { do 5 eexists. split; [reflexivity|]. split; reflexivity. }
  destruct E as (c1 & v1 & ec1 & c2 & v2 & E1 & E2 & E3).
  exists c1, v1, ec1, c2, v2. split; [exact (conj E1 (conj E2 E3))|].
  apply (linear_evict_takes_the_ways_in_turn linear_2_2_64 ∅ 0 c1 v1 ec1 128 c2 v2).
  - exact (proj1 (constructed_inv _ linear_2_2_64_constructed)).
  - reflexivity.
  - reflexivity.
  - exact E1.
  - exact E2.
  - vm_compute. reflexivity.
  - exact E3.
Defined.


Lemma random_policy_draws_once_per_miss_witness :
  lfsr (state_of (access 0 random_2_2_64 0 8 false) random_2_2_64)
    = match lookup random_2_2_64 0 with
      | Some _ => lfsr random_2_2_64
      | None => (lfsr_next (lfsr random_2_2_64)).1
      end.
Proof.
  apply (random_policy_draws_once_per_miss 0 random_2_2_64 0 8 false
           (state_of (access 0 random_2_2_64 0 8 false) random_2_2_64)
           (events_of (access 0 random_2_2_64 0 8 false))).
  - exact (proj1 (constructed_inv _ random_2_2_64_constructed)).
  - exact (proj2 (constructed_inv _ random_2_2_64_constructed)).
  - unfold uint64. lia.
  - reflexivity.
  - apply ok_state_events. vm_compute. reflexivity.
Defined.

Lemma sampler_stays_an_lru_stack_witness :
  Forall (lru_stack warmed_up) (addr_history (hawkeye_of warmed_up)) /\
  Forall (fun m => om_size m = ways warmed_up ->
            is_Some (List.find
                       (fun e : Z * ADDR_INFO =>
                          lru (snd e) =? wrap64 (ways warmed_up - 1))
                       m))
         (addr_history (hawkeye_of warmed_up)).
Proof.
  apply (sampler_stays_an_lru_stack hawkeye_1_4_64 warm_up warmed_up
           (events_of (run hawkeye_1_4_64 warm_up)) (hawkeye_of warmed_up)).
  - exact hawkeye_1_4_64_constructed.
  - split; reflexivity.
  - exact warm_up_typed.
  - apply ok_state_events. vm_compute. reflexivity.
  - apply hawkeye_of_spec. vm_compute. reflexivity.
Defined.

Lemma accessed_line_is_most_recent_witness :
  exists info,
    om_find (tag_of hawkeye_1_4_64 64)
      (sampler_of hawkeye_1_4_64
         (hawkeye_of (state_of (access 0 hawkeye_1_4_64 64 8 true) hawkeye_1_4_64))
         64) = Some info /\
    lru info = 0.
Proof.
  apply (accessed_line_is_most_recent 0 hawkeye_1_4_64 (hawkeye_new_state 1 4)
           64 8 true
           (state_of (access 0 hawkeye_1_4_64 64 8 true) hawkeye_1_4_64)
           (events_of (access 0 hawkeye_1_4_64 64 8 true))
           (hawkeye_of (state_of (access 0 hawkeye_1_4_64 64 8 true) hawkeye_1_4_64))).
  - exact (proj1 (constructed_inv _ hawkeye_1_4_64_constructed)).
  - exact (proj2 (constructed_inv _ hawkeye_1_4_64_constructed)).
  - unfold uint64. lia.
  - reflexivity.
  - apply ok_state_events. vm_compute. reflexivity.
  - apply hawkeye_of_spec. vm_compute. reflexivity.
Defined.

Lemma fully_associative_evicts_one_line_witness :
  om_find (line_of fa_1_8_64 64)
    (fa_map_of (replaced (fa_victimize fa_1_8_64 [] 64) fa_1_8_64))
    = Some (tag_of fa_1_8_64 64) /\
  if om_size ([] : omap Z) =? ways fa_1_8_64
  then om_size (fa_map_of (replaced (fa_victimize fa_1_8_64 [] 64) fa_1_8_64))
         = om_size ([] : omap Z) /\
       exists k, om_find k ([] : omap Z) = Some (victim_of (fa_victimize fa_1_8_64 [] 64)) /\
         om_find k (fa_map_of (replaced (fa_victimize fa_1_8_64 [] 64) fa_1_8_64))
           = None /\
         forall k', k' <> k -> k' <> line_of fa_1_8_64 64 ->
           om_find k' (fa_map_of (replaced (fa_victimize fa_1_8_64 [] 64) fa_1_8_64))
             = om_find k' ([] : omap Z)
  else victim_of (fa_victimize fa_1_8_64 [] 64) = 0 /\
       om_size (fa_map_of (replaced (fa_victimize fa_1_8_64 [] 64) fa_1_8_64))
         = om_size ([] : omap Z) + 1 /\
       forall k', k' <> line_of fa_1_8_64 64 ->
         om_find k' (fa_map_of (replaced (fa_victimize fa_1_8_64 [] 64) fa_1_8_64))
           = om_find k' ([] : omap Z).
Proof.
  apply (fully_associative_evicts_one_line fa_1_8_64 [] 64
           (replaced (fa_victimize fa_1_8_64 [] 64) fa_1_8_64)
           (victim_of (fa_victimize fa_1_8_64 [] 64))
           (fa_map_of (replaced (fa_victimize fa_1_8_64 [] 64) fa_1_8_64))).
  - exact (proj1 (constructed_inv _ fa_1_8_64_constructed)).
  - reflexivity.
  - reflexivity.
  - apply ok_replaced. vm_compute. reflexivity.
  - apply fa_map_of_spec. vm_compute. reflexivity.
Defined.

Lemma init_accepts_exactly_powers_of_two_witness :
  ((exists c, init 2 2 64 "D$" Random = Ok c) <->
   (exists a b, 0 <= a < 64 /\ 3 <= b < 64 /\ 2 = 2 ^ a /\ 64 = 2 ^ b)) /\
  (forall c, init 2 2 64 "D$" Random = Ok c ->
     idx_shift c = Z.log2 64 /\ linesz c = 2 ^ idx_shift c).
Proof.
  apply (init_accepts_exactly_powers_of_two 2 2 64 "D$" Random).
  - unfold uint64. lia.
  - unfold uint64. lia.
Defined.

Lemma copied_tags_are_a_block_of_their_own_witness :
  exists h' q,
    copy_tags one_block 0 2 = Ok (h', q) /\
    one_block !! q = None /\
    (forall p', p' <> q -> h' !! p' = one_block !! p') /\
    (exists src, one_block !! 0%nat = Some src /\ (2 <= length src)%nat /\
                 h' !! q = Some (take 2 src)) /\
    (forall i v j, heap_load (heap_store h' q i v) 0 j = heap_load one_block 0 j) /\
    (forall i v j, heap_load (heap_store h' 0 i v) q j = heap_load h' q j).
Proof.
  assert (E : exists h' q, copy_tags one_block 0 2 = Ok (h', q))
    by (do 2 eexists; reflexivity).
  destruct E as (h' & q & E). exists h', q. split; [exact E|].
  apply (copied_tags_are_a_block_of_their_own one_block 0 2 h' q). exact E.
Defined.
